(** * Algebraic expression parser (lab1-code/parser.py)

    A shallow embedding of the lexer and of the recursive-descent parser of
    [parser.py], with the properties of its specification proved about it.

    Python strings are modelled by [string]: a sequence of code points in
    the range U+0000 .. U+00FF, one [ascii] per code point.  Exceptions are
    values of [exn]; a function that may raise returns a [result].  Python
    [while] loops and the recursion of the parser are recursive functions
    on a fuel counter; each entry point supplies its own fuel and is proved
    never to exhaust it.

    The code is modelled twice.  [Lexer], [Parser] and
    [parse_expression_from_string] are the code on a call stack without
    limit.  [StackLexer], [StackParser] and [Stack] are the same code with
    the room that its calls take on the stack of the interpreter: they
    raise [RecursionError] where the room is used up, and are proved to do
    what the former do otherwise. *)

From Stdlib Require Import ZArith List String Ascii Bool Lia PeanoNat.
From Stdlib Require Import PrimFloat FloatOps SpecFloat.
From Stdlib Require Decimal DecimalString DecimalPos DecimalN.
From Stdlib Require Sorted.
Import ListNotations.

Set Implicit Arguments.

(** ** Strings *)

(** The first character of a string, if any. *)
Definition head (s : string) : option ascii :=
  match s with
  | EmptyString => None
  | String c _ => Some c
  end.

(** The longest prefix whose characters all satisfy [f]. *)
Fixpoint take_while (f : ascii -> bool) (s : string) : string :=
  match s with
  | EmptyString => EmptyString
  | String c s' => if f c then String c (take_while f s') else EmptyString
  end.

(** What follows the longest prefix whose characters all satisfy [f]. *)
Fixpoint drop_while (f : ascii -> bool) (s : string) : string :=
  match s with
  | EmptyString => EmptyString
  | String c s' => if f c then drop_while f s' else s
  end.

Fixpoint all_chars (f : ascii -> bool) (s : string) : bool :=
  match s with
  | EmptyString => true
  | String c s' => f c && all_chars f s'
  end.

(** Number of occurrences of [c] in [s]. *)
Fixpoint occurrences (c : ascii) (s : string) : nat :=
  match s with
  | EmptyString => 0
  | String d s' => (if Ascii.eqb d c then 1 else 0) + occurrences c s'
  end.

(** ** Python values and builtins *)

(** The values that a token or a literal node can hold: [int], [float],
    [str] and [None]. *)
Inductive pyval : Type :=
| PyInt (z : Z)
| PyFloat (f : float)
| PyStr (s : string)
| PyNone.

Module Py.

Definition ord (c : ascii) : nat := nat_of_ascii c.

(** [str.isspace] on one character: the code points below U+0100 whose
    bidirectional class is WS, B or S, or whose category is Zs. *)
Definition isspace (c : ascii) : bool :=
  let n := ord c in
  ((9 <=? n) && (n <=? 13)) || ((28 <=? n) && (n <=? 32))
  || (n =? 133) || (n =? 160).

(** The decimal digits [0] .. [9]. *)
Definition is_decimal (c : ascii) : bool :=
  let n := ord c in (48 <=? n) && (n <=? 57).

(** [str.isdigit] on one character: the decimal digits and, below
    U+0100, the superscript digits U+00B2, U+00B3 and U+00B9. *)
Definition isdigit (c : ascii) : bool :=
  let n := ord c in
  is_decimal c || (n =? 178) || (n =? 179) || (n =? 185).

Definition digit_value (c : ascii) : Z := Z.of_nat (ord c) - 48.

Definition all_decimal (s : string) : bool := all_chars is_decimal s.

(** Value of a string of decimal digits, most significant digit first. *)
Fixpoint decimal_value (acc : Z) (s : string) : Z :=
  match s with
  | EmptyString => acc
  | String c s' => decimal_value (10 * acc + digit_value c) s'
  end.

(** [sys.get_int_max_str_digits()], as the interpreter starts with it: the
    number of digits above which [int] refuses a string. *)
Definition int_max_str_digits : nat := 4300.

Arguments int_max_str_digits : simpl never.

(** What [int(s)] gives: the integer, or one of its two [ValueError]s. *)
Inductive conversion : Type :=
| Converted (z : Z)
| Invalid
    (* invalid literal for int() with base 10 *)
| TooLong (digits : nat).
    (* Exceeds the limit (4300 digits) for integer string conversion *)

(** [int(s)] for a string [s] without sign, blanks or underscores (the
    strings [read_number] builds contain none).  [int] counts the decimal
    digits that [s] starts with, and refuses [s] when they are more than
    [int_max_str_digits], before it looks at what follows them; otherwise
    it gives the exact value of a non-empty string of decimal digits, and
    refuses any other string. *)
Definition int (s : string) : conversion :=
  let digits := String.length (take_while is_decimal s) in
  if int_max_str_digits <? digits then TooLong digits
  else
    match s with
    | EmptyString => Invalid
    | String _ _ =>
        if all_decimal s then Converted (decimal_value 0 s) else Invalid
    end.

(** [str(n)] for a natural number [n]: its decimal numeral. *)
Definition str (n : N) : string :=
  DecimalString.NilEmpty.string_of_uint (N.to_uint n).

(** [c in s]. *)
Fixpoint contains (c : ascii) (s : string) : bool :=
  match s with
  | EmptyString => false
  | String d s' => Ascii.eqb d c || contains c s'
  end.

(** The text before the first [c] and the text after it. *)
Fixpoint split_at (c : ascii) (s : string) : string * string :=
  match s with
  | EmptyString => (EmptyString, EmptyString)
  | String d s' =>
      if Ascii.eqb d c then (EmptyString, s')
      else let (a, b) := split_at c s' in (String d a, b)
  end.

(** The binary64 number nearest to [p / q] for [0 < p] and [0 < q],
    ties to even; an infinity when [p / q] is too large. *)
Definition nearest_binary64 (p q : Z) : float :=
  let e := (Z.log2 p - Z.log2 q)%Z in
  let above :=
    if (0 <=? e)%Z then (q * 2 ^ e <=? p)%Z else (q <=? p * 2 ^ (- e))%Z in
  let fl := if above then e else (e - 1)%Z in
  let ex := Z.max (fl - 52) (-1074) in
  let num := if (0 <=? ex)%Z then p else (p * 2 ^ (- ex))%Z in
  let den := if (0 <=? ex)%Z then (q * 2 ^ ex)%Z else q in
  let quo := (num / den)%Z in
  let rem := (num mod den)%Z in
  let m :=
    if (2 * rem <? den)%Z then quo
    else if (den <? 2 * rem)%Z then (quo + 1)%Z
    else if Z.even quo then quo else (quo + 1)%Z in
  match m with
  | Zpos mp => SF2Prim (S754_finite false mp ex)
  | _ => zero
  end.

(** [float(z)] for an integer [z]. *)
Definition float_of_int (z : Z) : float :=
  match z with
  | Z0 => zero
  | Zpos _ => nearest_binary64 z 1
  | Zneg _ => (- nearest_binary64 (- z) 1)%float
  end.

(** The binary64 number nearest to the decimal with integer part [ip] and
    fractional part [fp], two strings of decimal digits. *)
Definition decimal_float (ip fp : string) : float :=
  let m := decimal_value 0 (ip ++ fp) in
  if (m =? 0)%Z then zero
  else nearest_binary64 m (10 ^ Z.of_nat (String.length fp)).

(** [float(s)] for a string [s] made of digits and decimal points (the
    strings [read_number] builds contain nothing else): the binary64
    number nearest to the decimal written, when [s] has at most one
    decimal point, at least one digit and only decimal digits, and
    [ValueError] (here [None]) otherwise. *)
Definition float (s : string) : option float :=
  let (ip, fp) := split_at "."%char s in
  let ds := (ip ++ fp)%string in
  match ds with
  | EmptyString => None
  | String _ _ => if all_decimal ds then Some (decimal_float ip fp) else None
  end.

End Py.

(** ** Tokens, exceptions and results *)

Inductive TokenType : Type :=
| NUMBER | PLUS | MINUS | MULTIPLY | DIVIDE | LPAREN | RPAREN | EOF.

(** [TokenType.value]: the string attached to each member. *)
Definition TokenType_value (t : TokenType) : string :=
  match t with
  | NUMBER => "NUMBER" | PLUS => "PLUS" | MINUS => "MINUS"
  | MULTIPLY => "MULTIPLY" | DIVIDE => "DIVIDE"
  | LPAREN => "LPAREN" | RPAREN => "RPAREN" | EOF => "EOF"
  end.

Definition TokenType_eqb (a b : TokenType) : bool :=
  match a, b with
  | NUMBER, NUMBER | PLUS, PLUS | MINUS, MINUS | MULTIPLY, MULTIPLY
  | DIVIDE, DIVIDE | LPAREN, LPAREN | RPAREN, RPAREN | EOF, EOF => true
  | _, _ => false
  end.

Record Token : Type := mkToken {
  type : TokenType;
  value : pyval;
  position : nat
}.

(** The messages of the [ValueError]s that lexing and parsing raise. *)
Inductive message : Type :=
| InvalidCharacter (c : ascii) (pos : nat)
    (* Invalid character 'c' at position pos *)
| ExpectedGot (expected actual : string)
    (* Expected <expected>, got <actual> *)
| UnexpectedToken (t : Token)
    (* Unexpected token: <t> *)
| InvalidIntLiteral (s : string)
    (* raised by int(s): invalid literal for int() with base 10: 's' *)
| ExceedsDigitLimit (digits : nat)
    (* raised by int(s): Exceeds the limit (4300 digits) for integer
       string conversion: value has <digits> digits *)
| InvalidFloatLiteral (s : string).
    (* raised by float(s) *)

Inductive exn : Type :=
| ValueError (m : message)
| AttributeError
    (* the access [None.type] *)
| RecursionError.
    (* maximum recursion depth exceeded *)

Inductive result (A : Type) : Type :=
| Ok (a : A)
| Raise (e : exn)
| OutOfFuel.

Arguments Raise {A} e.
Arguments OutOfFuel {A}.

Definition bind {A B : Type} (r : result A) (k : A -> result B) : result B :=
  match r with
  | Ok a => k a
  | Raise e => Raise e
  | OutOfFuel => OutOfFuel
  end.

Notation "x <- r ;; k" := (bind r (fun x => k))
  (at level 61, r at next level, right associativity).
Notation "' p <- r ;; k" := (bind r (fun x => let p := x in k))
  (at level 61, p pattern, r at next level, right associativity).

(** ** The lexer *)

Module Lexer.

Record t : Type := mk {
  text : string;
  position : nat;
  current_char : option ascii
}.

(** [text[position] if position < len(text) else None] *)
Definition char_at (s : string) (p : nat) : option ascii :=
  if p <? String.length s then String.get p s else None.

Definition init (text : string) : t :=
  mk text 0 (char_at text 0).

Definition advance (l : t) : t :=
  let p := position l + 1 in
  mk (text l) p
     (if String.length (text l) <=? p then None else String.get p (text l)).

(** Enough iterations for any loop that advances once per iteration. *)
Definition fuel (l : t) : nat := String.length (text l) - position l + 2.

Fixpoint skip_whitespace_loop (n : nat) (l : t) : result t :=
  match n with
  | O => OutOfFuel
  | S n' =>
      match current_char l with
      | Some c =>
          if Py.isspace c then skip_whitespace_loop n' (advance l) else Ok l
      | None => Ok l
      end
  end.

Definition skip_whitespace (l : t) : result t :=
  skip_whitespace_loop (fuel l) l.

Definition digit_or_dot (c : ascii) : bool :=
  Py.isdigit c || Ascii.eqb c ".".

(** The loop of [read_number]: [num_str] grows by the current character
    while it is a digit or a decimal point. *)
Fixpoint read_number_loop (n : nat) (num_str : string) (l : t)
  : result (string * t) :=
  match n with
  | O => OutOfFuel
  | S n' =>
      match current_char l with
      | Some c =>
          if digit_or_dot c
          then read_number_loop n' (num_str ++ String c EmptyString) (advance l)
          else Ok (num_str, l)
      | None => Ok (num_str, l)
      end
  end.

(** The end of [read_number]: the conversion of the text read. *)
Definition number_token (num_str : string) (start_pos : nat)
  : result Token :=
  if Py.contains "." num_str then
    match Py.float num_str with
    | Some f => Ok (mkToken NUMBER (PyFloat f) start_pos)
    | None => Raise (ValueError (InvalidFloatLiteral num_str))
    end
  else
    match Py.int num_str with
    | Py.Converted z => Ok (mkToken NUMBER (PyInt z) start_pos)
    | Py.Invalid => Raise (ValueError (InvalidIntLiteral num_str))
    | Py.TooLong digits => Raise (ValueError (ExceedsDigitLimit digits))
    end.

Definition read_number (l : t) : result (Token * t) :=
  let start_pos := position l in
  '(num_str, l') <- read_number_loop (fuel l) EmptyString l ;;
  token <- number_token num_str start_pos ;;
  Ok (token, l').

(** The single-character tokens. *)
Definition operator (c : ascii) : option TokenType :=
  if Ascii.eqb c "+" then Some PLUS
  else if Ascii.eqb c "-" then Some MINUS
  else if Ascii.eqb c "*" then Some MULTIPLY
  else if Ascii.eqb c "/" then Some DIVIDE
  else if Ascii.eqb c "(" then Some LPAREN
  else if Ascii.eqb c ")" then Some RPAREN
  else None.

Fixpoint get_next_token_loop (n : nat) (l : t) : result (Token * t) :=
  match n with
  | O => OutOfFuel
  | S n' =>
      match current_char l with
      | None => Ok (mkToken EOF PyNone (position l), l)
      | Some c =>
          if Py.isspace c then
            l' <- skip_whitespace l ;; get_next_token_loop n' l'
          else if Py.isdigit c then read_number l
          else
            match operator c with
            | Some k =>
                Ok (mkToken k (PyStr (String c EmptyString)) (position l),
                    advance l)
            | None => Raise (ValueError (InvalidCharacter c (position l)))
            end
      end
  end.

Definition get_next_token (l : t) : result (Token * t) :=
  get_next_token_loop (fuel l) l.

Fixpoint tokenize_loop (n : nat) (tokens : list Token) (l : t)
  : result (list Token * t) :=
  match n with
  | O => OutOfFuel
  | S n' =>
      '(token, l') <- get_next_token l ;;
      let tokens' := tokens ++ [token] in
      if TokenType_eqb (type token) EOF then Ok (tokens', l')
      else tokenize_loop n' tokens' l'
  end.

Definition tokenize (l : t) : result (list Token * t) :=
  tokenize_loop (fuel l) [] l.

(** The lexer that has read [pre] and has [rest] before it. *)
Definition state (pre rest : string) : t :=
  mk (pre ++ rest) (String.length pre) (head rest).

(** What [get_next_token] does in [state pre s], told on [pre] and [s]. *)
Definition next (pre s : string) : result (Token * t) :=
  let pre1 := (pre ++ take_while Py.isspace s)%string in
  let s1 := drop_while Py.isspace s in
  match s1 with
  | EmptyString => Ok (mkToken EOF PyNone (String.length pre1), state pre1 s1)
  | String c s2 =>
      if Py.isdigit c then
        let num_str := take_while digit_or_dot s1 in
        token <- number_token num_str (String.length pre1) ;;
        Ok (token, state (pre1 ++ num_str) (drop_while digit_or_dot s1))
      else
        match operator c with
        | Some k =>
            Ok (mkToken k (PyStr (String c EmptyString)) (String.length pre1),
                state (pre1 ++ String c EmptyString) s2)
        | None =>
            Raise (ValueError (InvalidCharacter c (String.length pre1)))
        end
  end.

(** The characters that [get_next_token] accepts at the start of a
    token or between two tokens: blanks, decimal digits and operators. *)
Definition recognized (c : ascii) : bool :=
  Py.isspace c || Py.is_decimal c
  || match operator c with Some _ => true | None => false end.

End Lexer.

(** ** The syntax tree *)

(** Modelled from the spec: the node classes [Num], [Add], [Minus],
    [Multi], [Div] and [Par] that [parser.py] imports from the module
    [calculator], which is not part of the sources.  The parser builds
    them as [Num(value)], [Add(left, right)], ... and [Par(expr)]: a
    literal, the four binary nodes with their two children, and a
    parenthesis with its one child. *)
Inductive Expr : Type :=
| Num (value : pyval)
| Add (left right : Expr)
| Minus (left right : Expr)
| Multi (left right : Expr)
| Div (left right : Expr)
| Par (expr : Expr).

(** ** The parser *)

Module Parser.

Record t : Type := mk {
  tokens : list Token;
  position : nat;
  current_token : option Token
}.

(** [self.tokens[0] if tokens else None] *)
Definition init (tokens : list Token) : t :=
  mk tokens 0 (match tokens with [] => None | tok :: _ => Some tok end).

Definition advance (p : t) : t :=
  let pos := position p + 1 in
  mk (tokens p) pos
     (if pos <? List.length (tokens p) then nth_error (tokens p) pos
      else None).

Definition expect (p : t) (token_type : TokenType) : result (Token * t) :=
  match current_token p with
  | Some token =>
      if TokenType_eqb (type token) token_type then Ok (token, advance p)
      else Raise (ValueError (ExpectedGot (TokenType_value token_type)
                                          (TokenType_value (type token))))
  | None =>
      Raise (ValueError (ExpectedGot (TokenType_value token_type) "EOF"))
  end.

Definition is_additive (k : TokenType) : bool :=
  match k with PLUS | MINUS => true | _ => false end.

Definition is_multiplicative (k : TokenType) : bool :=
  match k with MULTIPLY | DIVIDE => true | _ => false end.

(** The node that the loop of [parse_expression] builds for [op]. *)
Definition fold_additive (op : Token) (left right : Expr) : Expr :=
  match type op with
  | PLUS => Add left right
  | MINUS => Minus left right
  | _ => left
  end.

(** The node that the loop of [parse_term] builds for [op]. *)
Definition fold_multiplicative (op : Token) (left right : Expr) : Expr :=
  match type op with
  | MULTIPLY => Multi left right
  | DIVIDE => Div left right
  | _ => left
  end.

(** The three productions and the two [while] loops, on one fuel counter
    that decreases at every call and at every iteration. *)
Fixpoint parse_expression (n : nat) (p : t) : result (Expr * t) :=
  match n with
  | O => OutOfFuel
  | S n' =>
      '(lhs, p1) <- parse_term n' p ;;
      parse_expression_loop n' lhs p1
  end

with parse_expression_loop (n : nat) (left : Expr) (p : t)
  : result (Expr * t) :=
  match n with
  | O => OutOfFuel
  | S n' =>
      match current_token p with
      | Some op =>
          if is_additive (type op) then
            '(rhs, p2) <- parse_term n' (advance p) ;;
            parse_expression_loop n' (fold_additive op left rhs) p2
          else Ok (left, p)
      | None => Ok (left, p)
      end
  end

with parse_term (n : nat) (p : t) : result (Expr * t) :=
  match n with
  | O => OutOfFuel
  | S n' =>
      '(lhs, p1) <- parse_factor n' p ;;
      parse_term_loop n' lhs p1
  end

with parse_term_loop (n : nat) (left : Expr) (p : t)
  : result (Expr * t) :=
  match n with
  | O => OutOfFuel
  | S n' =>
      match current_token p with
      | Some op =>
          if is_multiplicative (type op) then
            '(rhs, p2) <- parse_factor n' (advance p) ;;
            parse_term_loop n' (fold_multiplicative op left rhs) p2
          else Ok (left, p)
      | None => Ok (left, p)
      end
  end

with parse_factor (n : nat) (p : t) : result (Expr * t) :=
  match n with
  | O => OutOfFuel
  | S n' =>
      match current_token p with
      | None => Raise AttributeError
      | Some token =>
          match type token with
          | NUMBER => Ok (Num (value token), advance p)
          | LPAREN =>
              '(expr, p2) <- parse_expression n' (advance p) ;;
              '(_, p3) <- expect p2 RPAREN ;;
              Ok (Par expr, p3)
          | _ => Raise (ValueError (UnexpectedToken token))
          end
      end
  end.

(** Enough fuel to parse the whole token list. *)
Definition fuel (p : t) : nat := 4 * List.length (tokens p) + 4.

Definition parse (p : t) : result (Expr * t) :=
  '(expr, p1) <- parse_expression (fuel p) p ;;
  match current_token p1 with
  | Some token =>
      if negb (TokenType_eqb (type token) EOF)
      then Raise (ValueError (UnexpectedToken token))
      else Ok (expr, p1)
  | None => Ok (expr, p1)
  end.

End Parser.

Definition parse_expression_from_string (expression : string) : result Expr :=
  '(tokens, _) <- Lexer.tokenize (Lexer.init expression) ;;
  '(expr, _) <- Parser.parse (Parser.init tokens) ;;
  Ok expr.

(** ** Evaluation *)

(** Modelled from the spec: the values of the evaluator of the module
    [calculator], which is not part of the sources; an exact integer or a
    decimal (binary64) number. *)
Inductive number : Type :=
| Int (z : Z)
| Decimal (f : float).

(** Modelled from the spec: the outcomes of the evaluator of the module
    [calculator]; a number, or the division-by-zero condition.
    [NotNumeric] stands for a literal that holds no number, of which the
    specification says nothing. *)
Inductive eval_result : Type :=
| Value (n : number)
| DivisionByZero
| NotNumeric.

(** Modelled from the spec: the promotion of a number of the evaluator to
    a decimal. *)
Definition to_decimal (n : number) : float :=
  match n with
  | Int z => Py.float_of_int z
  | Decimal f => f
  end.

(** Modelled from the spec: a number of the evaluator is an exact zero,
    integer or decimal. *)
Definition is_zero (n : number) : bool :=
  match n with
  | Int z => (z =? 0)%Z
  | Decimal f => PrimFloat.eqb f zero
  end.

(** Modelled from the spec: the promotion rule of the evaluator; two
    integers give an integer, and a decimal operand a decimal result. *)
Definition arith (iop : Z -> Z -> Z) (fop : float -> float -> float)
  (a b : number) : number :=
  match a, b with
  | Int x, Int y => Int (iop x y)
  | _, _ => Decimal (fop (to_decimal a) (to_decimal b))
  end.

(** Modelled from the spec: the division of the evaluator; a zero divisor
    is the division-by-zero condition, two integers that divide evenly give
    their integer quotient, any other operands their decimal quotient. *)
Definition divide (a b : number) : eval_result :=
  if is_zero b then DivisionByZero
  else
    match a, b with
    | Int x, Int y =>
        if (x mod y =? 0)%Z then Value (Int (x / y))
        else Value (Decimal (to_decimal a / to_decimal b)%float)
    | _, _ => Value (Decimal (to_decimal a / to_decimal b)%float)
    end.

(** Modelled from the spec: a binary node of the evaluator; both
    children are evaluated before their numbers are combined. *)
Definition eval_binary (f : number -> number -> eval_result)
  (l r : eval_result) : eval_result :=
  match l, r with
  | Value a, Value b => f a b
  | Value _, e => e
  | e, _ => e
  end.

(** Modelled from the spec: the evaluator [eval_value] of the module
    [calculator], which is not part of the sources.  A literal yields its
    number, a parenthesis the value of its content; a binary node evaluates
    both children and combines the two numbers, in decimal as soon as one
    of them is decimal; a division whose right operand is zero fails with
    [DivisionByZero]; two integers that divide evenly give their integer
    quotient, and their decimal quotient otherwise. *)
Fixpoint eval_value (e : Expr) : eval_result :=
  match e with
  | Num (PyInt z) => Value (Int z)
  | Num (PyFloat f) => Value (Decimal f)
  | Num _ => NotNumeric
  | Par e' => eval_value e'
  | Add l r =>
      eval_binary (fun a b => Value (arith Z.add PrimFloat.add a b))
                  (eval_value l) (eval_value r)
  | Minus l r =>
      eval_binary (fun a b => Value (arith Z.sub PrimFloat.sub a b))
                  (eval_value l) (eval_value r)
  | Multi l r =>
      eval_binary (fun a b => Value (arith Z.mul PrimFloat.mul a b))
                  (eval_value l) (eval_value r)
  | Div l r => eval_binary divide (eval_value l) (eval_value r)
  end.


(** What [next] returns: a token and the state after the text used,
    which is not empty unless the token is [EOF]; or a [ValueError]. *)
Inductive next_spec (pre s : string) : result (Token * Lexer.t) -> Prop :=
| next_eof tok used :
    type tok = EOF -> s = (used ++ "")%string ->
    all_chars Py.isspace used = true ->
    position tok = String.length (pre ++ used) ->
    next_spec pre s (Ok (tok, Lexer.state (pre ++ used) ""))
| next_token tok used s' :
    TokenType_eqb (type tok) EOF = false ->
    s = (used ++ s')%string -> used <> EmptyString ->
    next_spec pre s (Ok (tok, Lexer.state (pre ++ used) s'))
| next_error m :
    next_spec pre s (Raise (ValueError m)).

Definition is_eof (token : Token) : bool := TokenType_eqb (type token) EOF.

(** A token list as [tokenize] builds it: tokens that are not [EOF], then
    one [EOF] token. *)
Definition eof_terminated (tokens : list Token) : Prop :=
  exists body eof,
    tokens = body ++ [eof] /\ type eof = EOF /\
    forallb (fun token => negb (is_eof token)) body = true.

(** The parser that has consumed [pre] and has [rest] before it. *)
Definition parser_state (pre rest : list Token) : Parser.t :=
  Parser.mk (pre ++ rest) (List.length pre) (hd_error rest).

Definition has_eof (tokens : list Token) : bool := existsb is_eof tokens.

Definition no_eof (tokens : list Token) : bool :=
  forallb (fun token => negb (is_eof token)) tokens.

(** What a production or a loop of the parser returns in
    [parser_state pre rest] when [rest] holds an [EOF] token: a tree and
    the state after the tokens used, none of which is [EOF]; or a
    [ValueError].  [strict] tells that some token is used. *)
Inductive parsed (pre rest : list Token) (strict : bool)
  : result (Expr * Parser.t) -> Prop :=
| parsed_ok e used rest' :
    rest = used ++ rest' -> no_eof used = true ->
    (strict = true -> used <> []) ->
    parsed pre rest strict (Ok (e, parser_state (pre ++ used) rest'))
| parsed_error m :
    parsed pre rest strict (Raise (ValueError m)).

(** ** The grammar and its trees *)

(** The production that builds a node: 2 for [factor], 1 for [term], 0 for
    [expression]. *)
Definition level (e : Expr) : nat :=
  match e with
  | Num _ | Par _ => 2
  | Multi _ _ | Div _ _ => 1
  | Add _ _ | Minus _ _ => 0
  end.

(** The trees of the grammar
      expression := term (("+" | "-") term)*
      term       := factor (("*" | "/") factor)*
      factor     := NUMBER | "(" expression ")"
    with every operator grouping from the left: the right operand of an
    additive node is a term, the operands of a multiplicative node are a
    term and a factor. *)
Fixpoint well_nested (e : Expr) : bool :=
  match e with
  | Num _ => true
  | Par e' => well_nested e'
  | Add l r | Minus l r =>
      well_nested l && well_nested r && (1 <=? level r)
  | Multi l r | Div l r =>
      well_nested l && well_nested r && (1 <=? level l) && (2 <=? level r)
  end.

(** [spells e tokens]: [tokens] is the tree [e] written from left to
    right, each node with its own operator or parentheses. *)
Inductive spells : Expr -> list Token -> Prop :=
| spells_Num token :
    type token = NUMBER -> spells (Num (value token)) [token]
| spells_Par lp e tokens rp :
    type lp = LPAREN -> type rp = RPAREN -> spells e tokens ->
    spells (Par e) (lp :: tokens ++ [rp])
| spells_Add l tl op r tr :
    type op = PLUS -> spells l tl -> spells r tr ->
    spells (Add l r) (tl ++ op :: tr)
| spells_Minus l tl op r tr :
    type op = MINUS -> spells l tl -> spells r tr ->
    spells (Minus l r) (tl ++ op :: tr)
| spells_Multi l tl op r tr :
    type op = MULTIPLY -> spells l tl -> spells r tr ->
    spells (Multi l r) (tl ++ op :: tr)
| spells_Div l tl op r tr :
    type op = DIVIDE -> spells l tl -> spells r tr ->
    spells (Div l r) (tl ++ op :: tr).

(** [f] gives [r] whenever the fuel is large enough. *)
Definition returns {A : Type} (f : nat -> result A) (r : result A) : Prop :=
  exists n0, forall n, n0 <= n -> f n = r.

(** The first token to come satisfies [f]. *)
Definition starts_with (f : TokenType -> bool) (rest : list Token) : bool :=
  match rest with
  | token :: _ => f (type token)
  | [] => false
  end.

(** [parse_factor] reads [tokens] as [e]. *)
Definition factor_reads (e : Expr) (tokens : list Token) : Prop :=
  forall pre rest,
  returns (fun n => Parser.parse_factor n (parser_state pre (tokens ++ rest)))
          (Ok (e, parser_state (pre ++ tokens) rest)).

(** [parse_term] reads [tokens] as [e] and goes on with its loop. *)
Definition term_reads (e : Expr) (tokens : list Token) : Prop :=
  forall pre rest r,
  returns (fun n => Parser.parse_term_loop n e
                      (parser_state (pre ++ tokens) rest)) r ->
  returns (fun n => Parser.parse_term n (parser_state pre (tokens ++ rest))) r.

(** [parse_expression] reads [tokens] as [e] and goes on with its loop,
    when no multiplicative operator follows. *)
Definition expression_reads (e : Expr) (tokens : list Token) : Prop :=
  forall pre rest r,
  starts_with Parser.is_multiplicative rest = false ->
  returns (fun n => Parser.parse_expression_loop n e
                      (parser_state (pre ++ tokens) rest)) r ->
  returns (fun n => Parser.parse_expression n
                      (parser_state pre (tokens ++ rest))) r.

(** A tree returned with the tokens [used], which it spells. *)
Definition reads_as (pre rest : list Token) (tl : list Token) (lv : nat)
  (e : Expr) (p' : Parser.t) : Prop :=
  exists used rest',
    rest = used ++ rest' /\ p' = parser_state (pre ++ used) rest' /\
    spells e (tl ++ used) /\ well_nested e = true /\ lv <= level e.

(** ** Chains of operators *)

(** An operand that follows the first one in a chain: the operator before
    it, its tree and its tokens. *)
Definition operand : Type := (Token * Expr * list Token)%type.

(** The tree of a chain: each node folded is the left operand of the next
    one. *)
Definition chain_tree (fold : Token -> Expr -> Expr -> Expr) (first : Expr)
  (items : list operand) : Expr :=
  fold_left (fun acc '(op, e, _) => fold op acc e) items first.

(** The tokens of a chain, from left to right. *)
Definition chain_tokens (first : list Token) (items : list operand)
  : list Token :=
  first ++ flat_map (fun '(op, _, tokens) => op :: tokens) items.

(** Every operator of the chain satisfies [is_op] and every operand is a
    tree of the grammar, of level [lv] at least, spelled by its tokens. *)
Definition chain_of (is_op : TokenType -> bool) (lv : nat)
  (items : list operand) : Prop :=
  Forall (fun '(op, e, tokens) =>
            is_op (type op) = true /\ spells e tokens /\
            well_nested e = true /\ lv <= level e) items.

(** The characters of the six operators and parentheses. *)
Definition operator_chars : list ascii :=
  ["+"; "-"; "*"; "/"; "("; ")"]%char.

(** ** Tokens and their text *)

(** [lexeme_token pos lexeme token]: [token] is the token that
    [get_next_token] builds at the offset [pos] from the characters
    [lexeme]: nothing for [EOF], one operator character, or a digit and the
    digits and decimal points that follow it. *)
Inductive lexeme_token (pos : nat) : string -> Token -> Prop :=
| lexeme_eof :
    lexeme_token pos EmptyString (mkToken EOF PyNone pos)
| lexeme_operator c k :
    Lexer.operator c = Some k ->
    lexeme_token pos (String c EmptyString)
                 (mkToken k (PyStr (String c EmptyString)) pos)
| lexeme_number c lexeme token :
    Py.isdigit c = true ->
    all_chars Lexer.digit_or_dot lexeme = true ->
    Lexer.number_token (String c lexeme) pos = Ok token ->
    lexeme_token pos (String c lexeme) token.

(** [token_at text token]: [token] stands in [text] at its position, where
    its characters [lexeme] are found, between [before] and [after].  An
    operator token holds its one character, which is the character of its
    kind.  A [NUMBER] token is the conversion of its characters: they start
    with a decimal digit and are all the digits and decimal points found
    there, up to a character that is neither or to the end of the text.
    The [EOF] token has no character, stands at the end of the text and
    holds [None]. *)
Definition token_at (text : string) (token : Token) : Prop :=
  exists before lexeme after,
    text = (before ++ lexeme ++ after)%string /\
    position token = String.length before /\
    match type token with
    | EOF =>
        lexeme = EmptyString /\ after = EmptyString /\ value token = PyNone
    | NUMBER =>
        (exists c run, lexeme = String c run /\ Py.is_decimal c = true) /\
        all_chars Lexer.digit_or_dot lexeme = true /\
        (forall c, head after = Some c -> Lexer.digit_or_dot c = false) /\
        Lexer.number_token lexeme (position token) = Ok token
    | k =>
        exists c, lexeme = String c EmptyString /\
                  Lexer.operator c = Some k /\ value token = PyStr lexeme
    end.

(** The positions [ps] go up strictly, from [lo] at least. *)
Fixpoint increasing (lo : nat) (ps : list nat) : Prop :=
  match ps with
  | [] => True
  | p :: ps' => lo <= p /\ increasing (S p) ps'
  end.

(** [lexical_error before after e]: the exception [e] that the lexer
    raises with [before] read and [after] to come.  Either [after] starts
    with a character that is no blank, no digit and no operator, reported
    with its offset; or it starts with a digit and a run of digits and
    decimal points that [int] or [float] refuses, [int] for a character
    that is no decimal digit or for too many digits. *)
Definition lexical_error (before after : string) (e : exn) : Prop :=
  (exists c r,
     after = String c r /\ Py.isspace c = false /\ Py.isdigit c = false /\
     Lexer.operator c = None /\
     e = ValueError (InvalidCharacter c (String.length before)))
  \/ (exists c lexeme r,
     after = (String c lexeme ++ r)%string /\ Py.isdigit c = true /\
     all_chars Lexer.digit_or_dot lexeme = true /\
     ((e = ValueError (InvalidIntLiteral (String c lexeme)) /\
       Py.contains "." (String c lexeme) = false /\
       Py.int (String c lexeme) = Py.Invalid) \/
      (exists digits,
       e = ValueError (ExceedsDigitLimit digits) /\
       Py.contains "." (String c lexeme) = false /\
       Py.int (String c lexeme) = Py.TooLong digits /\
       Py.int_max_str_digits < digits) \/
      (e = ValueError (InvalidFloatLiteral (String c lexeme)) /\
       Py.contains "." (String c lexeme) = true /\
       Py.float (String c lexeme) = None))).

(** ** Up to offsets *)

(** Two tokens of the same kind that hold the same value, wherever they
    stand. *)
Definition same_token (a b : Token) : Prop :=
  type a = type b /\ value a = value b.

(** Two messages that differ by the offsets they report only. *)
Inductive same_message : message -> message -> Prop :=
| same_InvalidCharacter c pos1 pos2 :
    same_message (InvalidCharacter c pos1) (InvalidCharacter c pos2)
| same_ExpectedGot expected actual :
    same_message (ExpectedGot expected actual) (ExpectedGot expected actual)
| same_UnexpectedToken t1 t2 :
    same_token t1 t2 ->
    same_message (UnexpectedToken t1) (UnexpectedToken t2)
| same_InvalidIntLiteral s :
    same_message (InvalidIntLiteral s) (InvalidIntLiteral s)
| same_ExceedsDigitLimit digits :
    same_message (ExceedsDigitLimit digits) (ExceedsDigitLimit digits)
| same_InvalidFloatLiteral s :
    same_message (InvalidFloatLiteral s) (InvalidFloatLiteral s).

Inductive same_exn : exn -> exn -> Prop :=
| same_ValueError m1 m2 :
    same_message m1 m2 -> same_exn (ValueError m1) (ValueError m2)
| same_AttributeError : same_exn AttributeError AttributeError
| same_RecursionError : same_exn RecursionError RecursionError.

(** Two runs of [tokenize] that give the same tokens up to offsets, or
    raise the same exception up to offsets. *)
Definition same_tokens (r1 r2 : result (list Token * Lexer.t)) : Prop :=
  match r1, r2 with
  | Ok (tokens1, _), Ok (tokens2, _) => Forall2 same_token tokens1 tokens2
  | Raise e1, Raise e2 => same_exn e1 e2
  | _, _ => False
  end.

(** Two parsers at the same place of two token lists that are the same
    up to offsets. *)
Definition same_state (p1 p2 : Parser.t) : Prop :=
  exists pre1 rest1 pre2 rest2,
    p1 = parser_state pre1 rest1 /\ p2 = parser_state pre2 rest2 /\
    Forall2 same_token pre1 pre2 /\ Forall2 same_token rest1 rest2.

(** Two runs of the parser that give the same tree with their cursors at
    the same place, or raise the same exception up to offsets. *)
Definition same_parse (r1 r2 : result (Expr * Parser.t)) : Prop :=
  match r1, r2 with
  | Ok (e1, p1), Ok (e2, p2) => e1 = e2 /\ same_state p1 p2
  | Raise e1, Raise e2 => same_exn e1 e2
  | OutOfFuel, OutOfFuel => True
  | _, _ => False
  end.

(** Two outcomes of [parse_expression_from_string] that are the same tree,
    or the same exception up to offsets. *)
Definition same_result (r1 r2 : result Expr) : Prop :=
  match r1, r2 with
  | Ok e1, Ok e2 => e1 = e2
  | Raise e1, Raise e2 => same_exn e1 e2
  | _, _ => False
  end.

(** ** Reading a file *)

(** [s.rstrip()]: [s] without the blanks at its end. *)
Fixpoint rstrip (s : string) : string :=
  match s with
  | EmptyString => EmptyString
  | String c s' =>
      match rstrip s' with
      | EmptyString => if Py.isspace c then EmptyString else String c EmptyString
      | String d r => String c (String d r)
      end
  end.

(** [s.strip()]: [s] without the blanks at its start and at its end. *)
Definition strip (s : string) : string := rstrip (drop_while Py.isspace s).

(** [parse_expression_from_file], with the files given by [read]: the text
    that [open(filename, 'r')] and [file.read()] give for a name, and
    [None] when they raise an [OSError], which [parse_expression_from_file]
    lets through (here [None]). *)
Definition parse_expression_from_file (read : string -> option string)
  (filename : string) : option (result Expr) :=
  match read filename with
  | Some text => Some (parse_expression_from_string (strip text))
  | None => None
  end.

(** ** The exceptions of the parser *)

(** [syntax_error rest e]: an exception [e] that the parser raises with
    the tokens [rest] to come.  Either a token of [rest] is reported as
    unexpected, or as found where [RPAREN] is expected; or the tokens are
    used up, which takes a list without [EOF] token: then [expect] reports
    ["EOF"] and [parse_factor] raises an [AttributeError]. *)
Definition syntax_error (rest : list Token) (e : exn) : Prop :=
  (exists token, In token rest /\ e = ValueError (UnexpectedToken token))
  \/ (exists token,
        In token rest /\ type token <> RPAREN /\
        e = ValueError (ExpectedGot "RPAREN" (TokenType_value (type token))))
  \/ (has_eof rest = false /\ e = ValueError (ExpectedGot "RPAREN" "EOF"))
  \/ (has_eof rest = false /\ e = AttributeError).

(** What a production or a loop of the parser returns in
    [parser_state pre rest], whatever [rest]: a tree and the state after
    the tokens used, none of which is [EOF]; or a syntax error.  [strict]
    tells that some token is used. *)
Inductive ran (pre rest : list Token) (strict : bool)
  : result (Expr * Parser.t) -> Prop :=
| ran_ok e used rest' :
    rest = used ++ rest' -> no_eof used = true ->
    (strict = true -> used <> []) ->
    ran pre rest strict (Ok (e, parser_state (pre ++ used) rest'))
| ran_raise e :
    syntax_error rest e -> ran pre rest strict (Raise e).

(** ** Literals *)



(** ** Texts that the lexer takes *)

(** A number as [read_number] converts it: decimal digits, no more of
    them than [int] takes; or decimal digits with one decimal point among
    them, after the first digit. *)
Definition literal (run : string) : Prop :=
  (run <> EmptyString /\ Py.all_decimal run = true /\
   String.length run <= Py.int_max_str_digits)
  \/ (exists ip fp,
        run = (ip ++ String "." fp)%string /\ ip <> EmptyString /\
        Py.all_decimal ip = true /\ Py.all_decimal fp = true).

(** A text of blanks, operator characters and numbers, each number
    ending where the text ends or where a character follows that is no
    digit and no decimal point. *)
Inductive lexable : string -> Prop :=
| lexable_end : lexable EmptyString
| lexable_blank c s :
    Py.isspace c = true -> lexable s -> lexable (String c s)
| lexable_operator c k s :
    Lexer.operator c = Some k -> lexable s -> lexable (String c s)
| lexable_number run s :
    literal run ->
    (forall c, head s = Some c -> Lexer.digit_or_dot c = false) ->
    lexable s -> lexable (run ++ s).

(** [n] times the character [c]. *)
Fixpoint replicate (n : nat) (c : ascii) : string :=
  match n with
  | O => EmptyString
  | S n' => String c (replicate n' c)
  end.

(** ** The call stack *)

(** The interpreter raises [RecursionError] when a call would nest deeper
    than its recursion limit allows.  [call room body] is a call of a
    function of [parser.py] where [room] calls may still nest: it raises
    when there is no room, and runs the body of the function with room for
    one call less otherwise.  The model counts the calls of the functions
    of [parser.py] and nothing else: what the builtins and the library take
    under the frame that calls them ([int], [len], the methods of the
    enumeration when a message is formatted, the constructors of the nodes
    of [calculator]) is not counted, so that the code may raise
    [RecursionError] with a little more room than the model says; see
    [spare_room]. *)
Definition call {A : Type} (room : nat) (body : nat -> result A)
  : result A :=
  match room with
  | O => Raise RecursionError
  | S inside => body inside
  end.

(** [sys.getrecursionlimit()], as the interpreter starts with it: no more
    calls than this ever nest. *)
Definition recursion_limit : nat := 1000.

Arguments recursion_limit : simpl never.

(** The lexer with the room that its calls take.  The functions are those
    of [Lexer], each call of a method or of a constructor of [parser.py]
    being a [call]. *)
Module StackLexer.

(** [Lexer(text)] *)
Definition init (room : nat) (text : string) : result Lexer.t :=
  call room (fun _ => Ok (Lexer.init text)).

(** [self.advance()] *)
Definition advance (room : nat) (l : Lexer.t) : result Lexer.t :=
  call room (fun _ => Ok (Lexer.advance l)).

(** [Token(type_, value, position)] *)
Definition token (room : nat) (type_ : TokenType) (value : pyval)
  (position : nat) : result Token :=
  call room (fun _ => Ok (mkToken type_ value position)).

Fixpoint skip_whitespace_loop (n inside : nat) (l : Lexer.t)
  : result Lexer.t :=
  match n with
  | O => OutOfFuel
  | S n' =>
      match Lexer.current_char l with
      | Some c =>
          if Py.isspace c
          then l' <- advance inside l ;; skip_whitespace_loop n' inside l'
          else Ok l
      | None => Ok l
      end
  end.

Definition skip_whitespace (room : nat) (l : Lexer.t) : result Lexer.t :=
  call room (fun inside => skip_whitespace_loop (Lexer.fuel l) inside l).

Fixpoint read_number_loop (n inside : nat) (num_str : string) (l : Lexer.t)
  : result (string * Lexer.t) :=
  match n with
  | O => OutOfFuel
  | S n' =>
      match Lexer.current_char l with
      | Some c =>
          if Lexer.digit_or_dot c
          then
            l' <- advance inside l ;;
            read_number_loop n' inside (num_str ++ String c EmptyString) l'
          else Ok (num_str, l)
      | None => Ok (num_str, l)
      end
  end.

(** The end of [read_number]: the conversion, then the token. *)
Definition number_token (inside : nat) (num_str : string) (start_pos : nat)
  : result Token :=
  if Py.contains "." num_str then
    match Py.float num_str with
    | Some f => token inside NUMBER (PyFloat f) start_pos
    | None => Raise (ValueError (InvalidFloatLiteral num_str))
    end
  else
    match Py.int num_str with
    | Py.Converted z => token inside NUMBER (PyInt z) start_pos
    | Py.Invalid => Raise (ValueError (InvalidIntLiteral num_str))
    | Py.TooLong digits => Raise (ValueError (ExceedsDigitLimit digits))
    end.

Definition read_number (room : nat) (l : Lexer.t)
  : result (Token * Lexer.t) :=
  call room (fun inside =>
    let start_pos := Lexer.position l in
    '(num_str, l') <- read_number_loop (Lexer.fuel l) inside EmptyString l ;;
    tok <- number_token inside num_str start_pos ;;
    Ok (tok, l')).

Fixpoint get_next_token_loop (n inside : nat) (l : Lexer.t)
  : result (Token * Lexer.t) :=
  match n with
  | O => OutOfFuel
  | S n' =>
      match Lexer.current_char l with
      | None =>
          tok <- token inside EOF PyNone (Lexer.position l) ;; Ok (tok, l)
      | Some c =>
          if Py.isspace c then
            l' <- skip_whitespace inside l ;; get_next_token_loop n' inside l'
          else if Py.isdigit c then read_number inside l
          else
            match Lexer.operator c with
            | Some k =>
                tok <- token inside k (PyStr (String c EmptyString))
                             (Lexer.position l) ;;
                l' <- advance inside l ;;
                Ok (tok, l')
            | None =>
                Raise (ValueError (InvalidCharacter c (Lexer.position l)))
            end
      end
  end.

Definition get_next_token (room : nat) (l : Lexer.t)
  : result (Token * Lexer.t) :=
  call room (fun inside => get_next_token_loop (Lexer.fuel l) inside l).

Fixpoint tokenize_loop (n inside : nat) (tokens : list Token) (l : Lexer.t)
  : result (list Token * Lexer.t) :=
  match n with
  | O => OutOfFuel
  | S n' =>
      '(tok, l') <- get_next_token inside l ;;
      let tokens' := tokens ++ [tok] in
      if TokenType_eqb (type tok) EOF then Ok (tokens', l')
      else tokenize_loop n' inside tokens' l'
  end.

Definition tokenize (room : nat) (l : Lexer.t)
  : result (list Token * Lexer.t) :=
  call room (fun inside => tokenize_loop (Lexer.fuel l) inside [] l).

End StackLexer.

(** The parser with the room that its calls take.  The functions are
    those of [Parser], each call of a method of [parser.py] being a
    [call]; a token that is reported is formatted by [Token.__repr__],
    which is a call as well.  The nodes are built where [advance] has just
    returned in the same frame. *)
Module StackParser.

(** [Parser(tokens)] *)
Definition init (room : nat) (tokens : list Token) : result Parser.t :=
  call room (fun _ => Ok (Parser.init tokens)).

(** [self.advance()] *)
Definition advance (room : nat) (p : Parser.t) : result Parser.t :=
  call room (fun _ => Ok (Parser.advance p)).

(** [raise ValueError(f"Unexpected token: {self.current_token}")] *)
Definition unexpected {A : Type} (room : nat) (token : Token) : result A :=
  call room (fun _ => Raise (ValueError (UnexpectedToken token))).

Definition expect (room : nat) (p : Parser.t) (token_type : TokenType)
  : result (Token * Parser.t) :=
  call room (fun inside =>
    match Parser.current_token p with
    | Some token =>
        if TokenType_eqb (type token) token_type
        then p' <- advance inside p ;; Ok (token, p')
        else Raise (ValueError (ExpectedGot (TokenType_value token_type)
                                            (TokenType_value (type token))))
    | None =>
        Raise (ValueError (ExpectedGot (TokenType_value token_type) "EOF"))
    end).

(** The three productions and their two loops: on the fuel counter of
    [Parser], and with the room left for the calls of each frame. *)
Fixpoint parse_expression (n room : nat) (p : Parser.t)
  : result (Expr * Parser.t) :=
  match n with
  | O => OutOfFuel
  | S n' =>
      call room (fun inside =>
        '(lhs, p1) <- parse_term n' inside p ;;
        parse_expression_loop n' inside lhs p1)
  end

with parse_expression_loop (n inside : nat) (left : Expr) (p : Parser.t)
  : result (Expr * Parser.t) :=
  match n with
  | O => OutOfFuel
  | S n' =>
      match Parser.current_token p with
      | Some op =>
          if Parser.is_additive (type op) then
            p1 <- advance inside p ;;
            '(rhs, p2) <- parse_term n' inside p1 ;;
            parse_expression_loop n' inside
              (Parser.fold_additive op left rhs) p2
          else Ok (left, p)
      | None => Ok (left, p)
      end
  end

with parse_term (n room : nat) (p : Parser.t) : result (Expr * Parser.t) :=
  match n with
  | O => OutOfFuel
  | S n' =>
      call room (fun inside =>
        '(lhs, p1) <- parse_factor n' inside p ;;
        parse_term_loop n' inside lhs p1)
  end

with parse_term_loop (n inside : nat) (left : Expr) (p : Parser.t)
  : result (Expr * Parser.t) :=
  match n with
  | O => OutOfFuel
  | S n' =>
      match Parser.current_token p with
      | Some op =>
          if Parser.is_multiplicative (type op) then
            p1 <- advance inside p ;;
            '(rhs, p2) <- parse_factor n' inside p1 ;;
            parse_term_loop n' inside
              (Parser.fold_multiplicative op left rhs) p2
          else Ok (left, p)
      | None => Ok (left, p)
      end
  end

with parse_factor (n room : nat) (p : Parser.t) : result (Expr * Parser.t) :=
  match n with
  | O => OutOfFuel
  | S n' =>
      call room (fun inside =>
        match Parser.current_token p with
        | None => Raise AttributeError
        | Some token =>
            match type token with
            | NUMBER =>
                p1 <- advance inside p ;; Ok (Num (value token), p1)
            | LPAREN =>
                p1 <- advance inside p ;;
                '(expr, p2) <- parse_expression n' inside p1 ;;
                '(_, p3) <- expect inside p2 RPAREN ;;
                Ok (Par expr, p3)
            | _ => unexpected inside token
            end
        end)
  end.

Definition parse (room : nat) (p : Parser.t) : result (Expr * Parser.t) :=
  call room (fun inside =>
    '(expr, p1) <- parse_expression (Parser.fuel p) inside p ;;
    match Parser.current_token p1 with
    | Some token =>
        if negb (TokenType_eqb (type token) EOF)
        then unexpected inside token
        else Ok (expr, p1)
    | None => Ok (expr, p1)
    end).

End StackParser.

Module Stack.

(** [parse_expression_from_string], called where [room] calls may still
    nest. *)
Definition parse_expression_from_string (room : nat) (expression : string)
  : result Expr :=
  call room (fun inside =>
    lexer <- StackLexer.init inside expression ;;
    '(tokens, _) <- StackLexer.tokenize inside lexer ;;
    parser <- StackParser.init inside tokens ;;
    '(expr, _) <- StackParser.parse inside parser ;;
    Ok expr).

End Stack.

(** The deepest level of open parentheses: the largest excess of [LPAREN]
    over [RPAREN] tokens in a prefix of the list, up to its first [EOF]
    token. *)
Fixpoint nesting (tokens : list Token) : nat :=
  match tokens with
  | [] => 0
  | token :: rest =>
      match type token with
      | LPAREN => S (nesting rest)
      | RPAREN => pred (nesting rest)
      | EOF => 0
      | _ => nesting rest
      end
  end.

(** The same for a text: the largest excess of opening over closing
    parentheses in a prefix of the text. *)
Fixpoint depth (s : string) : nat :=
  match s with
  | EmptyString => 0
  | String c s' =>
      if Ascii.eqb c "(" then S (depth s')
      else if Ascii.eqb c ")" then pred (depth s')
      else depth s'
  end.

(** [b] is what [r] becomes on a stack with a limit: [r] itself, or a
    [RecursionError]. *)
Definition refines {A : Type} (r b : result A) : Prop :=
  b = r \/ b = Raise RecursionError.

(** The state [p'] of the parser after some of the tokens [rest]: what is
    left nests no deeper than [rest]. *)
Definition shrunk (pre rest : list Token) (p' : Parser.t) : Prop :=
  exists used rest',
    rest = used ++ rest' /\ p' = parser_state (pre ++ used) rest' /\
    nesting rest' <= nesting rest.

(** The deepest level of parentheses of a tree. *)
Fixpoint paren_depth (e : Expr) : nat :=
  match e with
  | Num _ => 0
  | Par e' => S (paren_depth e')
  | Add l r | Minus l r | Multi l r | Div l r =>
      Nat.max (paren_depth l) (paren_depth r)
  end.

(** Room kept for what the code calls outside [parser.py] under one of
    its frames: the builtins, the methods of the enumeration when a
    message is formatted, the constructors of [calculator], none of which
    nests this deep.  The model does not descend into them; where a
    theorem promises an outcome other than [RecursionError], it asks for
    this room on top of what the calls of [parser.py] take. *)
Definition spare_room : nat := 16.

Arguments spare_room : simpl never.

(** * Properties *)

(** ** The expressions that [parser.py] tries on itself, and a few numbers *)

Example parse_main_1 :
  parse_expression_from_string "3 * 4 + 10 / 2" =
  Ok (Add (Multi (Num (PyInt 3)) (Num (PyInt 4)))
          (Div (Num (PyInt 10)) (Num (PyInt 2)))).
Proof. vm_compute. reflexivity. Qed.

Example parse_main_2 :
  parse_expression_from_string "(12 + 217) * 3 - 621" =
  Ok (Minus (Multi (Par (Add (Num (PyInt 12)) (Num (PyInt 217))))
                   (Num (PyInt 3)))
            (Num (PyInt 621))).
Proof. vm_compute. reflexivity. Qed.

Example parse_main_4 :
  parse_expression_from_string "(1 + 2) * (3 + 4)" =
  Ok (Multi (Par (Add (Num (PyInt 1)) (Num (PyInt 2))))
            (Par (Add (Num (PyInt 3)) (Num (PyInt 4))))).
Proof. vm_compute. reflexivity. Qed.

Example tokenize_numbers :
  Lexer.tokenize (Lexer.init "12 + 3.5") =
  Ok ([mkToken NUMBER (PyInt 12) 0; mkToken PLUS (PyStr "+") 3;
       mkToken NUMBER (PyFloat 3.5) 5; mkToken EOF PyNone 8],
      Lexer.mk "12 + 3.5" 8 None).
Proof. vm_compute. reflexivity. Qed.

Example float_tenth : Py.float "0.1" = Some 0x1.999999999999ap-4%float.
Proof. vm_compute. reflexivity. Qed.

Example float_halfway_to_even :
  Py.float "9007199254740993." = Some 0x1p+53%float.
Proof. vm_compute. reflexivity. Qed.

Example float_trailing_point : Py.float "7." = Some 7%float.
Proof. vm_compute. reflexivity. Qed.

Example float_superscript :
  Py.isdigit (ascii_of_nat 178) = true
  /\ Py.int (String (ascii_of_nat 178) "") = Py.Invalid.
Proof. split; vm_compute; reflexivity. Qed.

(** ** Strings *)

Lemma append_assoc (a b c : string) : ((a ++ b) ++ c = a ++ (b ++ c))%string.
Proof. induction a as [|x a IH]; simpl; [reflexivity | now rewrite IH]. Qed.

Lemma append_nil_r (a : string) : (a ++ "" = a)%string.
Proof. induction a as [|x a IH]; simpl; [reflexivity | now rewrite IH]. Qed.

Lemma length_append (a b : string) :
  String.length (a ++ b) = String.length a + String.length b.
Proof. induction a as [|x a IH]; simpl; [reflexivity | now rewrite IH]. Qed.

Lemma append_snoc (a : string) (c : ascii) (b : string) :
  ((a ++ String c "") ++ b = a ++ String c b)%string.
Proof. now rewrite append_assoc. Qed.

Lemma get_append_length (a b : string) :
  String.get (String.length a) (a ++ b) = head b.
Proof.
  induction a as [|x a IH]; simpl.
  - destruct b; reflexivity.
  - exact IH.
Qed.

Lemma take_drop_while (f : ascii -> bool) (s : string) :
  (take_while f s ++ drop_while f s)%string = s.
Proof.
  induction s as [|c s IH]; simpl; [reflexivity|].
  destruct (f c); simpl; [now rewrite IH | reflexivity].
Qed.

Lemma head_drop_while (f : ascii -> bool) (s : string) (c : ascii) :
  head (drop_while f s) = Some c -> f c = false.
Proof.
  induction s as [|d s IH]; simpl; [discriminate|].
  destruct (f d) eqn:E; [exact IH|].
  simpl. intros [= <-]. exact E.
Qed.

Lemma length_drop_while (f : ascii -> bool) (s : string) :
  String.length (drop_while f s) <= String.length s.
Proof.
  induction s as [|d s IH]; simpl; [lia|].
  destruct (f d); simpl; lia.
Qed.

Lemma all_chars_take_while (f : ascii -> bool) (s : string) :
  all_chars f (take_while f s) = true.
Proof.
  induction s as [|d s IH]; simpl; [reflexivity|].
  destruct (f d) eqn:E; simpl; [now rewrite E | reflexivity].
Qed.

Lemma all_chars_drop_while (f g : ascii -> bool) (s : string) :
  all_chars g s = true -> all_chars g (drop_while f s) = true.
Proof.
  induction s as [|d s IH]; simpl; [reflexivity|].
  intros H. apply andb_prop in H as [Hd Hs].
  destruct (f d); [auto | simpl; now rewrite Hd, Hs].
Qed.

Lemma all_chars_take_while_other (f g : ascii -> bool) (s : string) :
  all_chars g s = true -> all_chars g (take_while f s) = true.
Proof.
  induction s as [|d s IH]; simpl; [reflexivity|].
  intros H. apply andb_prop in H as [Hd Hs].
  destruct (f d); [simpl; now rewrite Hd, IH | reflexivity].
Qed.

Lemma all_chars_append (f : ascii -> bool) (a b : string) :
  all_chars f (a ++ b) = all_chars f a && all_chars f b.
Proof.
  induction a as [|x a IH]; simpl; [reflexivity|].
  now rewrite IH, andb_assoc.
Qed.

Lemma take_while_all (f : ascii -> bool) (s : string) :
  all_chars f s = true -> take_while f s = s /\ drop_while f s = EmptyString.
Proof.
  induction s as [|d s IH]; simpl; [auto|].
  intros H. apply andb_prop in H as [Hd Hs].
  rewrite Hd. destruct (IH Hs) as [-> ->]. auto.
Qed.

(** A maximal run: [run] satisfies [f] and what follows does not go on. *)
Lemma take_while_run (f : ascii -> bool) (run post : string) :
  all_chars f run = true ->
  (forall c, head post = Some c -> f c = false) ->
  take_while f (run ++ post) = run /\ drop_while f (run ++ post) = post.
Proof.
  intros Hrun Hpost. induction run as [|d s IH]; simpl in *.
  - destruct post as [|c post]; simpl; [auto|].
    rewrite (Hpost c eq_refl). auto.
  - apply andb_prop in Hrun as [Hd Hs]. rewrite Hd.
    destruct (IH Hs) as [-> ->]. auto.
Qed.

(** ** The lexer, on the text read and the text to come *)

Module LexerFacts.
Import Lexer.

Lemma init_state (s : string) : init s = state "" s.
Proof. unfold init, state, char_at. destruct s; reflexivity. Qed.

Lemma advance_state (pre : string) (c : ascii) (s : string) :
  advance (state pre (String c s)) = state (pre ++ String c "") s.
Proof.
  unfold advance, state; simpl.
  rewrite append_snoc. f_equal.
  - rewrite length_append. reflexivity.
  - rewrite length_append; simpl.
    destruct s as [|d s]; simpl.
    + replace (String.length pre + 1 <=? String.length pre + 1) with true
        by (symmetry; apply Nat.leb_le; lia).
      reflexivity.
    + replace (String.length pre + S (S (String.length s)) <=?
               String.length pre + 1) with false
        by (symmetry; apply Nat.leb_gt; lia).
      rewrite <- (append_snoc pre c (String d s)).
      replace (String.length pre + 1)
        with (String.length (pre ++ String c ""))
        by (rewrite length_append; reflexivity).
      apply get_append_length.
Qed.

Lemma fuel_state (pre s : string) :
  fuel (state pre s) = String.length s + 2.
Proof. unfold fuel, state; simpl. rewrite length_append. lia. Qed.

Lemma skip_whitespace_loop_state (s : string) :
  forall n pre, String.length s < n ->
  skip_whitespace_loop n (state pre s) =
  Ok (state (pre ++ take_while Py.isspace s) (drop_while Py.isspace s)).
Proof.
  induction s as [|c s IH]; intros n pre Hn;
    (destruct n as [|n]; [lia|]); simpl.
  - now rewrite append_nil_r.
  - destruct (Py.isspace c) eqn:E.
    + rewrite advance_state, IH by (simpl in Hn; lia).
      now rewrite append_snoc.
    + now rewrite append_nil_r.
Qed.

Lemma skip_whitespace_state (pre s : string) :
  skip_whitespace (state pre s) =
  Ok (state (pre ++ take_while Py.isspace s) (drop_while Py.isspace s)).
Proof.
  unfold skip_whitespace. apply skip_whitespace_loop_state.
  rewrite fuel_state. lia.
Qed.

Lemma read_number_loop_state (s : string) :
  forall n acc pre, String.length s < n ->
  read_number_loop n acc (state pre s) =
  Ok ((acc ++ take_while digit_or_dot s)%string,
      state (pre ++ take_while digit_or_dot s) (drop_while digit_or_dot s)).
Proof.
  induction s as [|c s IH]; intros n acc pre Hn;
    (destruct n as [|n]; [lia|]); simpl.
  - now rewrite !append_nil_r.
  - destruct (digit_or_dot c) eqn:E.
    + rewrite advance_state, IH by (simpl in Hn; lia).
      now rewrite !append_snoc.
    + now rewrite !append_nil_r.
Qed.

Lemma read_number_state (pre s : string) :
  read_number (state pre s) =
  (token <- number_token (take_while digit_or_dot s) (String.length pre) ;;
   Ok (token, state (pre ++ take_while digit_or_dot s)
                    (drop_while digit_or_dot s))).
Proof.
  unfold read_number.
  rewrite read_number_loop_state by (rewrite fuel_state; lia).
  reflexivity.
Qed.

(** One iteration of the loop of [get_next_token] when the current
    character is not a blank. *)
Lemma get_next_token_loop_dispatch (n : nat) (pre s : string) :
  (forall c, head s = Some c -> Py.isspace c = false) ->
  drop_while Py.isspace s = s ->
  get_next_token_loop (S n) (state pre s) = next pre s.
Proof.
  intros Hhead Hdrop. unfold next. rewrite Hdrop.
  assert (Htake : take_while Py.isspace s = EmptyString).
  { destruct s as [|c s]; [reflexivity|]. simpl.
    now rewrite (Hhead c eq_refl). }
  rewrite Htake, append_nil_r.
  destruct s as [|c s]; simpl; [reflexivity|].
  rewrite (Hhead c eq_refl).
  destruct (Py.isdigit c) eqn:Ed.
  - rewrite read_number_state. reflexivity.
  - destruct (operator c); [|reflexivity].
    now rewrite advance_state.
Qed.

Lemma drop_while_idem (f : ascii -> bool) (s : string) :
  drop_while f (drop_while f s) = drop_while f s.
Proof.
  induction s as [|c s IH]; simpl; [reflexivity|].
  destruct (f c) eqn:E; [exact IH | simpl; now rewrite E].
Qed.

Lemma next_drop_while (pre s : string) :
  next (pre ++ take_while Py.isspace s) (drop_while Py.isspace s) =
  next pre s.
Proof.
  unfold next. rewrite drop_while_idem.
  assert (H : take_while Py.isspace (drop_while Py.isspace s) = EmptyString).
  { destruct (drop_while Py.isspace s) as [|c r] eqn:E; [reflexivity|].
    simpl. now rewrite (head_drop_while Py.isspace s (c := c))
      by (rewrite E; reflexivity). }
  rewrite H, append_nil_r. reflexivity.
Qed.

Lemma get_next_token_loop_S (n : nat) (l : t) :
  get_next_token_loop (S n) l =
  match current_char l with
  | None => Ok (mkToken EOF PyNone (position l), l)
  | Some c =>
      if Py.isspace c then
        l' <- skip_whitespace l ;; get_next_token_loop n l'
      else if Py.isdigit c then read_number l
      else
        match operator c with
        | Some k =>
            Ok (mkToken k (PyStr (String c EmptyString)) (position l),
                advance l)
        | None => Raise (ValueError (InvalidCharacter c (position l)))
        end
  end.
Proof. reflexivity. Qed.

(** [get_next_token], told on the text read and the text to come. *)
Theorem get_next_token_state (pre s : string) :
  get_next_token (state pre s) = next pre s.
Proof.
  unfold get_next_token. rewrite fuel_state.
  replace (String.length s + 2) with (S (S (String.length s))) by lia.
  destruct s as [|c s].
  - apply get_next_token_loop_dispatch; [discriminate | reflexivity].
  - destruct (Py.isspace c) eqn:E.
    + rewrite get_next_token_loop_S. cbn [current_char state head].
      rewrite E, skip_whitespace_state. cbn [bind].
      rewrite get_next_token_loop_dispatch.
      * apply next_drop_while.
      * intros d. apply head_drop_while.
      * apply drop_while_idem.
    + apply get_next_token_loop_dispatch.
      * simpl. intros d [= <-]. exact E.
      * simpl. now rewrite E.
Qed.

End LexerFacts.

(** ** Characters *)

Ltac each_char c :=
  destruct c as [[] [] [] [] [] [] [] []]; vm_compute; try reflexivity;
  try discriminate; auto.

Lemma recognized_digit_or_dot (c : ascii) :
  Lexer.recognized c = true -> Lexer.digit_or_dot c = true ->
  Py.is_decimal c = true.
Proof. each_char c. Qed.

Lemma isdigit_digit_or_dot (c : ascii) :
  Py.isdigit c = true -> Lexer.digit_or_dot c = true.
Proof. unfold Lexer.digit_or_dot. now intros ->. Qed.

Lemma recognized_operator (c : ascii) :
  Lexer.recognized c = true -> Py.isspace c = false ->
  Py.isdigit c = false -> Lexer.operator c <> None.
Proof. each_char c. Qed.

Lemma operator_not_EOF (c : ascii) (k : TokenType) :
  Lexer.operator c = Some k -> TokenType_eqb k EOF = false.
Proof.
  unfold Lexer.operator.
  repeat match goal with
         | |- context [Ascii.eqb c ?x] => destruct (Ascii.eqb c x)
         end; intros [= <-]; reflexivity.
Qed.

Lemma is_decimal_not_dot (c : ascii) :
  Py.is_decimal c = true -> Ascii.eqb c "." = false.
Proof. each_char c. Qed.

Lemma all_chars_imp2 (f g h : ascii -> bool) (s : string) :
  (forall c, f c = true -> g c = true -> h c = true) ->
  all_chars f s = true -> all_chars g s = true -> all_chars h s = true.
Proof.
  intros Himp. induction s as [|c s IH]; simpl; [reflexivity|].
  intros Hf Hg. apply andb_prop in Hf as [Hf1 Hf2].
  apply andb_prop in Hg as [Hg1 Hg2].
  now rewrite (Himp c Hf1 Hg1), IH.
Qed.

Lemma contains_dot_decimal (s : string) :
  Py.all_decimal s = true -> Py.contains "." s = false.
Proof.
  unfold Py.all_decimal. induction s as [|c s IH]; simpl; [reflexivity|].
  intros H. apply andb_prop in H as [Hc Hs].
  now rewrite (is_decimal_not_dot c Hc), IH.
Qed.

(** ** Numbers *)

(** The decimal digits that [int] counts. *)
Lemma int_digits_decimal (s : string) :
  Py.all_decimal s = true -> take_while Py.is_decimal s = s.
Proof. intros Hall. now apply take_while_all. Qed.

Lemma int_decimal (s : string) :
  s <> EmptyString -> Py.all_decimal s = true ->
  String.length s <= Py.int_max_str_digits ->
  Py.int s = Py.Converted (Py.decimal_value 0 s).
Proof.
  intros Hne Hall Hlen. unfold Py.int.
  rewrite (int_digits_decimal s Hall).
  apply Nat.ltb_ge in Hlen. rewrite Hlen.
  destruct s as [|c s]; [congruence|]. now rewrite Hall.
Qed.

(** More decimal digits than [int] converts. *)
Lemma int_too_long (s : string) :
  Py.all_decimal s = true -> Py.int_max_str_digits < String.length s ->
  Py.int s = Py.TooLong (String.length s).
Proof.
  intros Hall Hlen. unfold Py.int.
  rewrite (int_digits_decimal s Hall).
  apply Nat.ltb_lt in Hlen. now rewrite Hlen.
Qed.

(** What [int] converts: decimal digits, no more than it takes. *)
Lemma int_converted_inv (s : string) (z : Z) :
  Py.int s = Py.Converted z ->
  s <> EmptyString /\ Py.all_decimal s = true /\
  String.length s <= Py.int_max_str_digits /\ z = Py.decimal_value 0 s.
Proof.
  unfold Py.int.
  destruct (Py.int_max_str_digits <? String.length (take_while Py.is_decimal s))
    eqn:E; [discriminate|].
  destruct s as [|c s]; [discriminate|].
  destruct (Py.all_decimal (String c s)) eqn:Hall; [|discriminate].
  intros [= <-]. rewrite (int_digits_decimal _ Hall) in E.
  apply Nat.ltb_ge in E. repeat split; auto. discriminate.
Qed.

Lemma int_too_long_inv (s : string) (digits : nat) :
  Py.int s = Py.TooLong digits -> Py.int_max_str_digits < digits.
Proof.
  unfold Py.int.
  destruct (Py.int_max_str_digits <? String.length (take_while Py.is_decimal s))
    eqn:E.
  - intros [= <-]. now apply Nat.ltb_lt.
  - destruct s; [discriminate|]. destruct (Py.all_decimal _); discriminate.
Qed.

Lemma number_token_decimal (s : string) (start_pos : nat) :
  s <> EmptyString -> Py.all_decimal s = true ->
  String.length s <= Py.int_max_str_digits ->
  Lexer.number_token s start_pos =
  Ok (mkToken NUMBER (PyInt (Py.decimal_value 0 s)) start_pos).
Proof.
  intros Hne Hall Hlen. unfold Lexer.number_token.
  now rewrite (contains_dot_decimal s Hall), (int_decimal Hne Hall Hlen).
Qed.

Lemma number_token_too_long (s : string) (start_pos : nat) :
  Py.all_decimal s = true -> Py.int_max_str_digits < String.length s ->
  Lexer.number_token s start_pos =
  Raise (ValueError (ExceedsDigitLimit (String.length s))).
Proof.
  intros Hall Hlen. unfold Lexer.number_token.
  now rewrite (contains_dot_decimal s Hall), (int_too_long s Hall Hlen).
Qed.

(** The conversion gives a [NUMBER] token or raises a [ValueError]. *)
Lemma number_token_cases (s : string) (start_pos : nat) :
  (exists v, Lexer.number_token s start_pos = Ok (mkToken NUMBER v start_pos))
  \/ (exists m, Lexer.number_token s start_pos = Raise (ValueError m)).
Proof.
  unfold Lexer.number_token.
  destruct (Py.contains "." s).
  - destruct (Py.float s); [left | right]; eauto.
  - destruct (Py.int s); [left | right | right]; eauto.
Qed.

(** ** One token *)

Module TokenFacts.
Import Lexer LexerFacts.

Lemma next_cases (pre s : string) : next_spec pre s (next pre s).
Proof.
  unfold next.
  pose proof (take_drop_while Py.isspace s) as Hs.
  pose proof (all_chars_take_while Py.isspace s) as Hws.
  set (ws := take_while Py.isspace s) in *.
  destruct (drop_while Py.isspace s) as [|c s2] eqn:E.
  - apply next_eof; auto.
  - destruct (Py.isdigit c) eqn:Ed.
    + pose proof (take_drop_while digit_or_dot (String c s2)) as Hn.
      set (num := take_while digit_or_dot (String c s2)) in *.
      assert (Hne : num <> EmptyString).
      { subst num. simpl. now rewrite (isdigit_digit_or_dot c Ed). }
      destruct (number_token_cases num (String.length (pre ++ ws)))
        as [[v ->] | [m ->]]; cbn [bind]; [|constructor].
      rewrite append_assoc.
      apply next_token; [reflexivity | | ].
      * rewrite append_assoc, Hn. now symmetry.
      * destruct ws; [exact Hne | discriminate].
    + destruct (operator c) as [k|] eqn:Eo; [|constructor].
      rewrite append_assoc.
      apply next_token; simpl.
      * exact (operator_not_EOF c Eo).
      * rewrite append_snoc. now symmetry.
      * destruct ws; discriminate.
Qed.

End TokenFacts.

(** ** The token list *)

Lemma TokenType_eqb_eq (a b : TokenType) : TokenType_eqb a b = true <-> a = b.
Proof. destruct a, b; simpl; split; intros H; congruence. Qed.

Lemma TokenType_eqb_refl (a : TokenType) : TokenType_eqb a a = true.
Proof. now apply TokenType_eqb_eq. Qed.

Lemma TokenType_eqb_neq (a b : TokenType) :
  TokenType_eqb a b = false <-> a <> b.
Proof.
  split.
  - intros H E. apply TokenType_eqb_eq in E. congruence.
  - intros H. destruct (TokenType_eqb a b) eqn:E; [|reflexivity].
    apply TokenType_eqb_eq in E. contradiction.
Qed.

Module TokenizeFacts.
Import Lexer LexerFacts TokenFacts.

(** Whatever the state, a list that [tokenize] returns is what it was
    given, then tokens that are not [EOF], then one [EOF] token. *)
Lemma tokenize_loop_shape (n : nat) :
  forall acc l tokens l',
  tokenize_loop n acc l = Ok (tokens, l') ->
  exists body eof,
    tokens = acc ++ body ++ [eof] /\ type eof = EOF /\
    forallb (fun token => negb (is_eof token)) body = true.
Proof.
  induction n as [|n IH]; intros acc l tokens l' H; simpl in H; [discriminate|].
  destruct (get_next_token l) as [[token l1]| |]; simpl in H; try discriminate.
  destruct (TokenType_eqb (type token) EOF) eqn:E.
  - injection H as <- <-. exists [], token. simpl.
    apply TokenType_eqb_eq in E. auto.
  - apply IH in H as (body & eof & -> & Heof & Hbody).
    exists (token :: body), eof. rewrite <- app_assoc. simpl.
    unfold is_eof at 1. rewrite E. simpl. auto.
Qed.

(** With more fuel than characters to come the loop does not run out of
    fuel, and the only exceptions it raises are [ValueError]s. *)
Lemma tokenize_loop_total (n : nat) :
  forall s acc pre, String.length s < n ->
  (exists tokens pre', tokenize_loop n acc (state pre s) =
                       Ok (tokens, state pre' ""))
  \/ (exists m, tokenize_loop n acc (state pre s) = Raise (ValueError m)).
Proof.
  induction n as [|n IH]; intros s acc pre Hn; [lia|].
  simpl. rewrite get_next_token_state.
  destruct (next_cases pre s) as [tok used Hk Hs _ _|tok used s' Hk Hs Hne|m];
    simpl.
  - apply TokenType_eqb_eq in Hk. rewrite Hk. left; eauto.
  - rewrite Hk. apply IH. subst s. rewrite length_append in Hn.
    destruct used; [congruence | simpl in Hn; lia].
  - right; eauto.
Qed.

Lemma tokenize_init_fuel (s : string) :
  tokenize (init s) = tokenize_loop (String.length s + 2) [] (state "" s).
Proof. unfold tokenize. now rewrite init_state, fuel_state. Qed.

Lemma tokenize_eof_terminated (l : t) (tokens : list Token) (l' : t) :
  tokenize l = Ok (tokens, l') -> eof_terminated tokens.
Proof.
  intros H. apply tokenize_loop_shape in H as (body & eof & -> & H1 & H2).
  now exists body, eof.
Qed.

(** The text is blank: [tokenize] returns the [EOF] token alone, placed at
    the end of the text. *)
Lemma tokenize_blank (s : string) :
  all_chars Py.isspace s = true ->
  tokenize (init s) =
  Ok ([mkToken EOF PyNone (String.length s)], state s "").
Proof.
  intros Hs. rewrite tokenize_init_fuel.
  replace (String.length s + 2) with (S (String.length s + 1)) by lia.
  simpl. rewrite get_next_token_state. unfold next.
  destruct (take_while_all Py.isspace s Hs) as [-> ->]. reflexivity.
Qed.

End TokenizeFacts.

(** ** The parser, on the tokens consumed and the tokens to come *)

Module ParserFacts.
Import Parser.

Lemma tokens_init_state (tokens : list Token) : init tokens = parser_state [] tokens.
Proof. unfold init, parser_state. destruct tokens; reflexivity. Qed.

Lemma tokens_advance_state (pre : list Token) (token : Token) (rest : list Token) :
  advance (parser_state pre (token :: rest)) = parser_state (pre ++ [token]) rest.
Proof.
  unfold advance, parser_state; simpl.
  rewrite <- app_assoc; simpl. f_equal.
  - rewrite length_app. reflexivity.
  - rewrite length_app; simpl.
    destruct rest as [|token' rest]; simpl.
    + replace (List.length pre + 1 <? List.length pre + 1) with false
        by (symmetry; apply Nat.ltb_ge; lia).
      reflexivity.
    + replace (List.length pre + 1 <? List.length pre + S (S (List.length rest)))
        with true by (symmetry; apply Nat.ltb_lt; lia).
      replace (pre ++ token :: token' :: rest)
        with ((pre ++ [token]) ++ token' :: rest)
        by (rewrite <- app_assoc; reflexivity).
      rewrite nth_error_app2 by (rewrite length_app; simpl; lia).
      rewrite length_app; simpl.
      now rewrite Nat.sub_diag.
Qed.

Lemma has_eof_app (used rest : list Token) :
  no_eof used = true -> has_eof (used ++ rest) = has_eof rest.
Proof.
  unfold no_eof, has_eof. induction used as [|token used IH]; simpl; [easy|].
  intros H. apply andb_prop in H as [H1 H2].
  apply negb_true_iff in H1. now rewrite H1, IH.
Qed.

Lemma no_eof_app (a b : list Token) :
  no_eof (a ++ b) = no_eof a && no_eof b.
Proof. apply forallb_app. Qed.

Lemma no_eof_one (token : Token) :
  type token <> EOF -> no_eof [token] = true.
Proof.
  intros H. unfold no_eof, is_eof; simpl.
  apply TokenType_eqb_neq in H. now rewrite H.
Qed.

Lemma has_eof_cons (rest : list Token) :
  has_eof rest = true -> exists token rest', rest = token :: rest'.
Proof. destruct rest as [|token rest']; [discriminate | eauto]. Qed.

(** Two steps in a row. *)
Lemma parsed_step (pre rest : list Token) (b1 b2 : bool)
  (used rest' : list Token) (r : result (Expr * t)) :
  rest = used ++ rest' -> no_eof used = true -> (b2 = true -> b1 = false -> used <> []) ->
  parsed (pre ++ used) rest' b1 r -> parsed pre rest b2 r.
Proof.
  intros Hrest Hused Hne H.
  destruct H as [e used' rest'' Hr Hu Hs | m]; [|constructor].
  rewrite <- app_assoc. constructor.
  - subst. now rewrite app_assoc.
  - rewrite no_eof_app. now rewrite Hused, Hu.
  - intros Hb E. apply app_eq_nil in E as [E1 E2].
    destruct b1; [now apply Hs | now apply Hne].
Qed.

(** A step, then what follows it. *)
Lemma parsed_bind (pre rest : list Token) (b1 b2 b3 : bool)
  (r : result (Expr * t)) (k : Expr * t -> result (Expr * t)) :
  parsed pre rest b1 r ->
  (forall e used rest',
     rest = used ++ rest' -> no_eof used = true ->
     (b1 = true -> used <> []) ->
     parsed (pre ++ used) rest' b2 (k (e, parser_state (pre ++ used) rest'))) ->
  (b3 = true -> b1 = true \/ b2 = true) ->
  parsed pre rest b3 (bind r k).
Proof.
  intros Hr Hk Hb.
  destruct Hr as [e used rest' Hrest Hused Hne | m]; simpl; [|constructor].
  apply parsed_step with (b1 := b2) (used := used) (rest' := rest'); auto.
  intros H3 H2. destruct (Hb H3) as [H1 | H1]; [auto | congruence].
Qed.

Lemma parsed_here (pre rest : list Token) (e : Expr) :
  parsed pre rest false (Ok (e, parser_state pre rest)).
Proof.
  rewrite <- (app_nil_r pre) at 2.
  apply parsed_ok; [reflexivity | reflexivity | discriminate].
Qed.

Lemma parsed_one (pre : list Token) (token : Token) (rest : list Token)
  (b : bool) (e : Expr) :
  type token <> EOF ->
  parsed pre (token :: rest) b (Ok (e, parser_state (pre ++ [token]) rest)).
Proof.
  intros H. apply parsed_ok; [reflexivity | now apply no_eof_one | discriminate].
Qed.

Lemma has_eof_tail (token : Token) (rest : list Token) :
  type token <> EOF -> has_eof (token :: rest) = true -> has_eof rest = true.
Proof.
  intros H. unfold has_eof; simpl. unfold is_eof at 1.
  apply TokenType_eqb_neq in H. now rewrite H.
Qed.

Lemma expect_parsed (pre rest : list Token) (k : TokenType) (e : Expr) :
  has_eof rest = true -> k <> EOF ->
  parsed pre rest true
    (bind (expect (parser_state pre rest) k) (fun '(_, p3) => Ok (e, p3))).
Proof.
  intros Heof Hk.
  destruct (has_eof_cons rest Heof) as (token & rest' & ->).
  unfold expect; simpl.
  destruct (TokenType_eqb (type token) k) eqn:E; simpl; [|constructor].
  rewrite tokens_advance_state. apply parsed_one.
  apply TokenType_eqb_eq in E. congruence.
Qed.

(** On a token list that holds an [EOF] token, with fuel enough for the
    tokens to come, the productions and the loops return a tree without
    having consumed [EOF], or raise a [ValueError]. *)
Lemma parse_total (n : nat) :
  forall pre rest, has_eof rest = true ->
  (4 * List.length rest + 1 <= n ->
   parsed pre rest true (parse_factor n (parser_state pre rest))) /\
  (4 * List.length rest + 2 <= n ->
   parsed pre rest true (parse_term n (parser_state pre rest))) /\
  (forall left, 4 * List.length rest + 2 <= n ->
   parsed pre rest false (parse_term_loop n left (parser_state pre rest))) /\
  (4 * List.length rest + 3 <= n ->
   parsed pre rest true (parse_expression n (parser_state pre rest))) /\
  (forall left, 4 * List.length rest + 3 <= n ->
   parsed pre rest false (parse_expression_loop n left (parser_state pre rest))).
Proof.
  induction n as [|n IH]; intros pre rest Heof.
  { repeat split; intros; lia. }
  destruct (has_eof_cons rest Heof) as (token & rest0 & ->).
  assert (Hlen : forall used rest' : list Token,
             token :: rest0 = used ++ rest' -> used <> [] ->
             List.length rest' <= List.length rest0).
  { intros used rest' E Hne. apply (f_equal (@List.length Token)) in E.
    rewrite length_app in E. simpl in E.
    destruct used; [congruence | simpl in E; lia]. }
  assert (Hlen0 : forall used rest' : list Token,
             rest0 = used ++ rest' -> List.length rest' <= List.length rest0).
  { intros used rest' E. apply (f_equal (@List.length Token)) in E.
    rewrite length_app in E. lia. }
  repeat split.
  - (* parse_factor *)
    intros Hn. simpl.
    destruct (type token) eqn:Ek; try constructor.
    + rewrite tokens_advance_state. apply parsed_one. congruence.
    + rewrite tokens_advance_state.
      assert (Heof0 : has_eof rest0 = true)
        by (apply (has_eof_tail token); [congruence | exact Heof]).
      apply parsed_step with (b1 := true) (used := [token]) (rest' := rest0);
        [reflexivity | apply no_eof_one; congruence | discriminate |].
      apply parsed_bind with (b1 := true) (b2 := true); [| |auto].
      * apply (IH (pre ++ [token]) rest0 Heof0). simpl in Hn. lia.
      * intros e used rest' Hrest Hused _.
        apply expect_parsed; [|discriminate].
        subst rest0. now rewrite has_eof_app in Heof0.
  - (* parse_term *)
    intros Hn. simpl.
    apply parsed_bind with (b1 := true) (b2 := false); [| |auto].
    + apply (IH pre (token :: rest0) Heof). lia.
    + intros e used rest' Hrest Hused Hne.
      apply IH.
      * rewrite Hrest in Heof. now rewrite has_eof_app in Heof.
      * specialize (Hlen used rest' Hrest (Hne eq_refl)). simpl in Hn. lia.
  - (* parse_term_loop *)
    intros left Hn. simpl.
    destruct (is_multiplicative (type token)) eqn:Ek; [|apply parsed_here].
    rewrite tokens_advance_state.
    assert (Hk : type token <> EOF) by (intros E; rewrite E in Ek; discriminate).
    assert (Heof0 : has_eof rest0 = true) by (apply (has_eof_tail token); auto).
    apply parsed_step with (b1 := true) (used := [token]) (rest' := rest0);
      [reflexivity | now apply no_eof_one | discriminate |].
    apply parsed_bind with (b1 := true) (b2 := false); [| |auto].
    + apply (IH (pre ++ [token]) rest0 Heof0). simpl in Hn. lia.
    + intros e used rest' Hrest Hused _.
      apply IH.
      * subst rest0. now rewrite has_eof_app in Heof0.
      * specialize (Hlen0 used rest' Hrest). simpl in Hn. lia.
  - (* parse_expression *)
    intros Hn. simpl.
    apply parsed_bind with (b1 := true) (b2 := false); [| |auto].
    + apply (IH pre (token :: rest0) Heof). lia.
    + intros e used rest' Hrest Hused Hne.
      apply IH.
      * rewrite Hrest in Heof. now rewrite has_eof_app in Heof.
      * specialize (Hlen used rest' Hrest (Hne eq_refl)). simpl in Hn. lia.
  - (* parse_expression_loop *)
    intros left Hn. simpl.
    destruct (is_additive (type token)) eqn:Ek; [|apply parsed_here].
    rewrite tokens_advance_state.
    assert (Hk : type token <> EOF) by (intros E; rewrite E in Ek; discriminate).
    assert (Heof0 : has_eof rest0 = true) by (apply (has_eof_tail token); auto).
    apply parsed_step with (b1 := true) (used := [token]) (rest' := rest0);
      [reflexivity | now apply no_eof_one | discriminate |].
    apply parsed_bind with (b1 := true) (b2 := false); [| |auto].
    + apply (IH (pre ++ [token]) rest0 Heof0). simpl in Hn. lia.
    + intros e used rest' Hrest Hused _.
      apply IH.
      * subst rest0. now rewrite has_eof_app in Heof0.
      * specialize (Hlen0 used rest' Hrest). simpl in Hn. lia.
Qed.

(** The outcome of [parse] on a token list that holds an [EOF] token. *)
Lemma parse_has_eof (tokens : list Token) :
  has_eof tokens = true ->
  (exists e p' eof, parse (init tokens) = Ok (e, p') /\
                    current_token p' = Some eof /\ type eof = EOF)
  \/ (exists m, parse (init tokens) = Raise (ValueError m)).
Proof.
  intros Heof. unfold parse. rewrite tokens_init_state.
  destruct (parse_total (fuel (parser_state [] tokens)) [] tokens Heof)
    as (_ & _ & _ & H & _).
  specialize (H ltac:(unfold fuel; simpl; lia)).
  destruct H as [e used rest' Hrest Hused _ | m]; simpl; [|right; eauto].
  assert (Heof' : has_eof rest' = true)
    by (rewrite Hrest in Heof; now rewrite has_eof_app in Heof).
  destruct (has_eof_cons rest' Heof') as (token & rest'' & ->). simpl.
  destruct (TokenType_eqb (type token) EOF) eqn:E; simpl.
  - left. exists e, (parser_state used (token :: rest'')), token.
    apply TokenType_eqb_eq in E. auto.
  - right; eauto.
Qed.

(** *** One step of each production *)

Lemma parse_expression_S (n : nat) (p : t) :
  parse_expression (S n) p =
  ('(lhs, p1) <- parse_term n p ;; parse_expression_loop n lhs p1).
Proof. reflexivity. Qed.

Lemma parse_expression_loop_S (n : nat) (left : Expr) (p : t) :
  parse_expression_loop (S n) left p =
  match current_token p with
  | Some op =>
      if is_additive (type op) then
        '(rhs, p2) <- parse_term n (advance p) ;;
        parse_expression_loop n (fold_additive op left rhs) p2
      else Ok (left, p)
  | None => Ok (left, p)
  end.
Proof. reflexivity. Qed.

Lemma parse_term_S (n : nat) (p : t) :
  parse_term (S n) p =
  ('(lhs, p1) <- parse_factor n p ;; parse_term_loop n lhs p1).
Proof. reflexivity. Qed.

Lemma parse_term_loop_S (n : nat) (left : Expr) (p : t) :
  parse_term_loop (S n) left p =
  match current_token p with
  | Some op =>
      if is_multiplicative (type op) then
        '(rhs, p2) <- parse_factor n (advance p) ;;
        parse_term_loop n (fold_multiplicative op left rhs) p2
      else Ok (left, p)
  | None => Ok (left, p)
  end.
Proof. reflexivity. Qed.

Lemma parse_factor_S (n : nat) (p : t) :
  parse_factor (S n) p =
  match current_token p with
  | None => Raise AttributeError
  | Some token =>
      match type token with
      | NUMBER => Ok (Num (value token), advance p)
      | LPAREN =>
          '(expr, p2) <- parse_expression n (advance p) ;;
          '(_, p3) <- expect p2 RPAREN ;;
          Ok (Par expr, p3)
      | _ => Raise (ValueError (UnexpectedToken token))
      end
  end.
Proof. reflexivity. Qed.

(** *** More fuel changes nothing *)

Lemma bind_mono {A B : Type} (r1 r2 : result A) (k1 k2 : A -> result B) :
  bind r2 k2 <> OutOfFuel ->
  (r2 <> OutOfFuel -> r1 = r2) ->
  (forall a, k2 a <> OutOfFuel -> k1 a = k2 a) ->
  bind r1 k1 = bind r2 k2.
Proof.
  intros H Hr Hk. destruct r2 as [a| |]; simpl in *; try congruence.
  - rewrite Hr by discriminate. simpl. now apply Hk.
  - now rewrite Hr by discriminate.
Qed.

Lemma parse_mono_S (n : nat) :
  (forall p, parse_factor n p <> OutOfFuel ->
             parse_factor (S n) p = parse_factor n p) /\
  (forall p, parse_term n p <> OutOfFuel ->
             parse_term (S n) p = parse_term n p) /\
  (forall left p, parse_term_loop n left p <> OutOfFuel ->
                  parse_term_loop (S n) left p = parse_term_loop n left p) /\
  (forall p, parse_expression n p <> OutOfFuel ->
             parse_expression (S n) p = parse_expression n p) /\
  (forall left p, parse_expression_loop n left p <> OutOfFuel ->
                  parse_expression_loop (S n) left p =
                  parse_expression_loop n left p).
Proof.
  induction n as [|n (IHf & IHt & IHtl & IHe & IHel)].
  { repeat split; intros; simpl in *; congruence. }
  repeat split.
  - intros p. rewrite (parse_factor_S (S n)), (parse_factor_S n).
    destruct (current_token p) as [token|]; [|reflexivity].
    destruct (type token); try reflexivity.
    intros H. apply bind_mono; auto.
  - intros p. rewrite (parse_term_S (S n)), (parse_term_S n).
    intros H. apply bind_mono; auto. intros [lhs p1]. auto.
  - intros left p.
    rewrite (parse_term_loop_S (S n)), (parse_term_loop_S n).
    destruct (current_token p) as [op|]; [|reflexivity].
    destruct (is_multiplicative (type op)); [|reflexivity].
    intros H. apply bind_mono; auto. intros [rhs p2]. auto.
  - intros p. rewrite (parse_expression_S (S n)), (parse_expression_S n).
    intros H. apply bind_mono; auto. intros [lhs p1]. auto.
  - intros left p.
    rewrite (parse_expression_loop_S (S n)), (parse_expression_loop_S n).
    destruct (current_token p) as [op|]; [|reflexivity].
    destruct (is_additive (type op)); [|reflexivity].
    intros H. apply bind_mono; auto. intros [rhs p2]. auto.
Qed.

Lemma parse_expression_mono (n m : nat) (p : t) :
  n <= m -> parse_expression n p <> OutOfFuel ->
  parse_expression m p = parse_expression n p.
Proof.
  intros Hnm H. induction Hnm as [|m Hnm IH]; [reflexivity|].
  rewrite <- IH. apply parse_mono_S. now rewrite IH.
Qed.

End ParserFacts.

(** ** The parser reads the grammar *)

Module GrammarFacts.
Import Parser ParserFacts.

Lemma returns_S {A : Type} (f g : nat -> result A) (r : result A) :
  (forall n, f (S n) = g n) -> returns g r -> returns f r.
Proof.
  intros Hfg [n0 H]. exists (S n0). intros n Hn.
  destruct n as [|n]; [lia|]. rewrite Hfg. apply H. lia.
Qed.

Lemma returns_bind {A B : Type} (f : nat -> result A)
  (k : nat -> A -> result B) (a : A) (r : result B) :
  returns f (Ok a) -> returns (fun n => k n a) r ->
  returns (fun n => bind (f n) (k n)) r.
Proof.
  intros [n1 H1] [n2 H2]. exists (Nat.max n1 n2). intros n Hn.
  rewrite H1 by lia. simpl. apply H2. lia.
Qed.

Lemma returns_const {A : Type} (r : result A) : returns (fun _ => r) r.
Proof. exists 0. reflexivity. Qed.

Lemma returns_ext {A : Type} (f g : nat -> result A) (r : result A) :
  (forall n, f n = g n) -> returns g r -> returns f r.
Proof. intros E [n0 H]. exists n0. intros n Hn. rewrite E. now apply H. Qed.

(** The loop of [parse_term] stops before a token that is not
    multiplicative. *)
Lemma term_loop_stops (e : Expr) (pre rest : list Token) :
  starts_with is_multiplicative rest = false ->
  returns (fun n => parse_term_loop n e (parser_state pre rest))
          (Ok (e, parser_state pre rest)).
Proof.
  intros H. apply returns_S with (g := fun _ => Ok (e, parser_state pre rest));
    [|apply returns_const].
  intros n. rewrite parse_term_loop_S.
  destruct rest as [|token rest]; simpl in *; [reflexivity | now rewrite H].
Qed.

(** The loop of [parse_expression] stops before a token that is not
    additive. *)
Lemma expression_loop_stops (e : Expr) (pre rest : list Token) :
  starts_with is_additive rest = false ->
  returns (fun n => parse_expression_loop n e (parser_state pre rest))
          (Ok (e, parser_state pre rest)).
Proof.
  intros H.
  apply returns_S with (g := fun _ => Ok (e, parser_state pre rest));
    [|apply returns_const].
  intros n. rewrite parse_expression_loop_S.
  destruct rest as [|token rest]; simpl in *; [reflexivity | now rewrite H].
Qed.

Lemma factor_reads_Num (token : Token) :
  type token = NUMBER -> factor_reads (Num (value token)) [token].
Proof.
  intros Hk pre rest.
  apply returns_S
    with (g := fun _ => Ok (Num (value token), parser_state (pre ++ [token]) rest));
    [|apply returns_const].
  intros n. rewrite parse_factor_S. simpl. rewrite Hk.
  now rewrite tokens_advance_state.
Qed.

Lemma term_reads_factor (e : Expr) (tokens : list Token) :
  factor_reads e tokens -> term_reads e tokens.
Proof.
  intros Hf pre rest r Hloop.
  apply returns_S
    with (g := fun n => '(lhs, p1) <- parse_factor n
                                        (parser_state pre (tokens ++ rest)) ;;
                        parse_term_loop n lhs p1);
    [intros n; apply parse_term_S|].
  apply returns_bind
    with (k := fun n '(lhs, p1) => parse_term_loop n lhs p1)
         (a := (e, parser_state (pre ++ tokens) rest)); [apply Hf | exact Hloop].
Qed.

(** What [parse_term] returns when no multiplicative operator follows. *)
Lemma term_reads_all (e : Expr) (tokens pre rest : list Token) :
  term_reads e tokens ->
  starts_with is_multiplicative rest = false ->
  returns (fun n => parse_term n (parser_state pre (tokens ++ rest)))
          (Ok (e, parser_state (pre ++ tokens) rest)).
Proof. intros Ht Hrest. apply Ht. now apply term_loop_stops. Qed.

Lemma expression_reads_term (e : Expr) (tokens : list Token) :
  term_reads e tokens -> expression_reads e tokens.
Proof.
  intros Ht pre rest r Hrest Hloop.
  apply returns_S
    with (g := fun n => '(lhs, p1) <- parse_term n
                                        (parser_state pre (tokens ++ rest)) ;;
                        parse_expression_loop n lhs p1);
    [intros n; apply parse_expression_S|].
  apply returns_bind
    with (k := fun n '(lhs, p1) => parse_expression_loop n lhs p1)
         (a := (e, parser_state (pre ++ tokens) rest));
    [now apply term_reads_all | exact Hloop].
Qed.

(** What [parse_expression] returns when no operator follows. *)
Lemma expression_reads_all (e : Expr) (tokens pre rest : list Token) :
  expression_reads e tokens ->
  starts_with is_multiplicative rest = false ->
  starts_with is_additive rest = false ->
  returns (fun n => parse_expression n (parser_state pre (tokens ++ rest)))
          (Ok (e, parser_state (pre ++ tokens) rest)).
Proof.
  intros He Hm Ha. apply He; [exact Hm | now apply expression_loop_stops].
Qed.

Lemma term_reads_fold (l r : Expr) (tl tr : list Token) (op : Token) :
  term_reads l tl -> factor_reads r tr ->
  is_multiplicative (type op) = true ->
  term_reads (fold_multiplicative op l r) (tl ++ op :: tr).
Proof.
  intros Hl Hr Hop pre rest res Hloop.
  rewrite <- app_assoc. apply Hl.
  apply returns_S
    with (g := fun n =>
                 '(rhs, p2) <- parse_factor n
                     (parser_state ((pre ++ tl) ++ [op]) (tr ++ rest)) ;;
                 parse_term_loop n (fold_multiplicative op l rhs) p2).
  { intros n. rewrite parse_term_loop_S. simpl. rewrite Hop.
    now rewrite tokens_advance_state. }
  apply returns_bind
    with (k := fun n '(rhs, p2) =>
                 parse_term_loop n (fold_multiplicative op l rhs) p2)
         (a := (r, parser_state (((pre ++ tl) ++ [op]) ++ tr) rest));
    [apply Hr|].
  replace (((pre ++ tl) ++ [op]) ++ tr) with (pre ++ tl ++ op :: tr)
    by (rewrite <- !app_assoc; reflexivity).
  exact Hloop.
Qed.

Lemma expression_reads_fold (l r : Expr) (tl tr : list Token) (op : Token) :
  expression_reads l tl -> term_reads r tr ->
  is_additive (type op) = true ->
  expression_reads (fold_additive op l r) (tl ++ op :: tr).
Proof.
  intros Hl Hr Hop pre rest res Hrest Hloop.
  rewrite <- app_assoc. apply Hl.
  { simpl. destruct (type op); simpl in *; congruence. }
  apply returns_S
    with (g := fun n =>
                 '(rhs, p2) <- parse_term n
                     (parser_state ((pre ++ tl) ++ [op]) (tr ++ rest)) ;;
                 parse_expression_loop n (fold_additive op l rhs) p2).
  { intros n. rewrite parse_expression_loop_S. simpl. rewrite Hop.
    now rewrite tokens_advance_state. }
  apply returns_bind
    with (k := fun n '(rhs, p2) =>
                 parse_expression_loop n (fold_additive op l rhs) p2)
         (a := (r, parser_state (((pre ++ tl) ++ [op]) ++ tr) rest));
    [now apply term_reads_all|].
  replace (((pre ++ tl) ++ [op]) ++ tr) with (pre ++ tl ++ op :: tr)
    by (rewrite <- !app_assoc; reflexivity).
  exact Hloop.
Qed.

Lemma factor_reads_Par (e : Expr) (tokens : list Token) (lp rp : Token) :
  expression_reads e tokens -> type lp = LPAREN -> type rp = RPAREN ->
  factor_reads (Par e) (lp :: tokens ++ [rp]).
Proof.
  intros He Hlp Hrp pre rest.
  apply returns_S
    with (g := fun n =>
                 '(expr, p2) <- parse_expression n
                     (parser_state (pre ++ [lp]) (tokens ++ rp :: rest)) ;;
                 '(_, p3) <- expect p2 RPAREN ;;
                 Ok (Par expr, p3)).
  { intros n. rewrite parse_factor_S. simpl. rewrite Hlp.
    rewrite tokens_advance_state. rewrite <- app_assoc. reflexivity. }
  apply returns_bind
    with (k := fun (n : nat) '(expr, p2) =>
                 '(_, p3) <- expect p2 RPAREN ;; Ok (Par expr, p3))
         (a := (e, parser_state ((pre ++ [lp]) ++ tokens) (rp :: rest))).
  - apply expression_reads_all; [exact He | |]; simpl; now rewrite Hrp.
  - unfold expect; simpl. rewrite Hrp; simpl. rewrite tokens_advance_state.
    replace (((pre ++ [lp]) ++ tokens) ++ [rp])
      with (pre ++ lp :: tokens ++ [rp])
      by (rewrite <- !app_assoc; reflexivity).
    apply returns_const.
Qed.

(** Every tree of the grammar is read back from the tokens that spell it,
    by the production of its level and by those above it. *)
Theorem parser_reads_grammar (e : Expr) (tokens : list Token) :
  spells e tokens -> well_nested e = true ->
  (2 <= level e -> factor_reads e tokens) /\
  (1 <= level e -> term_reads e tokens) /\
  expression_reads e tokens.
Proof.
  intros Hs. induction Hs as
    [token Hk
    | lp e tokens rp Hlp Hrp Hs IH
    | l tl op r tr Hop Hl IHl Hr IHr
    | l tl op r tr Hop Hl IHl Hr IHr
    | l tl op r tr Hop Hl IHl Hr IHr
    | l tl op r tr Hop Hl IHl Hr IHr];
    intros Hwn; cbn [well_nested] in Hwn; cbn [level].
  - pose proof (@factor_reads_Num token Hk) as Hf.
    auto using term_reads_factor, expression_reads_term.
  - destruct (IH Hwn) as (_ & _ & He).
    pose proof (@factor_reads_Par e tokens lp rp He Hlp Hrp) as Hf.
    auto using term_reads_factor, expression_reads_term.
  - apply andb_prop in Hwn as [Hwn H1]. apply andb_prop in Hwn as [Hwl Hwr].
    apply Nat.leb_le in H1.
    destruct (IHl Hwl) as (_ & _ & Hel). destruct (IHr Hwr) as (_ & Htr & _).
    repeat split; try lia.
    replace (Add l r) with (fold_additive op l r)
      by (unfold fold_additive; now rewrite Hop).
    apply expression_reads_fold; auto. now rewrite Hop.
  - apply andb_prop in Hwn as [Hwn H1]. apply andb_prop in Hwn as [Hwl Hwr].
    apply Nat.leb_le in H1.
    destruct (IHl Hwl) as (_ & _ & Hel). destruct (IHr Hwr) as (_ & Htr & _).
    repeat split; try lia.
    replace (Minus l r) with (fold_additive op l r)
      by (unfold fold_additive; now rewrite Hop).
    apply expression_reads_fold; auto. now rewrite Hop.
  - apply andb_prop in Hwn as [Hwn H2]. apply andb_prop in Hwn as [Hwn H1].
    apply andb_prop in Hwn as [Hwl Hwr].
    apply Nat.leb_le in H1, H2.
    destruct (IHl Hwl) as (_ & Htl & _). destruct (IHr Hwr) as (Hfr & _ & _).
    assert (Ht : term_reads (Multi l r) (tl ++ op :: tr)).
    { replace (Multi l r) with (fold_multiplicative op l r)
        by (unfold fold_multiplicative; now rewrite Hop).
      apply term_reads_fold; auto. now rewrite Hop. }
    repeat split; try lia; auto using expression_reads_term.
  - apply andb_prop in Hwn as [Hwn H2]. apply andb_prop in Hwn as [Hwn H1].
    apply andb_prop in Hwn as [Hwl Hwr].
    apply Nat.leb_le in H1, H2.
    destruct (IHl Hwl) as (_ & Htl & _). destruct (IHr Hwr) as (Hfr & _ & _).
    assert (Ht : term_reads (Div l r) (tl ++ op :: tr)).
    { replace (Div l r) with (fold_multiplicative op l r)
        by (unfold fold_multiplicative; now rewrite Hop).
      apply term_reads_fold; auto. now rewrite Hop. }
    repeat split; try lia; auto using expression_reads_term.
Qed.

End GrammarFacts.

(** ** What the parser returns is a tree of the grammar *)

Module SoundFacts.
Import Parser ParserFacts.

Lemma bind_Ok {A B : Type} (r : result A) (k : A -> result B) (b : B) :
  bind r k = Ok b -> exists a, r = Ok a /\ k a = Ok b.
Proof. destruct r as [a| |]; simpl; [eauto | discriminate | discriminate]. Qed.

Lemma reads_as_step (pre rest tl : list Token) (lv lv' : nat)
  (used rest' : list Token) (e : Expr) (p' : t) :
  rest = used ++ rest' ->
  reads_as (pre ++ used) rest' (tl ++ used) lv e p' -> lv' <= lv ->
  reads_as pre rest tl lv' e p'.
Proof.
  intros -> (used' & rest'' & -> & -> & Hs & Hw & Hl) Hlv.
  exists (used ++ used'), rest''. rewrite <- !app_assoc in *.
  repeat split; auto. lia.
Qed.

Lemma parse_sound (n : nat) :
  forall pre rest,
  (forall e p', parse_factor n (parser_state pre rest) = Ok (e, p') ->
                reads_as pre rest [] 2 e p') /\
  (forall e p', parse_term n (parser_state pre rest) = Ok (e, p') ->
                reads_as pre rest [] 1 e p') /\
  (forall left e p',
     parse_term_loop n left (parser_state pre rest) = Ok (e, p') ->
     forall tl, spells left tl -> well_nested left = true -> 1 <= level left ->
     reads_as pre rest tl 1 e p') /\
  (forall e p', parse_expression n (parser_state pre rest) = Ok (e, p') ->
                reads_as pre rest [] 0 e p') /\
  (forall left e p',
     parse_expression_loop n left (parser_state pre rest) = Ok (e, p') ->
     forall tl, spells left tl -> well_nested left = true ->
     reads_as pre rest tl 0 e p').
Proof.
  induction n as [|n IH]; intros pre rest.
  { repeat split; intros; discriminate. }
  repeat split.
  - (* parse_factor *)
    intros e p'. rewrite parse_factor_S.
    destruct rest as [|token rest0]; simpl; [discriminate|].
    destruct (type token) eqn:Ek; try discriminate.
    + intros [= <- <-]. rewrite tokens_advance_state.
      exists [token], rest0. repeat split; auto. now constructor.
    + rewrite tokens_advance_state. intros H.
      apply bind_Ok in H as ([e0 p2] & H1 & H2).
      apply IH in H1 as (used & rest1 & -> & -> & Hs & Hw & _).
      apply bind_Ok in H2 as ([rp p3] & H2 & [= <- <-]).
      unfold expect in H2.
      destruct rest1 as [|token' rest2]; simpl in H2; [discriminate|].
      destruct (TokenType_eqb (type token') RPAREN) eqn:Er; [|discriminate].
      injection H2 as <- <-. rewrite tokens_advance_state.
      apply TokenType_eqb_eq in Er.
      exists (token :: used ++ [token']), rest2. simpl.
      rewrite <- !app_assoc. simpl.
      repeat split; auto. now constructor.
  - (* parse_term *)
    intros e p'. rewrite parse_term_S. intros H.
    apply bind_Ok in H as ([lhs p1] & H1 & H2).
    apply IH in H1 as (used & rest1 & -> & -> & Hs & Hw & Hl).
    apply reads_as_step with (lv := 1) (used := used) (rest' := rest1); auto.
    eapply IH; eauto; lia.
  - (* parse_term_loop *)
    intros left e p'. rewrite parse_term_loop_S.
    destruct rest as [|op rest0]; simpl.
    + intros [= <- <-] tl Hs Hw Hl. exists [], []. rewrite !app_nil_r. auto.
    + destruct (is_multiplicative (type op)) eqn:Eop.
      * rewrite tokens_advance_state. intros H tl Hs Hw Hl.
        apply bind_Ok in H as ([rhs p2] & H1 & H2).
        apply IH in H1 as (used & rest1 & -> & -> & Hsr & Hwr & Hlr).
        apply reads_as_step
          with (lv := 1) (used := op :: used) (rest' := rest1); auto.
        replace (pre ++ op :: used) with ((pre ++ [op]) ++ used)
          by (rewrite <- app_assoc; reflexivity).
        eapply IH; [exact H2 | | |].
        -- unfold fold_multiplicative.
           destruct (type op) eqn:Ek; try discriminate; now constructor.
        -- unfold fold_multiplicative.
           destruct (type op); try discriminate; cbn [well_nested];
             rewrite Hw, Hwr; cbn [andb];
             apply andb_true_intro; split; apply Nat.leb_le; lia.
        -- unfold fold_multiplicative.
           destruct (type op); try discriminate; simpl; lia.
      * intros [= <- <-] tl Hs Hw Hl. exists [], (op :: rest0).
        rewrite !app_nil_r. auto.
  - (* parse_expression *)
    intros e p'. rewrite parse_expression_S. intros H.
    apply bind_Ok in H as ([lhs p1] & H1 & H2).
    apply IH in H1 as (used & rest1 & -> & -> & Hs & Hw & Hl).
    apply reads_as_step with (lv := 0) (used := used) (rest' := rest1); auto.
    eapply IH; eauto.
  - (* parse_expression_loop *)
    intros left e p'. rewrite parse_expression_loop_S.
    destruct rest as [|op rest0]; simpl.
    + intros [= <- <-] tl Hs Hw. exists [], []. rewrite !app_nil_r.
      repeat split; auto. lia.
    + destruct (is_additive (type op)) eqn:Eop.
      * rewrite tokens_advance_state. intros H tl Hs Hw.
        apply bind_Ok in H as ([rhs p2] & H1 & H2).
        apply IH in H1 as (used & rest1 & -> & -> & Hsr & Hwr & Hlr).
        apply reads_as_step
          with (lv := 0) (used := op :: used) (rest' := rest1); auto.
        replace (pre ++ op :: used) with ((pre ++ [op]) ++ used)
          by (rewrite <- app_assoc; reflexivity).
        eapply IH; [exact H2 | |].
        -- unfold fold_additive.
           destruct (type op) eqn:Ek; try discriminate; now constructor.
        -- unfold fold_additive.
           destruct (type op); try discriminate; cbn [well_nested];
             rewrite Hw, Hwr; cbn [andb]; apply Nat.leb_le; lia.
      * intros [= <- <-] tl Hs Hw. exists [], (op :: rest0).
        rewrite !app_nil_r. repeat split; auto. lia.
Qed.

End SoundFacts.

(** ** Numeric literals *)

Module NumberFacts.
Import Lexer LexerFacts.

Lemma split_at_decimal (ip fp : string) :
  Py.all_decimal ip = true ->
  Py.split_at "." (ip ++ String "." fp) = (ip, fp).
Proof.
  unfold Py.all_decimal. induction ip as [|c ip IH]; simpl; [reflexivity|].
  intros H. apply andb_prop in H as [Hc Hip].
  now rewrite (is_decimal_not_dot c Hc), (IH Hip).
Qed.

Lemma contains_dot_middle (ip fp : string) :
  Py.contains "." (ip ++ String "." fp) = true.
Proof.
  induction ip as [|c ip IH]; simpl; [reflexivity|].
  rewrite IH. apply orb_true_r.
Qed.

Lemma float_decimal (ip fp : string) :
  ip <> EmptyString -> Py.all_decimal ip = true -> Py.all_decimal fp = true ->
  Py.float (ip ++ String "." fp) = Some (Py.decimal_float ip fp).
Proof.
  intros Hne Hip Hfp. unfold Py.float. rewrite (split_at_decimal ip fp Hip).
  assert (Hall : Py.all_decimal (ip ++ fp) = true).
  { unfold Py.all_decimal in *. now rewrite all_chars_append, Hip, Hfp. }
  rewrite Hall. destruct ip as [|c ip]; [congruence | reflexivity].
Qed.

Lemma occurrences_contains (c : ascii) (s : string) :
  1 <= occurrences c s -> Py.contains c s = true.
Proof.
  induction s as [|d s IH]; simpl; [lia|].
  destruct (Ascii.eqb d c); simpl; auto.
Qed.

Lemma occurrences_not_decimal (s : string) :
  1 <= occurrences "." s -> all_chars Py.is_decimal s = false.
Proof.
  induction s as [|d s IH]; simpl; [lia|].
  destruct (Ascii.eqb d ".") eqn:E; simpl.
  - intros _. apply Ascii.eqb_eq in E. subst d. reflexivity.
  - intros H. rewrite (IH H). apply andb_false_r.
Qed.

Lemma split_at_occurrences (s : string) :
  2 <= occurrences "." s -> 1 <= occurrences "." (snd (Py.split_at "." s)).
Proof.
  induction s as [|d s IH]; simpl; [lia|].
  destruct (Ascii.eqb d ".") eqn:E; simpl; [lia|].
  intros H. specialize (IH H).
  destruct (Py.split_at "." s) as [a b]. exact IH.
Qed.

(** [float] refuses a text with two decimal points or more. *)
Lemma float_two_points (s : string) :
  2 <= occurrences "." s -> Py.float s = None.
Proof.
  intros H. unfold Py.float.
  pose proof (split_at_occurrences s H) as Hb.
  destruct (Py.split_at "." s) as [a b]. simpl in Hb.
  assert (Hall : Py.all_decimal (a ++ b) = false).
  { unfold Py.all_decimal. rewrite all_chars_append.
    rewrite (occurrences_not_decimal b Hb). apply andb_false_r. }
  rewrite Hall. now destruct (a ++ b)%string.
Qed.

Lemma number_token_float (ip fp : string) (start_pos : nat) :
  ip <> EmptyString -> Py.all_decimal ip = true -> Py.all_decimal fp = true ->
  number_token (ip ++ String "." fp) start_pos =
  Ok (mkToken NUMBER (PyFloat (Py.decimal_float ip fp)) start_pos).
Proof.
  intros Hne Hip Hfp. unfold number_token.
  now rewrite contains_dot_middle, (@float_decimal ip fp Hne Hip Hfp).
Qed.

Lemma number_token_two_points (s : string) (start_pos : nat) :
  2 <= occurrences "." s ->
  number_token s start_pos = Raise (ValueError (InvalidFloatLiteral s)).
Proof.
  intros H. unfold number_token.
  rewrite occurrences_contains by lia. now rewrite float_two_points.
Qed.

(** [read_number] on a maximal run of digits and decimal points. *)
Lemma read_number_run (pre run post : string) :
  all_chars digit_or_dot run = true ->
  (forall c, head post = Some c -> digit_or_dot c = false) ->
  read_number (state pre (run ++ post)) =
  (token <- number_token run (String.length pre) ;;
   Ok (token, state (pre ++ run) post)).
Proof.
  intros Hrun Hpost. rewrite read_number_state.
  now destruct (take_while_run digit_or_dot run post Hrun Hpost) as [-> ->].
Qed.

(** The last digit of a decimal numeral counts for itself, the digits
    before it ten times their value. *)
Lemma decimal_value_snoc (s : string) (c : ascii) :
  forall acc,
  Py.decimal_value acc (s ++ String c "") =
  (10 * Py.decimal_value acc s + Py.digit_value c)%Z.
Proof. induction s as [|d s IH]; intros acc; simpl; [reflexivity | apply IH]. Qed.

(** *** Decimal numerals *)

Lemma decimal_value_of_uint_acc (d : Decimal.uint) :
  forall acc,
  Py.decimal_value (Zpos acc) (DecimalString.NilEmpty.string_of_uint d) =
  Zpos (Pos.of_uint_acc d acc).
Proof.
  induction d as [|d IH|d IH|d IH|d IH|d IH|d IH|d IH|d IH|d IH|d IH];
    intros acc; cbn [DecimalString.NilEmpty.string_of_uint Py.decimal_value Pos.of_uint_acc];
    [reflexivity|..];
    rewrite <- IH; f_equal;
    try match goal with
        | |- context [Py.digit_value ?c] =>
            let v := eval vm_compute in (Py.digit_value c) in
            change (Py.digit_value c) with v; lia
        end.
Qed.

Lemma decimal_value_of_uint (d : Decimal.uint) :
  Py.decimal_value 0 (DecimalString.NilEmpty.string_of_uint d) = Z.of_N (Pos.of_uint d).
Proof.
  induction d as [|d IH|d IH|d IH|d IH|d IH|d IH|d IH|d IH|d IH|d IH];
    cbn [DecimalString.NilEmpty.string_of_uint Py.decimal_value Pos.of_uint];
    [reflexivity | exact IH | ..];
    apply (decimal_value_of_uint_acc d).
Qed.

Lemma all_decimal_of_uint (d : Decimal.uint) :
  Py.all_decimal (DecimalString.NilEmpty.string_of_uint d) = true.
Proof.
  unfold Py.all_decimal.
  induction d as [|d IH|d IH|d IH|d IH|d IH|d IH|d IH|d IH|d IH|d IH];
    cbn [DecimalString.NilEmpty.string_of_uint all_chars]; [reflexivity|..];
    now rewrite IH.
Qed.

Lemma str_not_empty (n : N) : Py.str n <> EmptyString.
Proof.
  unfold Py.str. destruct n as [|p]; [discriminate|].
  pose proof (DecimalPos.Unsigned.to_uint_nonnil p) as H.
  simpl. destruct (Pos.to_uint p); [congruence | discriminate ..].
Qed.

Lemma decimal_value_str (n : N) : Py.decimal_value 0 (Py.str n) = Z.of_N n.
Proof.
  unfold Py.str. rewrite decimal_value_of_uint.
  change (Pos.of_uint (N.to_uint n)) with (N.of_uint (N.to_uint n)).
  now rewrite DecimalN.Unsigned.of_to.
Qed.

(** The numeral of [n] is converted back to [n], when [int] takes its
    digits. *)
Lemma int_str (n : N) :
  String.length (Py.str n) <= Py.int_max_str_digits ->
  Py.int (Py.str n) = Py.Converted (Z.of_N n).
Proof.
  intros Hlen. rewrite int_decimal.
  - now rewrite decimal_value_str.
  - apply str_not_empty.
  - apply all_decimal_of_uint.
  - exact Hlen.
Qed.

End NumberFacts.

(** ** From the text to the tree *)

Module PipelineFacts.
Import ParserFacts GrammarFacts SoundFacts.

Lemma eof_terminated_has_eof (tokens : list Token) :
  eof_terminated tokens -> has_eof tokens = true.
Proof.
  intros (body & eof & -> & Hk & _). unfold has_eof.
  rewrite existsb_app. simpl. unfold is_eof. rewrite Hk. simpl.
  apply orb_true_r.
Qed.

(** [parse] returns the tree that its productions read before [EOF]. *)
Lemma parse_reads (e : Expr) (tokens : list Token) (eof : Token) :
  expression_reads e tokens -> type eof = EOF ->
  Parser.parse (Parser.init (tokens ++ [eof])) =
  Ok (e, parser_state tokens [eof]).
Proof.
  intros He Hk. unfold Parser.parse. rewrite tokens_init_state.
  set (n := Parser.fuel (parser_state [] (tokens ++ [eof]))).
  assert (Heof : has_eof (tokens ++ [eof]) = true).
  { unfold has_eof. rewrite existsb_app. simpl. unfold is_eof.
    rewrite Hk. simpl. apply orb_true_r. }
  destruct (parse_total n [] (tokens ++ [eof]) Heof) as (_ & _ & _ & Ht & _).
  specialize (Ht ltac:(subst n; unfold Parser.fuel; simpl; lia)).
  destruct (expression_reads_all [] [eof] He) as [n0 Hn0];
    [simpl; now rewrite Hk | simpl; now rewrite Hk |].
  cbn [app] in Hn0.
  assert (Hres : Parser.parse_expression n (parser_state [] (tokens ++ [eof])) =
                 Ok (e, parser_state tokens [eof])).
  { rewrite <- (Hn0 (Nat.max n n0)) by lia.
    symmetry. apply parse_expression_mono; [lia|].
    destruct Ht; discriminate. }
  rewrite Hres. simpl. now rewrite Hk.
Qed.

Lemma parse_spelled (e : Expr) (tokens : list Token) (eof : Token) :
  spells e tokens -> well_nested e = true -> type eof = EOF ->
  Parser.parse (Parser.init (tokens ++ [eof])) =
  Ok (e, parser_state tokens [eof]).
Proof.
  intros Hs Hw Hk. apply parse_reads; [|exact Hk].
  now apply parser_reads_grammar.
Qed.

(** A tree that [parse] returns is a tree of the grammar and spells the
    tokens consumed; no token is left, or the next one is [EOF]. *)
Lemma parse_returns_grammar (tokens : list Token) (e : Expr) (p' : Parser.t) :
  Parser.parse (Parser.init tokens) = Ok (e, p') ->
  exists used rest,
    tokens = used ++ rest /\ p' = parser_state used rest /\
    spells e used /\ well_nested e = true /\
    starts_with (fun k => negb (TokenType_eqb k EOF)) rest = false.
Proof.
  unfold Parser.parse. rewrite tokens_init_state. intros H.
  apply bind_Ok in H as ([e' p1] & H1 & H2).
  apply parse_sound in H1 as (used & rest & -> & -> & Hs & Hw & _).
  simpl in *.
  assert (E : Ok (e', parser_state used rest) = Ok (e, p') /\
              starts_with (fun k => negb (TokenType_eqb k EOF)) rest = false).
  { destruct rest as [|token rest]; simpl in *; [auto|].
    destruct (TokenType_eqb (type token) EOF); simpl in *;
      [auto | discriminate]. }
  destruct E as [[= <- <-] Hrest]. exists used, rest. auto.
Qed.

Lemma no_eof_cons (token : Token) (tokens : list Token) :
  type token <> EOF -> no_eof tokens = true -> no_eof (token :: tokens) = true.
Proof.
  intros Hk H. change (no_eof ([token] ++ tokens) = true).
  now rewrite no_eof_app, (no_eof_one token Hk), H.
Qed.

Lemma spells_no_eof (e : Expr) (tokens : list Token) :
  spells e tokens -> no_eof tokens = true.
Proof.
  induction 1 as
    [token Hk
    | lp e tokens rp Hlp Hrp Hs IH
    | l tl op r tr Hop Hl IHl Hr IHr
    | l tl op r tr Hop Hl IHl Hr IHr
    | l tl op r tr Hop Hl IHl Hr IHr
    | l tl op r tr Hop Hl IHl Hr IHr];
    try (rewrite no_eof_app, IHl; apply no_eof_cons; [congruence | exact IHr]).
  - apply no_eof_one. congruence.
  - apply no_eof_cons; [congruence|].
    rewrite no_eof_app, IH. apply no_eof_one. congruence.
Qed.

(** The first [EOF] token of a list is where it is. *)
Lemma first_eof_unique (a b r1 r2 : list Token) (x y : Token) :
  no_eof a = true -> no_eof b = true ->
  type x = EOF -> type y = EOF ->
  a ++ x :: r1 = b ++ y :: r2 -> a = b /\ x = y /\ r1 = r2.
Proof.
  revert b. induction a as [|u a IH]; intros [|v b] Ha Hb Hx Hy E;
    simpl in *.
  - injection E as -> ->. auto.
  - injection E as -> _. unfold is_eof in Hb. now rewrite Hx in Hb.
  - injection E as -> _. unfold is_eof in Ha. now rewrite Hy in Ha.
  - injection E as -> E.
    apply andb_prop in Ha as [_ Ha]. apply andb_prop in Hb as [_ Hb].
    destruct (IH b Ha Hb Hx Hy E) as (-> & -> & ->). auto.
Qed.

(** The text is parsed into a tree, or a [ValueError] is raised. *)
Lemma parse_expression_from_string_cases (s : string) :
  (exists e, parse_expression_from_string s = Ok e)
  \/ (exists m, parse_expression_from_string s = Raise (ValueError m)).
Proof.
  unfold parse_expression_from_string.
  rewrite TokenizeFacts.tokenize_init_fuel.
  destruct (TokenizeFacts.tokenize_loop_total (n := String.length s + 2)
              s [] "" ltac:(lia)) as [(tokens & pre' & H) | (m & H)].
  - pose proof H as Hshape.
    apply TokenizeFacts.tokenize_loop_shape in Hshape
      as (body & eof & Htok & Hk & Hbody).
    rewrite H. simpl.
    assert (Heof : has_eof tokens = true).
    { apply eof_terminated_has_eof. exists body, eof. simpl in Htok. auto. }
    destruct (parse_has_eof tokens Heof)
      as [(e & p' & _ & -> & _) | (m & ->)]; simpl; eauto.
  - rewrite H. simpl. eauto.
Qed.

(** A text that is one run of digits and decimal points, after a decimal
    digit: the tree is the literal that the conversion gives. *)
Lemma parse_literal (c : ascii) (s : string) :
  Py.is_decimal c = true ->
  all_chars Lexer.digit_or_dot (String c s) = true ->
  parse_expression_from_string (String c s) =
  (token <- Lexer.number_token (String c s) 0 ;; Ok (Num (value token))).
Proof.
  intros Hc Hrun. unfold parse_expression_from_string.
  rewrite TokenizeFacts.tokenize_init_fuel.
  replace (String.length (String c s) + 2)
    with (S (S (String.length (String c s)))) by lia.
  cbn [Lexer.tokenize_loop]. rewrite LexerFacts.get_next_token_state.
  assert (Hsp : Py.isspace c = false) by (revert Hc; each_char c).
  assert (Hd : Py.isdigit c = true) by (unfold Py.isdigit; now rewrite Hc).
  unfold Lexer.next at 1. cbn [take_while drop_while]. rewrite Hsp, Hd.
  destruct (take_while_all Lexer.digit_or_dot (String c s) Hrun) as [-> ->].
  destruct (number_token_cases (String c s) 0)
    as [[v Hv] | [m Hm]]; cbn [append String.length];
    [rewrite Hv | rewrite Hm]; [|reflexivity].
  cbn [bind type TokenType_eqb app].
  rewrite LexerFacts.get_next_token_state. unfold Lexer.next.
  cbn [take_while drop_while bind type TokenType_eqb app value].
  reflexivity.
Qed.

Lemma decimal_digit_or_dot (s : string) :
  Py.all_decimal s = true -> all_chars Lexer.digit_or_dot s = true.
Proof.
  intros H.
  apply all_chars_imp2 with (f := Py.is_decimal) (g := Py.is_decimal);
    [|exact H|exact H].
  intros d Hd _. unfold Lexer.digit_or_dot, Py.isdigit. now rewrite Hd.
Qed.

(** A text of decimal digits, as many as [int] takes, is parsed as the
    literal of its integer. *)
Lemma parse_integer_literal (s : string) :
  s <> EmptyString -> Py.all_decimal s = true ->
  String.length s <= Py.int_max_str_digits ->
  parse_expression_from_string s = Ok (Num (PyInt (Py.decimal_value 0 s))).
Proof.
  intros Hne Hall Hlen. destruct s as [|c s]; [congruence|].
  pose proof Hall as Hall'. unfold Py.all_decimal in Hall'. simpl in Hall'.
  apply andb_prop in Hall' as [Hc _].
  rewrite parse_literal; [|exact Hc|now apply decimal_digit_or_dot].
  now rewrite number_token_decimal.
Qed.

(** A text of more decimal digits than [int] takes is refused. *)
Lemma parse_long_integer_literal (s : string) :
  Py.all_decimal s = true -> Py.int_max_str_digits < String.length s ->
  parse_expression_from_string s =
  Raise (ValueError (ExceedsDigitLimit (String.length s))).
Proof.
  intros Hall Hlen. destruct s as [|c s]; [simpl in Hlen; lia|].
  pose proof Hall as Hall'. unfold Py.all_decimal in Hall'. simpl in Hall'.
  apply andb_prop in Hall' as [Hc _].
  rewrite parse_literal; [|exact Hc|now apply decimal_digit_or_dot].
  now rewrite number_token_too_long.
Qed.

(** A text of decimal digits around one decimal point is parsed as the
    literal of its binary64 number. *)
Lemma parse_decimal_literal (ip fp : string) :
  ip <> EmptyString -> Py.all_decimal ip = true -> Py.all_decimal fp = true ->
  parse_expression_from_string (ip ++ String "." fp) =
  Ok (Num (PyFloat (Py.decimal_float ip fp))).
Proof.
  intros Hne Hip Hfp.
  assert (Hrun : all_chars Lexer.digit_or_dot (ip ++ String "." fp) = true).
  { rewrite all_chars_append, (decimal_digit_or_dot ip Hip). simpl.
    apply (decimal_digit_or_dot fp Hfp). }
  destruct ip as [|c ip]; [congruence|].
  pose proof Hip as Hip'. unfold Py.all_decimal in Hip'. simpl in Hip'.
  apply andb_prop in Hip' as [Hc _].
  change (String c ip ++ String "." fp)%string
    with (String c (ip ++ String "." fp)) in *.
  rewrite parse_literal; [|exact Hc|exact Hrun].
  change (String c (ip ++ String "." fp))
    with (String c ip ++ String "." fp)%string.
  now rewrite NumberFacts.number_token_float.
Qed.

End PipelineFacts.

(** ** Chains of operators *)

Module ChainFacts.
Import Parser GrammarFacts.

Lemma chain_tokens_cons (first : list Token) (op : Token) (e : Expr)
  (tokens : list Token) (items : list operand) :
  chain_tokens first ((op, e, tokens) :: items) =
  chain_tokens (first ++ op :: tokens) items.
Proof. unfold chain_tokens. simpl. now rewrite <- app_assoc. Qed.

Lemma chain_tree_snoc (fold : Token -> Expr -> Expr -> Expr) (first : Expr)
  (items : list operand) (op : Token) (e : Expr) (tokens : list Token) :
  chain_tree fold first (items ++ [(op, e, tokens)]) =
  fold op (chain_tree fold first items) e.
Proof. unfold chain_tree. now rewrite fold_left_app. Qed.

Lemma additive_chain_reads (items : list operand) :
  forall first tfirst,
  expression_reads first tfirst -> chain_of is_additive 1 items ->
  expression_reads (chain_tree fold_additive first items)
                   (chain_tokens tfirst items).
Proof.
  induction items as [|[[op e] tokens] items IH]; intros first tfirst Hf Hc.
  - unfold chain_tokens. simpl. now rewrite app_nil_r.
  - inversion Hc as [|x xs Hx Hrest]; subst.
    cbn beta iota in Hx. destruct Hx as (Hop & Hs & Hw & Hl).
    rewrite chain_tokens_cons. apply IH; [|exact Hrest].
    apply expression_reads_fold; auto.
    now apply parser_reads_grammar.
Qed.

Lemma multiplicative_chain_reads (items : list operand) :
  forall first tfirst,
  term_reads first tfirst -> chain_of is_multiplicative 2 items ->
  term_reads (chain_tree fold_multiplicative first items)
             (chain_tokens tfirst items).
Proof.
  induction items as [|[[op e] tokens] items IH]; intros first tfirst Hf Hc.
  - unfold chain_tokens. simpl. now rewrite app_nil_r.
  - inversion Hc as [|x xs Hx Hrest]; subst.
    cbn beta iota in Hx. destruct Hx as (Hop & Hs & Hw & Hl).
    rewrite chain_tokens_cons. apply IH; [|exact Hrest].
    apply term_reads_fold; auto.
    now apply parser_reads_grammar.
Qed.

End ChainFacts.

(** ** Operators and characters *)

Lemma operator_chars_None (c : ascii) :
  ~ In c operator_chars -> Lexer.operator c = None.
Proof.
  intros H. unfold Lexer.operator.
  repeat match goal with
         | |- context [Ascii.eqb c ?x] =>
             destruct (Ascii.eqb_spec c x) as [->|_];
             [exfalso; apply H; simpl; tauto|]
         end.
  reflexivity.
Qed.

Lemma TokenType_value_inj (a b : TokenType) :
  TokenType_value a = TokenType_value b -> a = b.
Proof. destruct a, b; simpl; intros H; (reflexivity || discriminate). Qed.

(** * The lexer and the parser in detail *)

(** ** The numbers that the lexer converts *)

Module LiteralRunFacts.

Lemma split_at_inv (c : ascii) (s : string) :
  Py.contains c s = true ->
  s = (fst (Py.split_at c s) ++ String c (snd (Py.split_at c s)))%string.
Proof.
  induction s as [|d s IH]; simpl; [discriminate|].
  destruct (Ascii.eqb d c) eqn:E.
  - apply Ascii.eqb_eq in E. subst d. reflexivity.
  - simpl. intros H. destruct (Py.split_at c s) as [a b]. simpl in *.
    f_equal. now apply IH.
Qed.

(** What [float] converts: decimal digits, one of them at least, around
    one decimal point. *)
Lemma float_inv (s : string) (f : float) :
  Py.float s = Some f -> Py.contains "." s = true ->
  exists ip fp,
    s = (ip ++ String "." fp)%string /\ Py.all_decimal ip = true /\
    Py.all_decimal fp = true /\ f = Py.decimal_float ip fp.
Proof.
  unfold Py.float. intros H Hc.
  pose proof (split_at_inv "." s Hc) as Hs.
  destruct (Py.split_at "." s) as [ip fp]. simpl in Hs.
  destruct (ip ++ fp)%string as [|a ds] eqn:Eds; [discriminate|].
  destruct (Py.all_decimal (String a ds)) eqn:Hall; [|discriminate].
  injection H as <-. rewrite <- Eds in Hall.
  unfold Py.all_decimal in Hall. rewrite all_chars_append in Hall.
  apply andb_prop in Hall as [Hip Hfp].
  exists ip, fp. auto.
Qed.

(** A token that the conversion of [read_number] returns for a run that
    starts with a digit: the run is a number as the lexer converts it. *)
Lemma number_token_literal (c : ascii) (run : string) (pos : nat)
  (token : Token) :
  Lexer.number_token (String c run) pos = Ok token ->
  Py.isdigit c = true -> literal (String c run).
Proof.
  unfold Lexer.number_token. intros H Hd.
  destruct (Py.contains "." (String c run)) eqn:Hc.
  - destruct (Py.float (String c run)) as [f|] eqn:Ef; [|discriminate].
    apply float_inv in Ef as (ip & fp & Hs & Hip & Hfp & _); [|exact Hc].
    right. exists ip, fp. repeat split; auto.
    intros ->. simpl in Hs. injection Hs as -> _. discriminate.
  - destruct (Py.int (String c run)) as [z| |digits] eqn:Ei;
      try discriminate.
    apply int_converted_inv in Ei as (Hne & Hall & Hlen & _).
    left. auto.
Qed.

(** A number as the lexer converts it is converted. *)
Lemma literal_number_token (run : string) (pos : nat) :
  literal run ->
  exists v, Lexer.number_token run pos = Ok (mkToken NUMBER v pos).
Proof.
  intros [(Hne & Hall & Hlen) | (ip & fp & -> & Hne & Hip & Hfp)].
  - eexists. now apply number_token_decimal.
  - eexists. now apply NumberFacts.number_token_float.
Qed.

Lemma literal_starts_decimal (run : string) :
  literal run -> exists c r, run = String c r /\ Py.is_decimal c = true.
Proof.
  intros [(Hne & Hall & _) | (ip & fp & -> & Hne & Hall & _)].
  - destruct run as [|c r]; [congruence|]. exists c, r.
    unfold Py.all_decimal in Hall. simpl in Hall.
    apply andb_prop in Hall as [Hc _]. auto.
  - destruct ip as [|c r]; [congruence|]. exists c, (r ++ String "." fp)%string.
    unfold Py.all_decimal in Hall. simpl in Hall.
    apply andb_prop in Hall as [Hc _]. auto.
Qed.

Lemma literal_digit_or_dot (run : string) :
  literal run -> all_chars Lexer.digit_or_dot run = true.
Proof.
  intros [(_ & Hall & _) | (ip & fp & -> & _ & Hip & Hfp)].
  - now apply PipelineFacts.decimal_digit_or_dot.
  - rewrite all_chars_append, (PipelineFacts.decimal_digit_or_dot ip Hip).
    simpl. now apply PipelineFacts.decimal_digit_or_dot.
Qed.

Lemma is_decimal_isdigit (c : ascii) :
  Py.is_decimal c = true -> Py.isdigit c = true.
Proof. intros H. unfold Py.isdigit. now rewrite H. Qed.

End LiteralRunFacts.


(** ** One token, in detail *)

Module DetailFacts.
Import Lexer LexerFacts.

(** A token that [next] returns: blanks are skipped, the token is built
    from the characters that follow them, at their offset, and the state
    returned stands after these characters. *)
Lemma next_detail (pre s : string) (token : Token) (l' : t) :
  next pre s = Ok (token, l') ->
  exists ws lexeme s',
    s = (ws ++ lexeme ++ s')%string /\
    all_chars Py.isspace ws = true /\
    lexeme_token (String.length (pre ++ ws)) lexeme token /\
    l' = state (pre ++ ws ++ lexeme) s' /\
    (lexeme = EmptyString -> s' = EmptyString) /\
    (forall d run c,
       lexeme = String d run -> Py.isdigit d = true ->
       head s' = Some c -> digit_or_dot c = false).
Proof.
  unfold next.
  pose proof (take_drop_while Py.isspace s) as Hs.
  pose proof (all_chars_take_while Py.isspace s) as Hws.
  set (ws := take_while Py.isspace s) in *.
  destruct (drop_while Py.isspace s) as [|c s2] eqn:E.
  - intros [= <- <-]. exists ws, EmptyString, EmptyString.
    rewrite !append_nil_r in *. repeat split; auto; [constructor|].
    discriminate.
  - destruct (Py.isdigit c) eqn:Ed.
    + pose proof (take_drop_while digit_or_dot (String c s2)) as Hn.
      pose proof (all_chars_take_while digit_or_dot (String c s2)) as Hall.
      revert Hn Hall. cbn [take_while drop_while].
      rewrite (isdigit_digit_or_dot c Ed). intros Hn Hall H.
      destruct (number_token (String c (take_while digit_or_dot s2))
                             (String.length (pre ++ ws))) as [tok| |] eqn:Et;
        cbn [bind] in H; try discriminate.
      injection H as <- <-.
      exists ws, (String c (take_while digit_or_dot s2)),
        (drop_while digit_or_dot s2).
      repeat split; auto.
      * now rewrite Hn.
      * cbn [all_chars] in Hall. apply andb_prop in Hall as [_ Hall].
        now constructor.
      * now rewrite append_assoc.
      * discriminate.
      * intros _ _ x _ _. apply head_drop_while.
    + destruct (operator c) as [k|] eqn:Eo; [|discriminate].
      intros [= <- <-]. exists ws, (String c EmptyString), s2.
      repeat split; auto.
      * now constructor.
      * now rewrite append_assoc.
      * discriminate.
      * intros d run x [= <- <-] Hd. congruence.
Qed.

(** An exception that [next] raises: an invalid character, reported with
    its offset, or a run of digits and decimal points that the conversion
    refuses. *)
Lemma next_raise (pre s : string) (e : exn) :
  next pre s = Raise e ->
  exists ws,
    all_chars Py.isspace ws = true /\
    ((exists c s',
        s = (ws ++ String c s')%string /\ Py.isspace c = false /\
        Py.isdigit c = false /\ operator c = None /\
        e = ValueError (InvalidCharacter c (String.length (pre ++ ws))))
     \/ (exists c lexeme s',
        s = (ws ++ String c lexeme ++ s')%string /\ Py.isdigit c = true /\
        all_chars digit_or_dot lexeme = true /\
        ((e = ValueError (InvalidIntLiteral (String c lexeme)) /\
          Py.contains "." (String c lexeme) = false /\
          Py.int (String c lexeme) = Py.Invalid) \/
         (exists digits,
          e = ValueError (ExceedsDigitLimit digits) /\
          Py.contains "." (String c lexeme) = false /\
          Py.int (String c lexeme) = Py.TooLong digits /\
          Py.int_max_str_digits < digits) \/
         (e = ValueError (InvalidFloatLiteral (String c lexeme)) /\
          Py.contains "." (String c lexeme) = true /\
          Py.float (String c lexeme) = None)))).
Proof.
  unfold next.
  pose proof (take_drop_while Py.isspace s) as Hs.
  pose proof (all_chars_take_while Py.isspace s) as Hws.
  set (ws := take_while Py.isspace s) in *.
  destruct (drop_while Py.isspace s) as [|c s2] eqn:E; [discriminate|].
  pose proof (head_drop_while Py.isspace s (c := c)) as Hsp.
  rewrite E in Hsp. specialize (Hsp eq_refl).
  destruct (Py.isdigit c) eqn:Ed.
  - pose proof (take_drop_while digit_or_dot (String c s2)) as Hn.
    pose proof (all_chars_take_while digit_or_dot (String c s2)) as Hall.
    revert Hn Hall. cbn [take_while drop_while].
    rewrite (isdigit_digit_or_dot c Ed). intros Hn Hall H.
    exists ws. split; [exact Hws|]. right.
    exists c, (take_while digit_or_dot s2), (drop_while digit_or_dot s2).
    cbn [all_chars] in Hall. apply andb_prop in Hall as [_ Hall].
    repeat split; auto.
    + change (String c (take_while digit_or_dot s2)
                ++ drop_while digit_or_dot s2)%string
        with (String c (take_while digit_or_dot s2
                        ++ drop_while digit_or_dot s2)).
      cbn [append] in Hn. now rewrite Hn.
    + unfold number_token in H.
      destruct (Py.contains "." (String c (take_while digit_or_dot s2))).
      * destruct (Py.float _) eqn:Ef; cbn [bind] in H; [discriminate|].
        injection H as <-. now right; right.
      * destruct (Py.int _) as [z| |digits] eqn:Ei; cbn [bind] in H;
          [discriminate| |]; injection H as <-.
        -- now left.
        -- right; left. exists digits. repeat split; auto.
           now apply int_too_long_inv in Ei.
  - destruct (operator c) as [k|] eqn:Eo; [discriminate|].
    intros [= <-]. exists ws. split; [exact Hws|]. left.
    exists c, s2. repeat split; auto.
Qed.

End DetailFacts.

(** ** The tokens and the text *)

Module TextFacts.
Import LexerFacts DetailFacts.

Lemma digit_value_nonneg (c : ascii) :
  Py.is_decimal c = true -> (0 <= Py.digit_value c)%Z.
Proof.
  unfold Py.is_decimal, Py.digit_value. cbv zeta. intros H.
  apply andb_prop in H as [H _]. apply Nat.leb_le in H. lia.
Qed.

Lemma decimal_value_nonneg (s : string) :
  forall acc, Py.all_decimal s = true -> (0 <= acc)%Z ->
  (0 <= Py.decimal_value acc s)%Z.
Proof.
  unfold Py.all_decimal.
  induction s as [|c s IH]; intros acc Hall Hacc;
    cbn [all_chars Py.decimal_value] in *; [exact Hacc|].
  apply andb_prop in Hall as [Hc Hs]. apply IH; [exact Hs|].
  pose proof (digit_value_nonneg c Hc). lia.
Qed.

(** What the conversion of [read_number] returns: a [NUMBER] token at the
    offset given, holding a natural number or a decimal. *)
Lemma number_token_value (s : string) (pos : nat) (token : Token) :
  Lexer.number_token s pos = Ok token ->
  type token = NUMBER /\ position token = pos /\
  ((exists z, value token = PyInt z /\ (0 <= z)%Z) \/
   (exists f, value token = PyFloat f)).
Proof.
  unfold Lexer.number_token. destruct (Py.contains "." s).
  - destruct (Py.float s) as [f|]; [|discriminate].
    intros [= <-]. simpl. split; [reflexivity|]. split; [reflexivity|].
    right. now exists f.
  - destruct (Py.int s) as [z| |digits] eqn:Ei; try discriminate.
    apply int_converted_inv in Ei as (_ & Hall & _ & ->).
    intros [= <-]. cbn [type position value].
    split; [reflexivity|]. split; [reflexivity|].
    left. exists (Py.decimal_value 0 s). split; [reflexivity|].
    apply (decimal_value_nonneg s); [exact Hall | lia].
Qed.

Lemma lexeme_token_position (pos : nat) (lexeme : string) (token : Token) :
  lexeme_token pos lexeme token -> position token = pos.
Proof.
  intros [|c k Hk|c lex tok Hc Hlex Htok]; try reflexivity.
  now apply number_token_value in Htok.
Qed.

Lemma lexeme_token_eof (pos : nat) (lexeme : string) (token : Token) :
  lexeme_token pos lexeme token ->
  TokenType_eqb (type token) EOF = true <-> lexeme = EmptyString.
Proof.
  intros [|c k Hk|c lex tok Hc Hlex Htok]; simpl.
  - tauto.
  - rewrite (operator_not_EOF c Hk). split; discriminate.
  - apply number_token_value in Htok as (-> & _). split; discriminate.
Qed.

Lemma lexeme_token_at (pre ws lexeme s' : string) (token : Token) :
  lexeme_token (String.length (pre ++ ws)) lexeme token ->
  (lexeme = EmptyString -> s' = EmptyString) ->
  (forall d run c,
     lexeme = String d run -> Py.isdigit d = true ->
     head s' = Some c -> Lexer.digit_or_dot c = false) ->
  token_at (pre ++ ws ++ lexeme ++ s') token.
Proof.
  intros H Hend Hmax. unfold token_at.
  exists (pre ++ ws)%string, lexeme, s'.
  split; [now rewrite append_assoc|].
  split; [now apply lexeme_token_position in H|].
  destruct H as [|c k Hk|c lex tok Hc Hlex Htok]; simpl.
  - auto.
  - assert (Hk' : k <> NUMBER /\ k <> EOF).
    { unfold Lexer.operator in Hk.
      repeat match type of Hk with
             | context [Ascii.eqb c ?x] => destruct (Ascii.eqb c x)
             end; try discriminate; injection Hk as <-;
        split; discriminate. }
    destruct Hk' as [Hn He].
    destruct k; try contradiction; exists c; auto.
  - pose proof (@LiteralRunFacts.number_token_literal _ _ _ _ Htok Hc)
      as Hlit.
    apply LiteralRunFacts.literal_starts_decimal in Hlit
      as (c' & r & [= <- <-] & Hdec).
    pose proof Htok as Hv.
    apply number_token_value in Hv as (-> & -> & _).
    split; [now exists c, lex|].
    split; [cbn [all_chars]; now rewrite (isdigit_digit_or_dot c Hc)|].
    split; [intros x; now apply (Hmax c lex)|].
    exact Htok.
Qed.

Lemma increasing_app (lo : nat) (ps : list nat) (p : nat) :
  increasing lo ps -> (forall q, In q ps -> q < p) -> lo <= p ->
  increasing lo (ps ++ [p]).
Proof.
  revert lo. induction ps as [|q ps IH]; intros lo H Hlt Hlo; simpl in *.
  - auto.
  - destruct H as [H1 H2]. split; [exact H1|].
    apply IH; auto. specialize (Hlt q (or_introl eq_refl)). lia.
Qed.

Lemma increasing_weaken (lo lo' : nat) (ps : list nat) :
  lo' <= lo -> increasing lo ps -> increasing lo' ps.
Proof. destruct ps as [|p ps]; simpl; [auto | intros H [H1 H2]; split; [lia | auto]]. Qed.

Lemma increasing_sorted (lo : nat) (ps : list nat) :
  increasing lo ps ->
  Sorted.StronglySorted lt ps /\ Forall (fun p => lo <= p) ps.
Proof.
  revert lo. induction ps as [|p ps IH]; intros lo H; simpl in *.
  - split; constructor.
  - destruct H as [H1 H2]. destruct (IH (S p) H2) as [Hs Hf]. split.
    + constructor; [exact Hs|].
      eapply Forall_impl; [|exact Hf]. simpl. intros q Hq. lia.
    + constructor; [exact H1|].
      eapply Forall_impl; [|exact Hf]. simpl. intros q Hq. lia.
Qed.

(** The loop of [tokenize]: the tokens added stand in the text, at
    positions that go up strictly from the offset of the cursor, and the
    loop ends with the cursor at the end of the text. *)
Lemma tokenize_loop_text (n : nat) :
  forall s acc pre tokens l',
  Lexer.tokenize_loop n acc (Lexer.state pre s) = Ok (tokens, l') ->
  exists new,
    tokens = acc ++ new /\
    Forall (token_at (pre ++ s)) new /\
    increasing (String.length pre) (map position new) /\
    l' = Lexer.state (pre ++ s) EmptyString.
Proof.
  induction n as [|n IH]; intros s acc pre tokens l' H; [discriminate|].
  cbn [Lexer.tokenize_loop] in H. rewrite get_next_token_state in H.
  destruct (Lexer.next pre s) as [[token l1]| |] eqn:En; cbn [bind] in H;
    try discriminate.
  apply next_detail in En
    as (ws & lexeme & s' & -> & Hws & Hlex & -> & Hend & Hmax).
  pose proof (lexeme_token_position Hlex) as Hpos.
  pose proof (lexeme_token_at _ _ Hlex Hend Hmax) as Hat.
  destruct (TokenType_eqb (type token) EOF) eqn:Ek.
  - injection H as <- <-.
    apply (lexeme_token_eof Hlex) in Ek. subst lexeme.
    rewrite (Hend eq_refl) in *. exists [token].
    split; [reflexivity|]. split; [constructor; [exact Hat | constructor]|].
    split; [|now rewrite !append_nil_r].
    simpl. rewrite Hpos, length_append. lia.
  - apply IH in H as (new & -> & Hnew & Hinc & ->).
    assert (Htext : ((pre ++ ws ++ lexeme) ++ s')%string =
                    (pre ++ ws ++ lexeme ++ s')%string)
      by now rewrite !append_assoc.
    rewrite Htext in *.
    exists (token :: new). rewrite <- app_assoc.
    split; [reflexivity|]. split; [constructor; [exact Hat | exact Hnew]|].
    split; [|reflexivity].
    simpl. rewrite Hpos. split; [rewrite length_append; lia|].
    + eapply increasing_weaken; [|exact Hinc].
      rewrite !length_append.
      destruct lexeme as [|c lexeme]; [|simpl; lia].
      assert (E : TokenType_eqb (type token) EOF = true)
        by now apply (lexeme_token_eof Hlex).
      congruence.
Qed.

End TextFacts.

(** ** The exceptions of the lexer *)

Module LexicalErrorFacts.
Import LexerFacts DetailFacts.

Lemma next_lexical_error (pre s : string) (e : exn) :
  Lexer.next pre s = Raise e ->
  exists ws after,
    s = (ws ++ after)%string /\ lexical_error (pre ++ ws) after e.
Proof.
  intros H. apply next_raise in H as (ws & Hws & [H | H]).
  - destruct H as (c & s' & -> & Hsp & Hd & Hop & ->).
    exists ws, (String c s'). split; [reflexivity|]. left.
    exists c, s'. auto.
  - destruct H as (c & lexeme & s' & -> & Hd & Hall & He).
    exists ws, (String c lexeme ++ s')%string. split; [reflexivity|]. right.
    exists c, lexeme, s'. auto.
Qed.

(** An exception of the loop of [tokenize] is raised at a place of the
    text to come. *)
Lemma tokenize_loop_raise (n : nat) :
  forall s acc pre e,
  Lexer.tokenize_loop n acc (Lexer.state pre s) = Raise e ->
  exists before after,
    (pre ++ s)%string = (before ++ after)%string /\
    String.length pre <= String.length before /\
    lexical_error before after e.
Proof.
  induction n as [|n IH]; intros s acc pre e H; [discriminate|].
  cbn [Lexer.tokenize_loop] in H. rewrite get_next_token_state in H.
  destruct (Lexer.next pre s) as [[token l1]| e1 |] eqn:En; cbn [bind] in H;
    try discriminate.
  - apply next_detail in En as (ws & lexeme & s' & -> & _ & _ & -> & _ & _).
    destruct (TokenType_eqb (type token) EOF); [discriminate|].
    apply IH in H as (before & after & Htext & Hlen & Herr).
    exists before, after. split; [|split; [|exact Herr]].
    + rewrite <- Htext. now rewrite !append_assoc.
    + rewrite !length_append in Hlen. lia.
  - injection H as <-.
    apply next_lexical_error in En as (ws & after & -> & Herr).
    exists (pre ++ ws)%string, after. split; [|split; [|exact Herr]].
    + now rewrite append_assoc.
    + rewrite length_append. lia.
Qed.

Lemma take_while_stop (f : ascii -> bool) (a b : string) :
  (forall c, head b = Some c -> f c = false) ->
  take_while f (a ++ b) = take_while f a /\
  drop_while f (a ++ b) = (drop_while f a ++ b)%string.
Proof.
  intros Hb. induction a as [|d a IH]; simpl.
  - destruct b as [|c b]; simpl; [auto|]. now rewrite (Hb c eq_refl).
  - destruct (f d); [|auto]. destruct IH as [-> ->]. auto.
Qed.

(** Before an invalid character [c]: what [next] returns on the text
    [good] before it, it returns with [c] and what follows to come, unless
    [good] holds blanks only: then it raises for [c]. *)
Lemma next_before_invalid (pre good : string) (c : ascii) (rest : string)
  (token : Token) (l' : Lexer.t) :
  Py.isspace c = false -> Lexer.digit_or_dot c = false ->
  Lexer.operator c = None ->
  Lexer.next pre good = Ok (token, l') ->
  (TokenType_eqb (type token) EOF = true /\
   Lexer.next pre (good ++ String c rest) =
   Raise (ValueError (InvalidCharacter c (String.length (pre ++ good)))))
  \/ (exists used good',
      good = (used ++ good')%string /\ used <> EmptyString /\
      TokenType_eqb (type token) EOF = false /\
      l' = Lexer.state (pre ++ used) good' /\
      Lexer.next pre (good ++ String c rest) =
      Ok (token, Lexer.state (pre ++ used) (good' ++ String c rest))).
Proof.
  intros Hsp Hdd Hop.
  assert (Hd : Py.isdigit c = false).
  { unfold Lexer.digit_or_dot in Hdd. now apply orb_false_elim in Hdd. }
  unfold Lexer.next.
  destruct (take_while_stop Py.isspace good (String c rest)) as [-> ->].
  { intros d [= <-]. exact Hsp. }
  pose proof (take_drop_while Py.isspace good) as Hgood.
  set (ws := take_while Py.isspace good) in *.
  destruct (drop_while Py.isspace good) as [|d g2] eqn:E.
  - intros [= <- <-]. left. split; [reflexivity|].
    cbn [append]. rewrite Hd, Hop.
    rewrite append_nil_r in Hgood. now rewrite Hgood.
  - cbn [append]. destruct (Py.isdigit d) eqn:Edd.
    + change (String d (g2 ++ String c rest))
        with (String d g2 ++ String c rest)%string.
      destruct (take_while_stop Lexer.digit_or_dot (String d g2)
                  (String c rest)) as [-> ->].
      { intros x [= <-]. exact Hdd. }
      pose proof (take_drop_while Lexer.digit_or_dot (String d g2)) as Hn.
      set (num := take_while Lexer.digit_or_dot (String d g2)) in *.
      assert (Hne : num <> EmptyString).
      { subst num. simpl. now rewrite (isdigit_digit_or_dot d Edd). }
      destruct (number_token_cases num (String.length (pre ++ ws)))
        as [[v ->] | [m ->]]; cbn [bind]; [|discriminate].
      intros [= <- <-]. right.
      exists (ws ++ num)%string, (drop_while Lexer.digit_or_dot (String d g2)).
      split; [now rewrite append_assoc, Hn|].
      split; [destruct ws; [exact Hne | discriminate]|].
      split; [reflexivity|].
      split; now rewrite !append_assoc.
    + destruct (Lexer.operator d) as [k|] eqn:Ek; [|discriminate].
      intros [= <- <-]. right.
      exists (ws ++ String d EmptyString)%string, g2.
      split; [now rewrite append_snoc|].
      split; [destruct ws; discriminate|].
      split; [exact (operator_not_EOF d Ek)|].
      split; now rewrite !append_assoc.
Qed.

(** [tokenize] stops at the first invalid character: after a text that
    it takes, it raises for this character. *)
Lemma tokenize_loop_first_invalid (n : nat) :
  forall good acc pre c rest tokens l',
  Lexer.tokenize_loop n acc (Lexer.state pre good) = Ok (tokens, l') ->
  Py.isspace c = false -> Lexer.digit_or_dot c = false ->
  Lexer.operator c = None ->
  forall m, n <= m ->
  Lexer.tokenize_loop m acc (Lexer.state pre (good ++ String c rest)) =
  Raise (ValueError (InvalidCharacter c (String.length (pre ++ good)))).
Proof.
  induction n as [|n IH];
    intros good acc pre c rest tokens l' H Hsp Hdd Hop m Hm;
    [discriminate|].
  destruct m as [|m]; [lia|].
  cbn [Lexer.tokenize_loop] in *. rewrite get_next_token_state in *.
  destruct (Lexer.next pre good) as [[token l1]| |] eqn:En; cbn [bind] in H;
    try discriminate.
  destruct (@next_before_invalid pre good c rest token l1 Hsp Hdd Hop En)
    as [[Hk ->] | (used & good' & -> & Hne & Hk & -> & ->)];
    [reflexivity|].
  cbn [bind]. rewrite Hk in *.
  rewrite (IH good' _ _ c rest tokens l' H Hsp Hdd Hop m ltac:(lia)).
  now rewrite append_assoc.
Qed.

End LexicalErrorFacts.

(** ** Blanks and offsets *)

Module BlankFacts.
Import LexerFacts DetailFacts LexicalErrorFacts.

Lemma same_token_refl (a : Token) : same_token a a.
Proof. split; reflexivity. Qed.

Lemma isspace_not_digit_or_dot (c : ascii) :
  Py.isspace c = true -> Lexer.digit_or_dot c = false.
Proof. each_char c. Qed.

Lemma isspace_not_token (c : ascii) :
  Py.isspace c = true -> Py.isdigit c = false /\ Lexer.operator c = None.
Proof. each_char c. Qed.

Lemma head_blank (f : ascii -> bool) (ws : string) :
  all_chars Py.isspace ws = true ->
  (forall c, Py.isspace c = true -> f c = false) ->
  forall c, head ws = Some c -> f c = false.
Proof.
  intros Hws Hf c Hc. destruct ws as [|d ws]; [discriminate|].
  injection Hc as ->. simpl in Hws. apply andb_prop in Hws as [Hd _]. auto.
Qed.

(** Blanks before the text to come are part of the text read. *)
Lemma next_leading_blanks (pre ws s : string) :
  all_chars Py.isspace ws = true ->
  Lexer.next pre (ws ++ s) = Lexer.next (pre ++ ws) s.
Proof.
  intros Hws. unfold Lexer.next.
  assert (H : take_while Py.isspace (ws ++ s) =
              (ws ++ take_while Py.isspace s)%string /\
              drop_while Py.isspace (ws ++ s) = drop_while Py.isspace s).
  { induction ws as [|c ws IH]; simpl in *; [auto|].
    apply andb_prop in Hws as [Hc Hws]. rewrite Hc.
    destruct (IH Hws) as [-> ->]. auto. }
  destruct H as [-> ->]. now rewrite !append_assoc.
Qed.

Lemma drop_while_then (f : ascii -> bool) (s b : string) (c : ascii)
  (s2 : string) :
  drop_while f s = String c s2 ->
  take_while f (s ++ b) = take_while f s /\
  drop_while f (s ++ b) = (String c s2 ++ b)%string.
Proof.
  induction s as [|d s IH]; simpl; [discriminate|].
  destruct (f d) eqn:E.
  - intros H. destruct (IH H) as [-> ->]. auto.
  - intros [= <- <-]. auto.
Qed.

(** The conversion of [read_number] does not depend on the offset. *)
Lemma number_token_shift (lexeme : string) (pos1 pos2 : nat) :
  (exists v,
     Lexer.number_token lexeme pos1 = Ok (mkToken NUMBER v pos1) /\
     Lexer.number_token lexeme pos2 = Ok (mkToken NUMBER v pos2))
  \/ (exists m,
     Lexer.number_token lexeme pos1 = Raise (ValueError m) /\
     Lexer.number_token lexeme pos2 = Raise (ValueError m) /\
     same_message m m).
Proof.
  unfold Lexer.number_token. destruct (Py.contains "." lexeme).
  - destruct (Py.float lexeme); [left | right]; eauto using same_message.
  - destruct (Py.int lexeme); [left | right | right];
      eauto using same_message.
Qed.

(** One token from the same text to come, with other text read and with
    blanks added at the end: the same token up to its offset, and the same
    text left, with the blanks. *)
Lemma next_shift (pre1 pre2 s ws : string) :
  all_chars Py.isspace ws = true ->
  (exists t1 t2,
     same_token t1 t2 /\ type t1 = EOF /\
     Lexer.next pre1 s = Ok (t1, Lexer.state (pre1 ++ s) EmptyString) /\
     Lexer.next pre2 (s ++ ws) =
     Ok (t2, Lexer.state (pre2 ++ s ++ ws) EmptyString))
  \/ (exists t1 t2 used s',
     same_token t1 t2 /\ TokenType_eqb (type t1) EOF = false /\
     s = (used ++ s')%string /\ used <> EmptyString /\
     Lexer.next pre1 s = Ok (t1, Lexer.state (pre1 ++ used) s') /\
     Lexer.next pre2 (s ++ ws) =
     Ok (t2, Lexer.state (pre2 ++ used) (s' ++ ws)))
  \/ (exists m1 m2,
     same_message m1 m2 /\
     Lexer.next pre1 s = Raise (ValueError m1) /\
     Lexer.next pre2 (s ++ ws) = Raise (ValueError m2)).
Proof.
  intros Hws. unfold Lexer.next.
  pose proof (take_drop_while Py.isspace s) as Hs.
  pose proof (all_chars_take_while Py.isspace s) as Hb.
  destruct (drop_while Py.isspace s) as [|c s2] eqn:E.
  - left. rewrite append_nil_r in Hs.
    assert (Hall : all_chars Py.isspace (s ++ ws) = true).
    { rewrite all_chars_append, <- Hs, Hb, Hws. reflexivity. }
    destruct (take_while_all Py.isspace (s ++ ws) Hall) as [-> ->].
    rewrite Hs.
    exists (mkToken EOF PyNone (String.length (pre1 ++ s))),
      (mkToken EOF PyNone (String.length (pre2 ++ s ++ ws))).
    repeat split.
  - destruct (drop_while_then Py.isspace s ws E) as [-> ->].
    set (b := take_while Py.isspace s) in *.
    cbn [append].
    assert (Hused : forall used s',
               String c s2 = (used ++ s')%string ->
               s = ((b ++ used) ++ s')%string).
    { intros used s' H. rewrite append_assoc, <- H. now symmetry. }
    destruct (Py.isdigit c) eqn:Ed.
    + change (String c (s2 ++ ws)) with (String c s2 ++ ws)%string.
      destruct (take_while_stop Lexer.digit_or_dot (String c s2) ws)
        as [-> ->].
      { apply head_blank; [exact Hws | exact isspace_not_digit_or_dot]. }
      pose proof (take_drop_while Lexer.digit_or_dot (String c s2)) as Hn.
      set (num := take_while Lexer.digit_or_dot (String c s2)) in *.
      assert (Hne : num <> EmptyString).
      { subst num. simpl. now rewrite (isdigit_digit_or_dot c Ed). }
      destruct (number_token_shift num (String.length (pre1 ++ b))
                  (String.length (pre2 ++ b)))
        as [(v & -> & ->) | (m & -> & -> & Hm)]; cbn [bind].
      * right. left.
        exists (mkToken NUMBER v (String.length (pre1 ++ b))),
          (mkToken NUMBER v (String.length (pre2 ++ b))),
          (b ++ num)%string, (drop_while Lexer.digit_or_dot (String c s2)).
        split; [split; reflexivity|]. split; [reflexivity|].
        split; [apply Hused; now symmetry|].
        split; [destruct b; [exact Hne | discriminate]|].
        now rewrite !append_assoc.
      * right. right. eauto.
    + destruct (Lexer.operator c) as [k|] eqn:Eo.
      * right. left.
        exists (mkToken k (PyStr (String c EmptyString))
                        (String.length (pre1 ++ b))),
          (mkToken k (PyStr (String c EmptyString))
                   (String.length (pre2 ++ b))),
          (b ++ String c EmptyString)%string, s2.
        split; [split; reflexivity|].
        split; [exact (operator_not_EOF c Eo)|].
        split; [apply Hused; reflexivity|].
        split; [destruct b; discriminate|].
        now rewrite !append_assoc.
      * right. right. eauto using same_message.
Qed.

Lemma Forall2_snoc {A : Type} (R : A -> A -> Prop) (l1 l2 : list A)
  (a b : A) :
  Forall2 R l1 l2 -> R a b -> Forall2 R (l1 ++ [a]) (l2 ++ [b]).
Proof. intros H Hab. apply Forall2_app; [exact H | now constructor]. Qed.

(** [tokenize] on the same text to come, with other text read, other fuel
    and blanks added at the end: the same tokens up to their offsets, or
    the same exception up to its offset. *)
Lemma tokenize_loop_shift (n : nat) :
  forall m s ws acc1 acc2 pre1 pre2,
  all_chars Py.isspace ws = true ->
  Forall2 same_token acc1 acc2 ->
  String.length s < n -> String.length s < m ->
  same_tokens (Lexer.tokenize_loop n acc1 (Lexer.state pre1 s))
              (Lexer.tokenize_loop m acc2 (Lexer.state pre2 (s ++ ws))).
Proof.
  induction n as [|n IH]; intros m s ws acc1 acc2 pre1 pre2 Hws Hacc Hn Hm;
    [lia|].
  destruct m as [|m]; [lia|].
  cbn [Lexer.tokenize_loop]. rewrite !get_next_token_state.
  destruct (@next_shift pre1 pre2 s ws Hws)
    as [(t1 & t2 & Ht & Hk & -> & ->)
       |[(t1 & t2 & used & s' & Ht & Hk & -> & Hne & -> & ->)
        |(m1 & m2 & Hm12 & -> & ->)]]; cbn [bind].
  - assert (Hk2 : type t2 = EOF) by (destruct Ht as [<- _]; exact Hk).
    rewrite Hk, Hk2. simpl. now apply Forall2_snoc.
  - assert (Hk2 : TokenType_eqb (type t2) EOF = false)
      by (destruct Ht as [<- _]; exact Hk).
    rewrite Hk, Hk2. apply IH; auto.
    + now apply Forall2_snoc.
    + rewrite length_append in Hn.
      destruct used; [congruence | simpl in Hn; lia].
    + rewrite length_append in Hm.
      destruct used; [congruence | simpl in Hm; lia].
  - simpl. now constructor.
Qed.

End BlankFacts.

(** ** The parser does not read offsets *)

Module OffsetFacts.
Import ParserFacts.

Lemma same_state_intro (pre1 rest1 pre2 rest2 : list Token) :
  Forall2 same_token pre1 pre2 -> Forall2 same_token rest1 rest2 ->
  same_state (parser_state pre1 rest1) (parser_state pre2 rest2).
Proof. intros H1 H2. now exists pre1, rest1, pre2, rest2. Qed.

Lemma same_state_advance (pre1 rest1 pre2 rest2 : list Token)
  (t1 t2 : Token) :
  Forall2 same_token pre1 pre2 -> same_token t1 t2 ->
  Forall2 same_token rest1 rest2 ->
  same_state (Parser.advance (parser_state pre1 (t1 :: rest1)))
             (Parser.advance (parser_state pre2 (t2 :: rest2))).
Proof.
  intros Hpre Ht Hrest. rewrite !tokens_advance_state.
  apply same_state_intro; [|exact Hrest].
  apply Forall2_app; [exact Hpre | now constructor].
Qed.

Lemma same_parse_bind (r1 r2 : result (Expr * Parser.t))
  (k1 k2 : Expr * Parser.t -> result (Expr * Parser.t)) :
  same_parse r1 r2 ->
  (forall e p1 p2, same_state p1 p2 -> same_parse (k1 (e, p1)) (k2 (e, p2))) ->
  same_parse (bind r1 k1) (bind r2 k2).
Proof.
  intros Hr Hk.
  destruct r1 as [[e1 p1]| e1 |], r2 as [[e2 p2]| e2 |]; simpl in *;
    try contradiction; auto.
  destruct Hr as [<- Hs]. now apply Hk.
Qed.

Lemma same_expect (p1 p2 : Parser.t) (k : TokenType) (e : Expr) :
  same_state p1 p2 ->
  same_parse (bind (Parser.expect p1 k) (fun '(_, p3) => Ok (e, p3)))
             (bind (Parser.expect p2 k) (fun '(_, p3) => Ok (e, p3))).
Proof.
  intros (pre1 & rest1 & pre2 & rest2 & -> & -> & Hpre & Hrest).
  unfold Parser.expect.
  destruct Hrest as [|t1 t2 rest1 rest2 Ht Hrest]; simpl.
  - do 2 constructor.
  - destruct Ht as [Hty Hv]. rewrite <- Hty.
    destruct (TokenType_eqb (type t1) k); simpl.
    + split; [reflexivity|]. apply same_state_advance; auto. now split.
    + do 2 constructor.
Qed.

Lemma parse_same (n : nat) :
  forall p1 p2, same_state p1 p2 ->
  same_parse (Parser.parse_factor n p1) (Parser.parse_factor n p2) /\
  same_parse (Parser.parse_term n p1) (Parser.parse_term n p2) /\
  (forall left, same_parse (Parser.parse_term_loop n left p1)
                           (Parser.parse_term_loop n left p2)) /\
  same_parse (Parser.parse_expression n p1) (Parser.parse_expression n p2) /\
  (forall left, same_parse (Parser.parse_expression_loop n left p1)
                           (Parser.parse_expression_loop n left p2)).
Proof.
  induction n as [|n IH]; intros p1 p2 Hs.
  { repeat split; intros; exact I. }
  pose proof Hs as (pre1 & rest1 & pre2 & rest2 & -> & -> & Hpre & Hrest).
  repeat split.
  - (* parse_factor *)
    rewrite !parse_factor_S.
    destruct Hrest as [|t1 t2 rest1 rest2 Ht Hrest]; simpl.
    + constructor.
    + pose proof Ht as [Hty Hv]. rewrite <- Hty, <- Hv.
      destruct (type t1) eqn:Ek;
        try (simpl; do 2 constructor; exact Ht).
      * split; [reflexivity|]. now apply same_state_advance.
      * apply same_parse_bind.
        -- apply IH. now apply same_state_advance.
        -- intros e q1 q2 Hq. now apply same_expect.
  - (* parse_term *)
    rewrite !parse_term_S. apply same_parse_bind.
    + now apply IH.
    + intros e q1 q2 Hq. now apply IH.
  - (* parse_term_loop *)
    intros left. rewrite !parse_term_loop_S.
    destruct Hrest as [|t1 t2 rest1 rest2 Ht Hrest]; simpl.
    + split; [reflexivity | exact Hs].
    + pose proof Ht as [Hty Hv]. rewrite <- Hty.
      destruct (Parser.is_multiplicative (type t1)).
      * apply same_parse_bind.
        -- apply IH. now apply same_state_advance.
        -- intros e q1 q2 Hq.
           replace (Parser.fold_multiplicative t2 left e)
             with (Parser.fold_multiplicative t1 left e)
             by (unfold Parser.fold_multiplicative; now rewrite Hty).
           now apply IH.
      * split; [reflexivity | exact Hs].
  - (* parse_expression *)
    rewrite !parse_expression_S. apply same_parse_bind.
    + now apply IH.
    + intros e q1 q2 Hq. now apply IH.
  - (* parse_expression_loop *)
    intros left. rewrite !parse_expression_loop_S.
    destruct Hrest as [|t1 t2 rest1 rest2 Ht Hrest]; simpl.
    + split; [reflexivity | exact Hs].
    + pose proof Ht as [Hty Hv]. rewrite <- Hty.
      destruct (Parser.is_additive (type t1)).
      * apply same_parse_bind.
        -- apply IH. now apply same_state_advance.
        -- intros e q1 q2 Hq.
           replace (Parser.fold_additive t2 left e)
             with (Parser.fold_additive t1 left e)
             by (unfold Parser.fold_additive; now rewrite Hty).
           now apply IH.
      * split; [reflexivity | exact Hs].
Qed.

(** [parse] on two token lists that are the same up to offsets. *)
Lemma parse_same_tokens (tokens1 tokens2 : list Token) :
  Forall2 same_token tokens1 tokens2 ->
  same_parse (Parser.parse (Parser.init tokens1))
             (Parser.parse (Parser.init tokens2)).
Proof.
  intros H. unfold Parser.parse.
  rewrite (tokens_init_state tokens1), (tokens_init_state tokens2).
  assert (Hfuel : Parser.fuel (parser_state [] tokens1) =
                  Parser.fuel (parser_state [] tokens2)).
  { unfold Parser.fuel. simpl. now rewrite (Forall2_length H). }
  rewrite Hfuel.
  assert (Hs : same_state (parser_state [] tokens1) (parser_state [] tokens2))
    by (apply same_state_intro; [constructor | exact H]).
  destruct (parse_same (Parser.fuel (parser_state [] tokens2)) Hs)
    as (_ & _ & _ & He & _).
  destruct (Parser.parse_expression _ (parser_state [] tokens1))
    as [[e1 p1]| e1 |],
    (Parser.parse_expression _ (parser_state [] tokens2))
    as [[e2 p2]| e2 |]; simpl in *; try contradiction; auto.
  destruct He as [<- Hp].
  pose proof Hp as (pre1 & rest1 & pre2 & rest2 & -> & -> & Hpre & Hrest).
  destruct Hrest as [|t1 t2 rest1 rest2 Ht Hrest]; simpl.
  - split; [reflexivity | exact Hp].
  - pose proof Ht as [Hty Hv]. rewrite <- Hty.
    destruct (TokenType_eqb (type t1) EOF); simpl.
    + split; [reflexivity | exact Hp].
    + do 2 constructor. exact Ht.
Qed.

End OffsetFacts.

(** ** The parser on any token list *)

Module RunFacts.
Import ParserFacts.

Lemma has_eof_false_app (used rest : list Token) :
  no_eof used = true -> has_eof rest = false -> has_eof (used ++ rest) = false.
Proof. intros Hu Hr. now rewrite has_eof_app. Qed.

Lemma syntax_error_app (used rest : list Token) (e : exn) :
  no_eof used = true -> syntax_error rest e -> syntax_error (used ++ rest) e.
Proof.
  intros Hu [(t & Hin & ->) | [(t & Hin & Hk & ->) | [(Hn & ->) | (Hn & ->)]]].
  - left. exists t. split; [apply in_or_app; now right | reflexivity].
  - right; left. exists t.
    split; [apply in_or_app; now right | split; [exact Hk | reflexivity]].
  - right; right; left. split; [now apply has_eof_false_app | reflexivity].
  - right; right; right. split; [now apply has_eof_false_app | reflexivity].
Qed.

Lemma ran_step (pre rest : list Token) (b1 b2 : bool)
  (used rest' : list Token) (r : result (Expr * Parser.t)) :
  rest = used ++ rest' -> no_eof used = true ->
  (b2 = true -> b1 = false -> used <> []) ->
  ran (pre ++ used) rest' b1 r -> ran pre rest b2 r.
Proof.
  intros Hrest Hused Hne H.
  destruct H as [e used' rest'' Hr Hu Hs | e He].
  - rewrite <- app_assoc. constructor.
    + subst. now rewrite app_assoc.
    + rewrite no_eof_app. now rewrite Hused, Hu.
    + intros Hb E. apply app_eq_nil in E as [E1 E2].
      destruct b1; [now apply Hs | now apply Hne].
  - constructor. subst rest. now apply syntax_error_app.
Qed.

Lemma ran_bind (pre rest : list Token) (b1 b2 b3 : bool)
  (r : result (Expr * Parser.t))
  (k : Expr * Parser.t -> result (Expr * Parser.t)) :
  ran pre rest b1 r ->
  (forall e used rest',
     rest = used ++ rest' -> no_eof used = true ->
     (b1 = true -> used <> []) ->
     ran (pre ++ used) rest' b2 (k (e, parser_state (pre ++ used) rest'))) ->
  (b3 = true -> b1 = true \/ b2 = true) ->
  ran pre rest b3 (bind r k).
Proof.
  intros Hr Hk Hb.
  destruct Hr as [e used rest' Hrest Hused Hne | e He]; simpl;
    [|now constructor].
  apply ran_step with (b1 := b2) (used := used) (rest' := rest'); auto.
  intros H3 H2. destruct (Hb H3) as [H1 | H1]; [auto | congruence].
Qed.

Lemma ran_here (pre rest : list Token) (e : Expr) :
  ran pre rest false (Ok (e, parser_state pre rest)).
Proof.
  rewrite <- (app_nil_r pre) at 2.
  apply ran_ok; [reflexivity | reflexivity | discriminate].
Qed.

Lemma ran_one (pre : list Token) (token : Token) (rest : list Token)
  (b : bool) (e : Expr) :
  type token <> EOF ->
  ran pre (token :: rest) b (Ok (e, parser_state (pre ++ [token]) rest)).
Proof.
  intros H. apply ran_ok; [reflexivity | now apply no_eof_one | discriminate].
Qed.

Lemma expect_ran (pre rest : list Token) (e : Expr) :
  ran pre rest true
    (bind (Parser.expect (parser_state pre rest) RPAREN)
          (fun '(_, p3) => Ok (e, p3))).
Proof.
  unfold Parser.expect. destruct rest as [|token rest]; simpl.
  - constructor. right; right; left. split; reflexivity.
  - destruct (TokenType_eqb (type token) RPAREN) eqn:E; simpl.
    + rewrite tokens_advance_state. apply ran_one.
      apply TokenType_eqb_eq in E. congruence.
    + constructor. right; left. exists token.
      split; [now left|]. split; [now apply TokenType_eqb_neq | reflexivity].
Qed.

(** On any token list, with fuel enough for the tokens to come, the
    productions and the loops return a tree without having consumed [EOF],
    or raise a syntax error. *)
Lemma parse_runs (n : nat) :
  forall pre rest,
  (4 * List.length rest + 1 <= n ->
   ran pre rest true (Parser.parse_factor n (parser_state pre rest))) /\
  (4 * List.length rest + 2 <= n ->
   ran pre rest true (Parser.parse_term n (parser_state pre rest))) /\
  (forall left, 4 * List.length rest + 2 <= n ->
   ran pre rest false
       (Parser.parse_term_loop n left (parser_state pre rest))) /\
  (4 * List.length rest + 3 <= n ->
   ran pre rest true (Parser.parse_expression n (parser_state pre rest))) /\
  (forall left, 4 * List.length rest + 3 <= n ->
   ran pre rest false
       (Parser.parse_expression_loop n left (parser_state pre rest))).
Proof.
  induction n as [|n IH]; intros pre rest.
  { repeat split; intros; lia. }
  assert (Hlen : forall used rest' : list Token,
             rest = used ++ rest' -> used <> [] ->
             S (List.length rest') <= List.length rest).
  { intros used rest' E Hne. apply (f_equal (@List.length Token)) in E.
    rewrite length_app in E.
    destruct used; [congruence | simpl in E; lia]. }
  assert (Hlen0 : forall used rest0 rest' : list Token,
             rest0 = used ++ rest' -> List.length rest' <= List.length rest0).
  { intros used rest0 rest' E. apply (f_equal (@List.length Token)) in E.
    rewrite length_app in E. lia. }
  repeat split.
  - (* parse_factor *)
    intros Hn. rewrite parse_factor_S.
    destruct rest as [|token rest0]; simpl.
    { constructor. right; right; right. split; reflexivity. }
    destruct (type token) eqn:Ek;
      try (constructor; left; exists token; split; [now left | reflexivity]).
    + rewrite tokens_advance_state. apply ran_one. congruence.
    + rewrite tokens_advance_state.
      apply ran_step with (b1 := true) (used := [token]) (rest' := rest0);
        [reflexivity | apply no_eof_one; congruence | discriminate |].
      apply ran_bind with (b1 := true) (b2 := true); [| |auto].
      * apply (IH (pre ++ [token]) rest0). simpl in Hn. lia.
      * intros e used rest' Hrest Hused _. apply expect_ran.
  - (* parse_term *)
    intros Hn. rewrite parse_term_S.
    apply ran_bind with (b1 := true) (b2 := false); [| |auto].
    + apply (IH pre rest). lia.
    + intros e used rest' Hrest Hused Hne. apply IH.
      specialize (Hlen used rest' Hrest (Hne eq_refl)). lia.
  - (* parse_term_loop *)
    intros left Hn. rewrite parse_term_loop_S.
    destruct rest as [|token rest0]; simpl; [apply ran_here|].
    destruct (Parser.is_multiplicative (type token)) eqn:Ek;
      [|apply ran_here].
    rewrite tokens_advance_state.
    assert (Hk : type token <> EOF)
      by (intros E; rewrite E in Ek; discriminate).
    apply ran_step with (b1 := true) (used := [token]) (rest' := rest0);
      [reflexivity | now apply no_eof_one | discriminate |].
    apply ran_bind with (b1 := true) (b2 := false); [| |auto].
    + apply (IH (pre ++ [token]) rest0). simpl in Hn. lia.
    + intros e used rest' Hrest Hused _. apply IH.
      specialize (Hlen0 used rest0 rest' Hrest). simpl in Hn. lia.
  - (* parse_expression *)
    intros Hn. rewrite parse_expression_S.
    apply ran_bind with (b1 := true) (b2 := false); [| |auto].
    + apply (IH pre rest). lia.
    + intros e used rest' Hrest Hused Hne. apply IH.
      specialize (Hlen used rest' Hrest (Hne eq_refl)). lia.
  - (* parse_expression_loop *)
    intros left Hn. rewrite parse_expression_loop_S.
    destruct rest as [|token rest0]; simpl; [apply ran_here|].
    destruct (Parser.is_additive (type token)) eqn:Ek; [|apply ran_here].
    rewrite tokens_advance_state.
    assert (Hk : type token <> EOF)
      by (intros E; rewrite E in Ek; discriminate).
    apply ran_step with (b1 := true) (used := [token]) (rest' := rest0);
      [reflexivity | now apply no_eof_one | discriminate |].
    apply ran_bind with (b1 := true) (b2 := false); [| |auto].
    + apply (IH (pre ++ [token]) rest0). simpl in Hn. lia.
    + intros e used rest' Hrest Hused _. apply IH.
      specialize (Hlen0 used rest0 rest' Hrest). simpl in Hn. lia.
Qed.

(** [parse_expression] with the fuel of [parse], on any token list. *)
Lemma parse_expression_runs (tokens : list Token) :
  ran [] tokens true
      (Parser.parse_expression (Parser.fuel (parser_state [] tokens))
                               (parser_state [] tokens)).
Proof.
  apply (parse_runs (Parser.fuel (parser_state [] tokens)) [] tokens).
  unfold Parser.fuel. simpl. lia.
Qed.

(** What the productions return for any fuel large enough is what they
    return with the fuel of [parse]. *)
Lemma returns_at_fuel (tokens : list Token) (r : result (Expr * Parser.t)) :
  returns (fun n => Parser.parse_expression n (parser_state [] tokens)) r ->
  Parser.parse_expression (Parser.fuel (parser_state [] tokens))
                          (parser_state [] tokens) = r.
Proof.
  intros [n0 Hn0].
  set (n := Parser.fuel (parser_state [] tokens)).
  rewrite <- (Hn0 (Nat.max n n0)) by lia.
  symmetry. apply parse_expression_mono; [lia|].
  pose proof (parse_expression_runs tokens) as H. fold n in H.
  destruct H; discriminate.
Qed.

Lemma parse_not_out_of_fuel (tokens : list Token) :
  Parser.parse (Parser.init tokens) <> OutOfFuel.
Proof.
  unfold Parser.parse. rewrite tokens_init_state.
  destruct (parse_expression_runs tokens) as [e used rest' _ _ _ | e _];
    simpl; [|discriminate].
  destruct rest' as [|token rest']; simpl; [discriminate|].
  destruct (negb (TokenType_eqb (type token) EOF)); discriminate.
Qed.

End RunFacts.

(** ** Blanks around the text *)

Module StripFacts.
Import LexerFacts BlankFacts OffsetFacts.

Lemma tokenize_loop_leading (m : nat) (acc : list Token) (pre ws s : string) :
  all_chars Py.isspace ws = true ->
  Lexer.tokenize_loop (S m) acc (Lexer.state pre (ws ++ s)) =
  Lexer.tokenize_loop (S m) acc (Lexer.state (pre ++ ws) s).
Proof.
  intros Hws. cbn [Lexer.tokenize_loop].
  now rewrite !get_next_token_state, next_leading_blanks.
Qed.

(** Blanks before and after a text change its tokens by their offsets
    only. *)
Lemma tokenize_blanks (ws1 s ws2 : string) :
  all_chars Py.isspace ws1 = true -> all_chars Py.isspace ws2 = true ->
  same_tokens (Lexer.tokenize (Lexer.init s))
              (Lexer.tokenize (Lexer.init (ws1 ++ s ++ ws2))).
Proof.
  intros H1 H2. rewrite !TokenizeFacts.tokenize_init_fuel.
  replace (String.length (ws1 ++ s ++ ws2) + 2)
    with (S (String.length (ws1 ++ s ++ ws2) + 1)) by lia.
  rewrite tokenize_loop_leading by exact H1.
  apply tokenize_loop_shift; auto.
  - lia.
  - rewrite !length_append. lia.
Qed.

(** The same tokens up to offsets give the same tree, or the same
    exception up to offsets. *)
Lemma parse_string_same (s1 s2 : string) :
  same_tokens (Lexer.tokenize (Lexer.init s1))
              (Lexer.tokenize (Lexer.init s2)) ->
  same_result (parse_expression_from_string s1)
              (parse_expression_from_string s2).
Proof.
  unfold parse_expression_from_string, same_tokens.
  destruct (Lexer.tokenize (Lexer.init s1)) as [[tokens1 l1]| e1 |],
    (Lexer.tokenize (Lexer.init s2)) as [[tokens2 l2]| e2 |];
    simpl; try contradiction; auto.
  intros H. pose proof (parse_same_tokens H) as Hp.
  pose proof (RunFacts.parse_not_out_of_fuel tokens1) as Hf.
  destruct (Parser.parse (Parser.init tokens1)) as [[e1 p1]| e1 |],
    (Parser.parse (Parser.init tokens2)) as [[e2 p2]| e2 |];
    simpl in *; try contradiction; auto.
  now destruct Hp.
Qed.

Lemma rstrip_blanks (s : string) :
  exists ws, s = (rstrip s ++ ws)%string /\ all_chars Py.isspace ws = true.
Proof.
  induction s as [|c s (ws & Hs & Hws)]; simpl.
  - now exists EmptyString.
  - destruct (rstrip s) as [|d r] eqn:E.
    + destruct (Py.isspace c) eqn:Ec.
      * exists (String c s). split; [reflexivity|]. simpl in *.
        rewrite Ec. now rewrite Hs.
      * exists ws. simpl in *. split; [now rewrite <- Hs | exact Hws].
    + exists ws. split; [|exact Hws]. simpl. f_equal. exact Hs.
Qed.

Lemma strip_blanks (s : string) :
  exists ws1 ws2,
    s = (ws1 ++ strip s ++ ws2)%string /\
    all_chars Py.isspace ws1 = true /\ all_chars Py.isspace ws2 = true.
Proof.
  unfold strip.
  destruct (rstrip_blanks (drop_while Py.isspace s)) as (ws2 & H & H2).
  exists (take_while Py.isspace s), ws2. repeat split.
  - rewrite <- H. symmetry. apply take_drop_while.
  - apply all_chars_take_while.
  - exact H2.
Qed.

End StripFacts.

(** ** Where the parser gives up *)

Module ErrorFacts.
Import Parser ParserFacts GrammarFacts RunFacts.

Lemma returns_raise {A B : Type} (f : nat -> result A)
  (k : nat -> A -> result B) (x : exn) :
  returns f (Raise x) -> returns (fun n => bind (f n) (k n)) (Raise x).
Proof. intros [n0 H]. exists n0. intros n Hn. now rewrite H. Qed.

(** [parse], from what [parse_expression] returns with fuel enough. *)
Lemma parse_at (tokens : list Token) (r : result (Expr * t)) :
  returns (fun n => parse_expression n (parser_state [] tokens)) r ->
  parse (init tokens) =
  ('(expr, p1) <- r ;;
   match current_token p1 with
   | Some token =>
       if negb (TokenType_eqb (type token) EOF)
       then Raise (ValueError (UnexpectedToken token))
       else Ok (expr, p1)
   | None => Ok (expr, p1)
   end).
Proof.
  intros H. unfold parse. rewrite tokens_init_state.
  now rewrite (@returns_at_fuel tokens r H).
Qed.

Lemma factor_unexpected (pre : list Token) (token : Token)
  (rest : list Token) :
  type token <> NUMBER -> type token <> LPAREN ->
  returns (fun n => parse_factor n (parser_state pre (token :: rest)))
          (Raise (ValueError (UnexpectedToken token))).
Proof.
  intros H1 H2.
  apply returns_S
    with (g := fun _ => Raise (ValueError (UnexpectedToken token)));
    [|apply returns_const].
  intros n. rewrite parse_factor_S. simpl.
  destruct (type token); congruence.
Qed.

Lemma factor_nothing (pre : list Token) :
  returns (fun n => parse_factor n (parser_state pre []))
          (Raise AttributeError).
Proof.
  apply returns_S with (g := fun _ => Raise AttributeError);
    [|apply returns_const].
  intros n. now rewrite parse_factor_S.
Qed.

(** An exception of [parse_factor] goes through [parse_term] and
    [parse_expression]. *)
Lemma term_raises (p : t) (x : exn) :
  returns (fun n => parse_factor n p) (Raise x) ->
  returns (fun n => parse_term n p) (Raise x).
Proof.
  intros H.
  apply returns_S
    with (g := fun n => '(lhs, p1) <- parse_factor n p ;;
                        parse_term_loop n lhs p1);
    [intros n; apply parse_term_S|].
  now apply returns_raise
    with (k := fun n '(lhs, p1) => parse_term_loop n lhs p1).
Qed.

Lemma expression_raises (p : t) (x : exn) :
  returns (fun n => parse_term n p) (Raise x) ->
  returns (fun n => parse_expression n p) (Raise x).
Proof.
  intros H.
  apply returns_S
    with (g := fun n => '(lhs, p1) <- parse_term n p ;;
                        parse_expression_loop n lhs p1);
    [intros n; apply parse_expression_S|].
  now apply returns_raise
    with (k := fun n '(lhs, p1) => parse_expression_loop n lhs p1).
Qed.

Lemma term_loop_raises (pre : list Token) (op : Token) (rest : list Token)
  (left : Expr) (x : exn) :
  is_multiplicative (type op) = true ->
  returns (fun n => parse_factor n (parser_state (pre ++ [op]) rest))
          (Raise x) ->
  returns (fun n => parse_term_loop n left (parser_state pre (op :: rest)))
          (Raise x).
Proof.
  intros Hop H.
  apply returns_S
    with (g := fun n =>
                 '(rhs, p2) <- parse_factor n
                                 (parser_state (pre ++ [op]) rest) ;;
                 parse_term_loop n (fold_multiplicative op left rhs) p2).
  { intros n. rewrite parse_term_loop_S. simpl. rewrite Hop.
    now rewrite tokens_advance_state. }
  now apply returns_raise
    with (k := fun n '(rhs, p2) =>
                 parse_term_loop n (fold_multiplicative op left rhs) p2).
Qed.

Lemma expression_loop_raises (pre : list Token) (op : Token)
  (rest : list Token) (left : Expr) (x : exn) :
  is_additive (type op) = true ->
  returns (fun n => parse_term n (parser_state (pre ++ [op]) rest))
          (Raise x) ->
  returns (fun n => parse_expression_loop n left
                      (parser_state pre (op :: rest)))
          (Raise x).
Proof.
  intros Hop H.
  apply returns_S
    with (g := fun n =>
                 '(rhs, p2) <- parse_term n
                                 (parser_state (pre ++ [op]) rest) ;;
                 parse_expression_loop n (fold_additive op left rhs) p2).
  { intros n. rewrite parse_expression_loop_S. simpl. rewrite Hop.
    now rewrite tokens_advance_state. }
  now apply returns_raise
    with (k := fun n '(rhs, p2) =>
                 parse_expression_loop n (fold_additive op left rhs) p2).
Qed.

(** After a term and a multiplicative operator, an exception of
    [parse_factor] is the exception of [parse_term]. *)
Lemma term_then_raises (e : Expr) (tokens : list Token) (op : Token)
  (pre rest : list Token) (x : exn) :
  term_reads e tokens -> is_multiplicative (type op) = true ->
  returns (fun n => parse_factor n
                      (parser_state ((pre ++ tokens) ++ [op]) rest))
          (Raise x) ->
  returns (fun n => parse_term n (parser_state pre (tokens ++ op :: rest)))
          (Raise x).
Proof.
  intros Ht Hop H. apply Ht. now apply term_loop_raises.
Qed.

(** After a tree of the grammar and an operator, an exception of
    [parse_factor] is the exception of [parse_expression]. *)
Lemma operand_raises (e : Expr) (tokens : list Token) :
  spells e tokens -> well_nested e = true ->
  forall op pre rest x,
  is_additive (type op) = true \/ is_multiplicative (type op) = true ->
  returns (fun n => parse_factor n
                      (parser_state ((pre ++ tokens) ++ [op]) rest))
          (Raise x) ->
  returns (fun n => parse_expression n
                      (parser_state pre (tokens ++ op :: rest)))
          (Raise x).
Proof.
  intros Hs Hw op pre rest x [Hop | Hop] H.
  - destruct (parser_reads_grammar Hs Hw) as (_ & _ & He).
    apply He.
    + simpl. destruct (type op); simpl in *; congruence.
    + apply expression_loop_raises; [exact Hop|]. now apply term_raises.
  - assert (Hterm : forall e' tokens' pre',
               spells e' tokens' -> well_nested e' = true ->
               1 <= level e' ->
               returns (fun n => parse_factor n
                          (parser_state ((pre' ++ tokens') ++ [op]) rest))
                       (Raise x) ->
               returns (fun n => parse_term n
                          (parser_state pre' (tokens' ++ op :: rest)))
                       (Raise x)).
    { intros e' tokens' pre' Hs' Hw' Hl' H'.
      destruct (parser_reads_grammar Hs' Hw') as (_ & Ht & _).
      apply term_then_raises with (e := e'); auto. }
    assert (Hadd : forall l tl o r tr,
               spells l tl -> well_nested l = true ->
               spells r tr -> well_nested r = true -> 1 <= level r ->
               is_additive (type o) = true ->
               tokens = tl ++ o :: tr ->
               returns (fun n => parse_expression n
                          (parser_state pre (tokens ++ op :: rest)))
                       (Raise x)).
    { intros l tl o r tr Hl Hwl Hr Hwr Hlr Ho ->.
      destruct (parser_reads_grammar Hl Hwl) as (_ & _ & He).
      rewrite <- app_assoc. apply He.
      - simpl. destruct (type o); simpl in *; congruence.
      - apply expression_loop_raises; [exact Ho|].
        change ((o :: tr) ++ op :: rest) with (o :: tr ++ op :: rest).
        apply Hterm with (e' := r); auto.
        replace (((pre ++ tl) ++ [o]) ++ tr) with (pre ++ tl ++ o :: tr)
          by (rewrite <- !app_assoc; reflexivity).
        exact H. }
    destruct Hs as
      [token Hk
      | lp e tokens rp Hlp Hrp Hs
      | l tl o r tr Ho Hl Hr
      | l tl o r tr Ho Hl Hr
      | l tl o r tr Ho Hl Hr
      | l tl o r tr Ho Hl Hr];
      cbn [well_nested] in Hw;
      try (apply expression_raises;
           eapply Hterm; [econstructor; eassumption | exact Hw
                         | simpl; lia | exact H]).
    + apply andb_prop in Hw as [Hw H1]. apply andb_prop in Hw as [Hwl Hwr].
      apply Nat.leb_le in H1.
      apply Hadd with (l := l) (tl := tl) (o := o) (r := r) (tr := tr);
        auto. now rewrite Ho.
    + apply andb_prop in Hw as [Hw H1]. apply andb_prop in Hw as [Hwl Hwr].
      apply Nat.leb_le in H1.
      apply Hadd with (l := l) (tl := tl) (o := o) (r := r) (tr := tr);
        auto. now rewrite Ho.
Qed.

(** An open parenthesis, a tree of the grammar, and then no closing
    parenthesis: [parse_factor] raises what [expect] raises. *)
Lemma factor_unclosed (e : Expr) (tokens : list Token) (lp : Token)
  (pre rest : list Token) :
  spells e tokens -> well_nested e = true -> type lp = LPAREN ->
  starts_with is_additive rest = false ->
  starts_with is_multiplicative rest = false ->
  starts_with (fun k => TokenType_eqb k RPAREN) rest = false ->
  returns (fun n => parse_factor n (parser_state pre (lp :: tokens ++ rest)))
          (Raise (ValueError
                    (ExpectedGot "RPAREN"
                       match rest with
                       | [] => "EOF"%string
                       | token :: _ => TokenType_value (type token)
                       end))).
Proof.
  intros Hs Hw Hlp Ha Hm Hr.
  destruct (parser_reads_grammar Hs Hw) as (_ & _ & He).
  apply returns_S
    with (g := fun n =>
                 '(expr, p2) <- parse_expression n
                     (parser_state (pre ++ [lp]) (tokens ++ rest)) ;;
                 '(_, p3) <- expect p2 RPAREN ;;
                 Ok (Par expr, p3)).
  { intros n. rewrite parse_factor_S. simpl. rewrite Hlp.
    now rewrite tokens_advance_state. }
  apply returns_bind
    with (k := fun (n : nat) '(expr, p2) =>
                 '(_, p3) <- expect p2 RPAREN ;; Ok (Par expr, p3))
         (a := (e, parser_state ((pre ++ [lp]) ++ tokens) rest)).
  - now apply expression_reads_all.
  - unfold expect. destruct rest as [|token rest]; simpl in *.
    + apply returns_const.
    + rewrite Hr. apply returns_const.
Qed.

End ErrorFacts.

(** ** The literals of a tree *)

Module LiteralFacts.



End LiteralFacts.

(** ** The texts that the lexer takes *)

Module LexableFacts.
Import LexerFacts.

Lemma operator_not_blank (c : ascii) (k : TokenType) :
  Lexer.operator c = Some k -> Py.isspace c = false /\ Py.isdigit c = false.
Proof. each_char c. Qed.

Lemma is_decimal_not_blank (c : ascii) :
  Py.is_decimal c = true -> Py.isspace c = false.
Proof. each_char c. Qed.

Lemma next_end (pre : string) :
  Lexer.next pre EmptyString =
  Ok (mkToken EOF PyNone (String.length pre), Lexer.state pre EmptyString).
Proof. unfold Lexer.next. simpl. now rewrite append_nil_r. Qed.

Lemma next_operator (pre : string) (c : ascii) (k : TokenType) (s : string) :
  Lexer.operator c = Some k ->
  Lexer.next pre (String c s) =
  Ok (mkToken k (PyStr (String c EmptyString)) (String.length pre),
      Lexer.state (pre ++ String c EmptyString) s).
Proof.
  intros Hk. destruct (operator_not_blank c Hk) as [Hsp Hd].
  unfold Lexer.next. cbn [take_while drop_while]. rewrite Hsp.
  rewrite append_nil_r, Hd, Hk. reflexivity.
Qed.

Lemma next_number (pre run s : string) :
  literal run ->
  (forall c, head s = Some c -> Lexer.digit_or_dot c = false) ->
  exists v,
    Lexer.next pre (run ++ s) =
    Ok (mkToken NUMBER v (String.length pre), Lexer.state (pre ++ run) s).
Proof.
  intros Hlit Hs.
  pose proof (LiteralRunFacts.literal_digit_or_dot Hlit) as Hall.
  destruct (@LiteralRunFacts.literal_number_token run (String.length pre)
              Hlit) as [v Hv].
  destruct (LiteralRunFacts.literal_starts_decimal Hlit)
    as (c & r & -> & Hc).
  exists v. unfold Lexer.next.
  change (String c r ++ s)%string with (String c (r ++ s)).
  cbn [take_while drop_while].
  rewrite (is_decimal_not_blank c Hc), append_nil_r,
    (LiteralRunFacts.is_decimal_isdigit c Hc).
  change (String c (r ++ s)) with (String c r ++ s)%string.
  destruct (take_while_run Lexer.digit_or_dot (String c r) s Hall Hs)
    as [-> ->].
  now rewrite Hv.
Qed.

(** On a text of blanks, operators and numbers the loop of [tokenize]
    returns, with the cursor at the end of the text. *)
Lemma lexable_tokenize_loop (s : string) :
  lexable s ->
  forall n acc pre, String.length s < n ->
  exists tokens,
    Lexer.tokenize_loop n acc (Lexer.state pre s) =
    Ok (tokens, Lexer.state (pre ++ s) EmptyString).
Proof.
  induction 1 as [|c s Hc Hs IH|c k s Hk Hs IH|run s Hlit Hhead Hs IH];
    intros n acc pre Hn; (destruct n as [|n]; [simpl in Hn; lia|]).
  - cbn [Lexer.tokenize_loop]. rewrite get_next_token_state, next_end.
    cbn [bind type TokenType_eqb]. rewrite append_nil_r. eauto.
  - change (String c s) with (String c EmptyString ++ s)%string.
    rewrite StripFacts.tokenize_loop_leading
      by (simpl; now rewrite Hc).
    destruct (IH (S n) acc (pre ++ String c EmptyString)%string)
      as [tokens H]; [simpl in Hn; lia|].
    exists tokens. rewrite H. now rewrite append_assoc.
  - cbn [Lexer.tokenize_loop].
    rewrite get_next_token_state, (@next_operator pre c k s Hk).
    cbn [bind type]. rewrite (operator_not_EOF c Hk).
    destruct (IH n (acc ++ [mkToken k (PyStr (String c EmptyString))
                                    (String.length pre)])
                (pre ++ String c EmptyString)%string)
      as [tokens H]; [simpl in Hn; lia|].
    exists tokens. rewrite H. now rewrite append_snoc.
  - cbn [Lexer.tokenize_loop]. rewrite get_next_token_state.
    destruct (@next_number pre run s Hlit Hhead) as [v ->].
    cbn [bind type TokenType_eqb].
    destruct (IH n (acc ++ [mkToken NUMBER v (String.length pre)])
                (pre ++ run)%string) as [tokens H].
    { rewrite length_append in Hn.
      destruct (LiteralRunFacts.literal_starts_decimal Hlit)
        as (c & r & -> & _). simpl in Hn. lia. }
    exists tokens. rewrite H. now rewrite append_assoc.
Qed.

Lemma lexable_blanks (ws s : string) :
  all_chars Py.isspace ws = true -> lexable s -> lexable (ws ++ s).
Proof.
  induction ws as [|c ws IH]; simpl; [auto|].
  intros H Hs. apply andb_prop in H as [Hc Hws].
  apply lexable_blank; auto.
Qed.

(** A text on which the loop of [tokenize] returns is a text of blanks,
    operators and numbers. *)
Lemma tokenize_loop_lexable (n : nat) :
  forall s acc pre tokens l',
  Lexer.tokenize_loop n acc (Lexer.state pre s) = Ok (tokens, l') ->
  lexable s.
Proof.
  induction n as [|n IH]; intros s acc pre tokens l' H; [discriminate|].
  cbn [Lexer.tokenize_loop] in H. rewrite get_next_token_state in H.
  destruct (Lexer.next pre s) as [[token l1]| |] eqn:En; cbn [bind] in H;
    try discriminate.
  apply DetailFacts.next_detail in En
    as (ws & lexeme & s' & -> & Hws & Hlex & -> & Hend & Hmax).
  apply lexable_blanks; [exact Hws|].
  destruct (TokenType_eqb (type token) EOF) eqn:Ek.
  - apply (TextFacts.lexeme_token_eof Hlex) in Ek. subst lexeme.
    rewrite (Hend eq_refl). constructor.
  - apply IH in H.
    destruct Hlex as [|c k Hk|c lex tok Hc Hall Htok].
    + discriminate.
    + now apply lexable_operator with (k := k).
    + apply lexable_number; [|intros x; now apply (Hmax c lex x)|exact H].
      now apply (@LiteralRunFacts.number_token_literal _ _ _ _ Htok).
Qed.

Lemma length_replicate (n : nat) (c : ascii) :
  String.length (replicate n c) = n.
Proof. induction n as [|n IH]; simpl; [reflexivity | now rewrite IH]. Qed.

Lemma all_chars_replicate (f : ascii -> bool) (n : nat) (c : ascii) :
  f c = true -> all_chars f (replicate n c) = true.
Proof. intros H. induction n as [|n IH]; simpl; [reflexivity | now rewrite H]. Qed.

(** More decimal digits than [int] takes: [tokenize] raises. *)
Lemma tokenize_long_number (s : string) :
  Py.all_decimal s = true -> Py.int_max_str_digits < String.length s ->
  Lexer.tokenize (Lexer.init s) =
  Raise (ValueError (ExceedsDigitLimit (String.length s))).
Proof.
  intros Hall Hlen. rewrite TokenizeFacts.tokenize_init_fuel.
  replace (String.length s + 2) with (S (String.length s + 1)) by lia.
  cbn [Lexer.tokenize_loop]. rewrite get_next_token_state.
  destruct s as [|c s]; [simpl in Hlen; lia|].
  pose proof Hall as Hall'. unfold Py.all_decimal in Hall'. simpl in Hall'.
  apply andb_prop in Hall' as [Hc _].
  unfold Lexer.next. cbn [take_while drop_while].
  rewrite (is_decimal_not_blank c Hc),
    (LiteralRunFacts.is_decimal_isdigit c Hc).
  destruct (take_while_all Lexer.digit_or_dot (String c s)
              (PipelineFacts.decimal_digit_or_dot _ Hall)) as [-> _].
  now rewrite number_token_too_long.
Qed.

End LexableFacts.

(** ** The lexer on a stack with a limit *)

Module StackFacts.

Lemma refines_refl {A : Type} (r : result A) : refines r r.
Proof. now left. Qed.

Lemma refines_raise {A : Type} (r : result A) :
  refines r (Raise RecursionError).
Proof. now right. Qed.

Lemma refines_bind {A B : Type} (r b : result A) (k k' : A -> result B) :
  refines r b -> (forall a, refines (k a) (k' a)) ->
  refines (bind r k) (bind b k').
Proof.
  intros [-> | ->] Hk; [|now right].
  destruct r as [a| |]; simpl; [apply Hk | now left | now left].
Qed.

Lemma refines_call {A : Type} (r : result A) (room : nat)
  (body : nat -> result A) :
  (forall inside, refines r (body inside)) -> refines r (call room body).
Proof. intros H. destruct room as [|inside]; [now right | apply H]. Qed.

Lemma refines_Ok {A : Type} (r : result A) (b : result A) (a : A) :
  refines r b -> b = Ok a -> r = Ok a.
Proof. intros [-> | ->]; [auto | discriminate]. Qed.

Lemma call_enough {A : Type} (room : nat) (body : nat -> result A) :
  1 <= room -> call room body = body (pred room).
Proof. destruct room as [|inside]; [lia | reflexivity]. Qed.

End StackFacts.

Module StackLexerFacts.
Import StackFacts.

Lemma advance_refines (room : nat) (l : Lexer.t) :
  refines (Ok (Lexer.advance l)) (StackLexer.advance room l).
Proof. apply refines_call. intros _. apply refines_refl. Qed.

Lemma token_refines (room : nat) (k : TokenType) (v : pyval) (pos : nat) :
  refines (Ok (mkToken k v pos)) (StackLexer.token room k v pos).
Proof. apply refines_call. intros _. apply refines_refl. Qed.

Lemma skip_whitespace_loop_refines (n : nat) :
  forall inside l,
  refines (Lexer.skip_whitespace_loop n l)
          (StackLexer.skip_whitespace_loop n inside l).
Proof.
  induction n as [|n IH]; intros inside l; simpl; [apply refines_refl|].
  destruct (Lexer.current_char l) as [c|]; [|apply refines_refl].
  destruct (Py.isspace c); [|apply refines_refl].
  change (Lexer.skip_whitespace_loop n (Lexer.advance l))
    with (bind (Ok (Lexer.advance l)) (Lexer.skip_whitespace_loop n)).
  apply refines_bind; [apply advance_refines | intros l'; apply IH].
Qed.

Lemma skip_whitespace_refines (room : nat) (l : Lexer.t) :
  refines (Lexer.skip_whitespace l) (StackLexer.skip_whitespace room l).
Proof.
  apply refines_call. intros inside. apply skip_whitespace_loop_refines.
Qed.

Lemma read_number_loop_refines (n : nat) :
  forall inside num_str l,
  refines (Lexer.read_number_loop n num_str l)
          (StackLexer.read_number_loop n inside num_str l).
Proof.
  induction n as [|n IH]; intros inside num_str l; simpl;
    [apply refines_refl|].
  destruct (Lexer.current_char l) as [c|]; [|apply refines_refl].
  destruct (Lexer.digit_or_dot c); [|apply refines_refl].
  change (Lexer.read_number_loop n (num_str ++ String c "") (Lexer.advance l))
    with (bind (Ok (Lexer.advance l))
               (Lexer.read_number_loop n (num_str ++ String c ""))).
  apply refines_bind; [apply advance_refines | intros l'; apply IH].
Qed.

Lemma number_token_refines (inside : nat) (num_str : string) (pos : nat) :
  refines (Lexer.number_token num_str pos)
          (StackLexer.number_token inside num_str pos).
Proof.
  unfold Lexer.number_token, StackLexer.number_token.
  destruct (Py.contains "." num_str).
  - destruct (Py.float num_str); [apply token_refines | apply refines_refl].
  - destruct (Py.int num_str);
      [apply token_refines | apply refines_refl | apply refines_refl].
Qed.

Lemma read_number_refines (room : nat) (l : Lexer.t) :
  refines (Lexer.read_number l) (StackLexer.read_number room l).
Proof.
  apply refines_call. intros inside. unfold Lexer.read_number. cbv zeta.
  apply refines_bind; [apply read_number_loop_refines|].
  intros [num_str l']. cbv zeta.
  apply refines_bind; [apply number_token_refines|].
  intros tok. apply refines_refl.
Qed.

Lemma get_next_token_loop_refines (n : nat) :
  forall inside l,
  refines (Lexer.get_next_token_loop n l)
          (StackLexer.get_next_token_loop n inside l).
Proof.
  induction n as [|n IH]; intros inside l; simpl; [apply refines_refl|].
  destruct (Lexer.current_char l) as [c|].
  - destruct (Py.isspace c).
    + apply refines_bind; [apply skip_whitespace_refines | intros l'; apply IH].
    + destruct (Py.isdigit c); [apply read_number_refines|].
      destruct (Lexer.operator c) as [k|]; [|apply refines_refl].
      destruct inside as [|inside]; [now right | now left].
  - destruct inside as [|inside]; [now right | now left].
Qed.

Lemma get_next_token_refines (room : nat) (l : Lexer.t) :
  refines (Lexer.get_next_token l) (StackLexer.get_next_token room l).
Proof.
  apply refines_call. intros inside. apply get_next_token_loop_refines.
Qed.

Lemma tokenize_loop_refines (n : nat) :
  forall inside tokens l,
  refines (Lexer.tokenize_loop n tokens l)
          (StackLexer.tokenize_loop n inside tokens l).
Proof.
  induction n as [|n IH]; intros inside tokens l; simpl;
    [apply refines_refl|].
  apply refines_bind; [apply get_next_token_refines|].
  intros [tok l']. cbv zeta.
  destruct (TokenType_eqb (type tok) EOF); [apply refines_refl | apply IH].
Qed.

(** On a stack with a limit [tokenize] does what it does without, or
    raises a [RecursionError]. *)
Lemma tokenize_refines (room : nat) (l : Lexer.t) :
  refines (Lexer.tokenize l) (StackLexer.tokenize room l).
Proof.
  apply refines_call. intros inside. apply tokenize_loop_refines.
Qed.

Lemma skip_whitespace_loop_enough (n : nat) :
  forall inside l, 1 <= inside ->
  StackLexer.skip_whitespace_loop n inside l = Lexer.skip_whitespace_loop n l.
Proof.
  induction n as [|n IH]; intros inside l Hr; simpl; [reflexivity|].
  destruct (Lexer.current_char l) as [c|]; [|reflexivity].
  destruct (Py.isspace c); [|reflexivity].
  unfold StackLexer.advance. rewrite call_enough by exact Hr.
  cbn [bind]. now apply IH.
Qed.

Lemma read_number_loop_enough (n : nat) :
  forall inside num_str l, 1 <= inside ->
  StackLexer.read_number_loop n inside num_str l =
  Lexer.read_number_loop n num_str l.
Proof.
  induction n as [|n IH]; intros inside num_str l Hr; simpl; [reflexivity|].
  destruct (Lexer.current_char l) as [c|]; [|reflexivity].
  destruct (Lexer.digit_or_dot c); [|reflexivity].
  unfold StackLexer.advance. rewrite call_enough by exact Hr.
  cbn [bind]. now apply IH.
Qed.

Lemma number_token_enough (inside : nat) (num_str : string) (pos : nat) :
  1 <= inside ->
  StackLexer.number_token inside num_str pos = Lexer.number_token num_str pos.
Proof.
  intros Hr. destruct inside as [|inside]; [lia | reflexivity].
Qed.

Lemma get_next_token_loop_enough (n : nat) :
  forall inside l, 2 <= inside ->
  StackLexer.get_next_token_loop n inside l = Lexer.get_next_token_loop n l.
Proof.
  induction n as [|n IH]; intros inside l Hr; simpl; [reflexivity|].
  destruct (Lexer.current_char l) as [c|].
  - destruct (Py.isspace c).
    + unfold StackLexer.skip_whitespace, Lexer.skip_whitespace.
      rewrite call_enough by lia.
      rewrite skip_whitespace_loop_enough by lia.
      destruct (Lexer.skip_whitespace_loop (Lexer.fuel l) l) as [l'| |];
        simpl; auto.
    + destruct (Py.isdigit c).
      * unfold StackLexer.read_number, Lexer.read_number. cbv zeta.
        rewrite call_enough by lia.
        rewrite read_number_loop_enough by lia.
        destruct (Lexer.read_number_loop (Lexer.fuel l) "" l)
          as [[num_str l']| |]; simpl; auto.
        now rewrite number_token_enough by lia.
      * destruct (Lexer.operator c) as [k|]; [|reflexivity].
        unfold StackLexer.token, StackLexer.advance.
        now rewrite !call_enough by lia.
  - unfold StackLexer.token. now rewrite call_enough by lia.
Qed.

Lemma tokenize_loop_enough (n : nat) :
  forall inside tokens l, 3 <= inside ->
  StackLexer.tokenize_loop n inside tokens l = Lexer.tokenize_loop n tokens l.
Proof.
  induction n as [|n IH]; intros inside tokens l Hr; simpl; [reflexivity|].
  unfold StackLexer.get_next_token, Lexer.get_next_token.
  rewrite call_enough by lia.
  rewrite get_next_token_loop_enough by lia.
  destruct (Lexer.get_next_token_loop (Lexer.fuel l) l) as [[tok l']| |];
    simpl; auto.
  destruct (TokenType_eqb (type tok) EOF); [reflexivity | now apply IH].
Qed.

(** With room for four calls [tokenize] does what it does on a stack
    without limit. *)
Lemma tokenize_enough (room : nat) (l : Lexer.t) :
  4 <= room -> StackLexer.tokenize room l = Lexer.tokenize l.
Proof.
  intros Hr. unfold StackLexer.tokenize, Lexer.tokenize.
  rewrite call_enough by lia. now apply tokenize_loop_enough; lia.
Qed.

End StackLexerFacts.

(** ** The parser on a stack with a limit *)

Module StackParserFacts.
Import StackFacts ParserFacts.

Lemma parse_factor_eq (n room : nat) (p : Parser.t) :
  StackParser.parse_factor (S n) room p =
  call room (fun inside =>
    match Parser.current_token p with
    | None => Raise AttributeError
    | Some token =>
        match type token with
        | NUMBER =>
            p1 <- StackParser.advance inside p ;; Ok (Num (value token), p1)
        | LPAREN =>
            p1 <- StackParser.advance inside p ;;
            '(expr, p2) <- StackParser.parse_expression n inside p1 ;;
            '(_, p3) <- StackParser.expect inside p2 RPAREN ;;
            Ok (Par expr, p3)
        | _ => StackParser.unexpected inside token
        end
    end).
Proof. reflexivity. Qed.

Lemma parse_term_eq (n room : nat) (p : Parser.t) :
  StackParser.parse_term (S n) room p =
  call room (fun inside =>
    '(lhs, p1) <- StackParser.parse_factor n inside p ;;
    StackParser.parse_term_loop n inside lhs p1).
Proof. reflexivity. Qed.

Lemma parse_term_loop_eq (n inside : nat) (left : Expr) (p : Parser.t) :
  StackParser.parse_term_loop (S n) inside left p =
  match Parser.current_token p with
  | Some op =>
      if Parser.is_multiplicative (type op) then
        p1 <- StackParser.advance inside p ;;
        '(rhs, p2) <- StackParser.parse_factor n inside p1 ;;
        StackParser.parse_term_loop n inside
          (Parser.fold_multiplicative op left rhs) p2
      else Ok (left, p)
  | None => Ok (left, p)
  end.
Proof. reflexivity. Qed.

Lemma parse_expression_eq (n room : nat) (p : Parser.t) :
  StackParser.parse_expression (S n) room p =
  call room (fun inside =>
    '(lhs, p1) <- StackParser.parse_term n inside p ;;
    StackParser.parse_expression_loop n inside lhs p1).
Proof. reflexivity. Qed.

Lemma parse_expression_loop_eq (n inside : nat) (left : Expr)
  (p : Parser.t) :
  StackParser.parse_expression_loop (S n) inside left p =
  match Parser.current_token p with
  | Some op =>
      if Parser.is_additive (type op) then
        p1 <- StackParser.advance inside p ;;
        '(rhs, p2) <- StackParser.parse_term n inside p1 ;;
        StackParser.parse_expression_loop n inside
          (Parser.fold_additive op left rhs) p2
      else Ok (left, p)
  | None => Ok (left, p)
  end.
Proof. reflexivity. Qed.

Lemma expect_refines (room : nat) (p : Parser.t) (k : TokenType) :
  refines (Parser.expect p k) (StackParser.expect room p k).
Proof.
  apply refines_call. intros inside. unfold Parser.expect.
  destruct (Parser.current_token p) as [token|]; [|apply refines_refl].
  destruct (TokenType_eqb (type token) k); [|apply refines_refl].
  destruct inside as [|inside]; [now right | now left].
Qed.

Lemma expect_enough (room : nat) (p : Parser.t) (k : TokenType) :
  2 <= room -> StackParser.expect room p k = Parser.expect p k.
Proof.
  intros Hr. destruct room as [|[|inside]]; try lia.
  unfold StackParser.expect, Parser.expect. cbn [call].
  destruct (Parser.current_token p) as [token|]; [|reflexivity].
  destruct (TokenType_eqb (type token) k); reflexivity.
Qed.

(** On a stack with a limit the productions and their loops do what they
    do without, or raise a [RecursionError]. *)
Lemma parse_refines (n : nat) :
  forall room p,
  refines (Parser.parse_factor n p) (StackParser.parse_factor n room p) /\
  refines (Parser.parse_term n p) (StackParser.parse_term n room p) /\
  (forall left,
   refines (Parser.parse_term_loop n left p)
           (StackParser.parse_term_loop n room left p)) /\
  refines (Parser.parse_expression n p)
          (StackParser.parse_expression n room p) /\
  (forall left,
   refines (Parser.parse_expression_loop n left p)
           (StackParser.parse_expression_loop n room left p)).
Proof.
  induction n as [|n IH]; intros room p.
  { repeat split; intros; apply refines_refl. }
  repeat split.
  - rewrite parse_factor_eq, parse_factor_S.
    apply refines_call. intros inside.
    destruct (Parser.current_token p) as [token|]; [|apply refines_refl].
    destruct (type token);
      try (apply refines_call; intros _; apply refines_refl).
    + destruct inside as [|inside]; [now right | now left].
    + destruct inside as [|inside]; [now right|].
      cbn [StackParser.advance call bind].
      apply refines_bind; [apply IH|].
      intros [expr p2].
      apply refines_bind; [apply expect_refines|].
      intros [tok p3]. apply refines_refl.
  - rewrite parse_term_eq, parse_term_S.
    apply refines_call. intros inside.
    apply refines_bind; [apply IH|]. intros [lhs p1]. apply IH.
  - intros left. rewrite parse_term_loop_eq, parse_term_loop_S.
    destruct (Parser.current_token p) as [op|]; [|apply refines_refl].
    destruct (Parser.is_multiplicative (type op)); [|apply refines_refl].
    destruct room as [|inside]; [now right|].
    cbn [StackParser.advance call bind].
    apply refines_bind; [apply IH|]. intros [rhs p2]. apply IH.
  - rewrite parse_expression_eq, parse_expression_S.
    apply refines_call. intros inside.
    apply refines_bind; [apply IH|]. intros [lhs p1]. apply IH.
  - intros left. rewrite parse_expression_loop_eq, parse_expression_loop_S.
    destruct (Parser.current_token p) as [op|]; [|apply refines_refl].
    destruct (Parser.is_additive (type op)); [|apply refines_refl].
    destruct room as [|inside]; [now right|].
    cbn [StackParser.advance call bind].
    apply refines_bind; [apply IH|]. intros [rhs p2]. apply IH.
Qed.

(** On a stack with a limit [parse] does what it does without, or raises a
    [RecursionError]. *)
Lemma parse_refines_all (room : nat) (p : Parser.t) :
  refines (Parser.parse p) (StackParser.parse room p).
Proof.
  apply refines_call. intros inside. unfold Parser.parse.
  apply refines_bind; [apply parse_refines|].
  intros [expr p1].
  destruct (Parser.current_token p1) as [token|]; [|apply refines_refl].
  destruct (negb (TokenType_eqb (type token) EOF)); [|apply refines_refl].
  apply refines_call. intros _. apply refines_refl.
Qed.

Lemma shrunk_here (pre rest : list Token) :
  shrunk pre rest (parser_state pre rest).
Proof. exists [], rest. rewrite app_nil_r. auto. Qed.

Lemma shrunk_step (pre rest used rest' : list Token) (p : Parser.t) :
  rest = used ++ rest' -> nesting rest' <= nesting rest ->
  shrunk (pre ++ used) rest' p -> shrunk pre rest p.
Proof.
  intros Hrest Hn (used' & rest'' & -> & -> & Hn').
  exists (used ++ used'), rest''. rewrite !app_assoc in *.
  split; [exact Hrest|]. split; [reflexivity | lia].
Qed.

Lemma nesting_operator (op : Token) (rest : list Token) :
  Parser.is_additive (type op) = true \/
  Parser.is_multiplicative (type op) = true ->
  nesting (op :: rest) = nesting rest.
Proof. cbn [nesting]. destruct (type op); intros [H | H]; now try discriminate. Qed.

Lemma expect_shrunk (pre rest : list Token) (token : Token) (p' : Parser.t) :
  Parser.expect (parser_state pre rest) RPAREN = Ok (token, p') ->
  exists rest',
    rest = token :: rest' /\ type token = RPAREN /\
    p' = parser_state (pre ++ [token]) rest'.
Proof.
  unfold Parser.expect. destruct rest as [|tok rest']; simpl; [discriminate|].
  destruct (TokenType_eqb (type tok) RPAREN) eqn:E; [|discriminate].
  intros [= <- <-]. exists rest'. apply TokenType_eqb_eq in E.
  now rewrite tokens_advance_state.
Qed.

(** The tokens that a production or a loop leaves nest no deeper than
    those it was given. *)
Lemma parse_shrinks (n : nat) :
  forall pre rest,
  (forall e p', Parser.parse_factor n (parser_state pre rest) = Ok (e, p') ->
                shrunk pre rest p') /\
  (forall e p', Parser.parse_term n (parser_state pre rest) = Ok (e, p') ->
                shrunk pre rest p') /\
  (forall left e p',
     Parser.parse_term_loop n left (parser_state pre rest) = Ok (e, p') ->
     shrunk pre rest p') /\
  (forall e p',
     Parser.parse_expression n (parser_state pre rest) = Ok (e, p') ->
     shrunk pre rest p') /\
  (forall left e p',
     Parser.parse_expression_loop n left (parser_state pre rest)
     = Ok (e, p') ->
     shrunk pre rest p').
Proof.
  induction n as [|n IH]; intros pre rest.
  { repeat split; intros; discriminate. }
  repeat split.
  - intros e p'. rewrite parse_factor_S.
    destruct rest as [|token r1]; simpl; [discriminate|].
    destruct (type token) eqn:Ek; try discriminate.
    + intros [= <- <-]. rewrite tokens_advance_state.
      exists [token], r1. cbn [nesting]. rewrite Ek. auto.
    + rewrite tokens_advance_state. intros H.
      apply SoundFacts.bind_Ok in H as ([expr p2] & H1 & H).
      apply SoundFacts.bind_Ok in H as ([tok p3] & H2 & [= <- <-]).
      apply IH in H1 as (used & r2 & -> & -> & Hn).
      apply expect_shrunk in H2 as (r3 & -> & Hk & ->).
      exists (token :: used ++ [tok]), r3.
      cbn [nesting] in *. rewrite Ek. rewrite Hk in Hn.
      split; [simpl; now rewrite <- app_assoc|].
      split; [now rewrite <- !app_assoc | lia].
  - intros e p'. rewrite parse_term_S. intros H.
    apply SoundFacts.bind_Ok in H as ([lhs p1] & H1 & H).
    apply IH in H1 as (used & r1 & -> & -> & Hn).
    apply IH in H. now apply shrunk_step with (used := used) (rest' := r1).
  - intros left e p'. rewrite parse_term_loop_S.
    destruct rest as [|op r1]; simpl.
    { intros [= <- <-]. apply shrunk_here. }
    destruct (Parser.is_multiplicative (type op)) eqn:Ek.
    + rewrite tokens_advance_state. intros H.
      apply SoundFacts.bind_Ok in H as ([rhs p2] & H1 & H).
      apply IH in H1 as (used & r2 & -> & -> & Hn).
      apply IH in H.
      apply shrunk_step with (used := op :: used) (rest' := r2);
        [reflexivity | |now rewrite <- app_assoc in H].
      rewrite nesting_operator; auto.
    + intros [= <- <-]. apply shrunk_here.
  - intros e p'. rewrite parse_expression_S. intros H.
    apply SoundFacts.bind_Ok in H as ([lhs p1] & H1 & H).
    apply IH in H1 as (used & r1 & -> & -> & Hn).
    apply IH in H. now apply shrunk_step with (used := used) (rest' := r1).
  - intros left e p'. rewrite parse_expression_loop_S.
    destruct rest as [|op r1]; simpl.
    { intros [= <- <-]. apply shrunk_here. }
    destruct (Parser.is_additive (type op)) eqn:Ek.
    + rewrite tokens_advance_state. intros H.
      apply SoundFacts.bind_Ok in H as ([rhs p2] & H1 & H).
      apply IH in H1 as (used & r2 & -> & -> & Hn).
      apply IH in H.
      apply shrunk_step with (used := op :: used) (rest' := r2);
        [reflexivity | |now rewrite <- app_assoc in H].
      rewrite nesting_operator; auto.
    + intros [= <- <-]. apply shrunk_here.
Qed.

(** With room for three calls for each level of parentheses, and for the
    calls of the innermost factor, the productions and their loops do what
    they do on a stack without limit. *)
Lemma parse_enough (n : nat) :
  forall pre rest room,
  (3 * nesting rest + 2 <= room ->
   StackParser.parse_factor n room (parser_state pre rest) =
   Parser.parse_factor n (parser_state pre rest)) /\
  (3 * nesting rest + 3 <= room ->
   StackParser.parse_term n room (parser_state pre rest) =
   Parser.parse_term n (parser_state pre rest)) /\
  (forall left, 3 * nesting rest + 2 <= room ->
   StackParser.parse_term_loop n room left (parser_state pre rest) =
   Parser.parse_term_loop n left (parser_state pre rest)) /\
  (3 * nesting rest + 4 <= room ->
   StackParser.parse_expression n room (parser_state pre rest) =
   Parser.parse_expression n (parser_state pre rest)) /\
  (forall left, 3 * nesting rest + 3 <= room ->
   StackParser.parse_expression_loop n room left (parser_state pre rest) =
   Parser.parse_expression_loop n left (parser_state pre rest)).
Proof.
  induction n as [|n IH]; intros pre rest room.
  { repeat split; intros; reflexivity. }
  repeat split.
  - intros Hr. rewrite parse_factor_eq, parse_factor_S.
    destruct room as [|[|inside]]; try lia. cbn [call].
    destruct rest as [|token r1];
      cbn [parser_state Parser.current_token hd_error]; [reflexivity|].
    destruct (type token) eqn:Ek; try reflexivity.
    cbn [StackParser.advance call bind].
    change (Parser.mk (pre ++ token :: r1) (List.length pre) (Some token))
      with (parser_state pre (token :: r1)).
    rewrite tokens_advance_state.
    assert (HN : nesting (token :: r1) = S (nesting r1))
      by (cbn [nesting]; now rewrite Ek).
    rewrite HN in Hr.
    destruct (IH (pre ++ [token]) r1 (S inside)) as (_ & _ & _ & -> & _);
      [|lia].
    destruct (Parser.parse_expression n (parser_state (pre ++ [token]) r1))
      as [[expr p2]| |]; cbn [bind]; try reflexivity.
    now rewrite expect_enough by lia.
  - intros Hr. rewrite parse_term_eq, parse_term_S.
    destruct room as [|inside]; try lia. cbn [call].
    destruct (IH pre rest inside) as (-> & _); [|lia].
    destruct (Parser.parse_factor n (parser_state pre rest))
      as [[lhs p1]| |] eqn:E; cbn [bind]; try reflexivity.
    apply parse_shrinks in E as (used & r1 & -> & -> & Hn).
    apply IH. lia.
  - intros left Hr. rewrite parse_term_loop_eq, parse_term_loop_S.
    destruct rest as [|op r1];
      cbn [parser_state Parser.current_token hd_error]; [reflexivity|].
    destruct (Parser.is_multiplicative (type op)) eqn:Ek; [|reflexivity].
    destruct room as [|inside]; try lia.
    cbn [StackParser.advance call bind].
    change (Parser.mk (pre ++ op :: r1) (List.length pre) (Some op))
      with (parser_state pre (op :: r1)).
    rewrite tokens_advance_state.
    rewrite nesting_operator in Hr by auto.
    destruct (IH (pre ++ [op]) r1 (S inside)) as (-> & _); [|lia].
    destruct (Parser.parse_factor n (parser_state (pre ++ [op]) r1))
      as [[rhs p2]| |] eqn:E; cbn [bind]; try reflexivity.
    apply parse_shrinks in E as (used & r2 & -> & -> & Hn).
    apply IH. lia.
  - intros Hr. rewrite parse_expression_eq, parse_expression_S.
    destruct room as [|inside]; try lia. cbn [call].
    destruct (IH pre rest inside) as (_ & -> & _); [|lia].
    destruct (Parser.parse_term n (parser_state pre rest))
      as [[lhs p1]| |] eqn:E; cbn [bind]; try reflexivity.
    apply parse_shrinks in E as (used & r1 & -> & -> & Hn).
    apply IH. lia.
  - intros left Hr.
    rewrite parse_expression_loop_eq, parse_expression_loop_S.
    destruct rest as [|op r1];
      cbn [parser_state Parser.current_token hd_error]; [reflexivity|].
    destruct (Parser.is_additive (type op)) eqn:Ek; [|reflexivity].
    destruct room as [|inside]; try lia.
    cbn [StackParser.advance call bind].
    change (Parser.mk (pre ++ op :: r1) (List.length pre) (Some op))
      with (parser_state pre (op :: r1)).
    rewrite tokens_advance_state.
    rewrite nesting_operator in Hr by auto.
    destruct (IH (pre ++ [op]) r1 (S inside)) as (_ & -> & _); [|lia].
    destruct (Parser.parse_term n (parser_state (pre ++ [op]) r1))
      as [[rhs p2]| |] eqn:E; cbn [bind]; try reflexivity.
    apply parse_shrinks in E as (used & r2 & -> & -> & Hn).
    apply IH. lia.
Qed.

(** With room for [parse], for three calls for each level of parentheses
    and for the calls of the innermost factor, [parse] does what it does
    on a stack without limit. *)
Lemma parse_enough_all (room : nat) (tokens : list Token) :
  3 * nesting tokens + 5 <= room ->
  StackParser.parse room (Parser.init tokens) =
  Parser.parse (Parser.init tokens).
Proof.
  intros Hr. unfold StackParser.parse, Parser.parse.
  destruct room as [|[|inside]]; try lia. cbn [call].
  rewrite tokens_init_state.
  destruct (parse_enough (Parser.fuel (parser_state [] tokens)) [] tokens
              (S inside)) as (_ & _ & _ & -> & _); [|lia].
  destruct (Parser.parse_expression _ _) as [[expr p1]| |]; reflexivity.
Qed.

(** Opening parentheses, a third as many as there is room for calls or
    more: [parse_expression] raises a [RecursionError]. *)
Lemma parse_deep (lps : list Token) :
  Forall (fun token => type token = LPAREN) lps ->
  forall n room pre rest,
  room <= 3 * List.length lps -> room < n ->
  StackParser.parse_expression n room (parser_state pre (lps ++ rest)) =
  Raise RecursionError.
Proof.
  induction 1 as [|lp lps Hlp Hlps IH]; intros n room pre rest Hr Hn.
  - simpl in Hr. destruct n as [|n]; [lia|].
    rewrite parse_expression_eq. now replace room with 0 by lia.
  - destruct n as [|n]; [lia|]. rewrite parse_expression_eq.
    destruct room as [|r1]; [reflexivity|]. cbn [call].
    destruct n as [|n]; [lia|]. rewrite parse_term_eq.
    destruct r1 as [|r2]; [reflexivity|]. cbn [call].
    destruct n as [|n]; [lia|]. rewrite parse_factor_eq.
    destruct r2 as [|r3]; [reflexivity|]. cbn [call].
    cbn [app parser_state Parser.current_token hd_error]. rewrite Hlp.
    destruct r3 as [|r4]; [reflexivity|].
    cbn [StackParser.advance call bind].
    change (Parser.mk (pre ++ lp :: lps ++ rest) (List.length pre) (Some lp))
      with (parser_state pre (lp :: lps ++ rest)).
    rewrite tokens_advance_state.
    rewrite IH; [reflexivity | simpl in Hr; lia | lia].
Qed.

End StackParserFacts.

(** ** From the text to the tree, on a stack with a limit *)

Module StackStringFacts.
Import StackFacts LexerFacts.

Lemma depth_blanks (ws s : string) :
  all_chars Py.isspace ws = true -> depth (ws ++ s) = depth s.
Proof.
  induction ws as [|c ws IH]; simpl; [reflexivity|].
  intros H. apply andb_prop in H as [Hc Hws].
  assert (E : Ascii.eqb c "(" = false /\ Ascii.eqb c ")" = false)
    by (revert Hc; each_char c).
  destruct E as [-> ->]. auto.
Qed.

Lemma depth_digits (run s : string) :
  all_chars Lexer.digit_or_dot run = true -> depth (run ++ s) = depth s.
Proof.
  induction run as [|c run IH]; simpl; [reflexivity|].
  intros H. apply andb_prop in H as [Hc Hrun].
  assert (E : Ascii.eqb c "(" = false /\ Ascii.eqb c ")" = false)
    by (revert Hc; each_char c).
  destruct E as [-> ->]. auto.
Qed.

Lemma depth_operator (c : ascii) (k : TokenType) (s : string) :
  Lexer.operator c = Some k ->
  depth (String c s) =
  match k with
  | LPAREN => S (depth s)
  | RPAREN => pred (depth s)
  | _ => depth s
  end.
Proof.
  unfold Lexer.operator.
  repeat match goal with
         | |- context [if Ascii.eqb c ?x then _ else _] =>
             let E := fresh "E" in
             destruct (Ascii.eqb c x) eqn:E;
             [apply Ascii.eqb_eq in E; subst c; intros [= <-]; reflexivity|]
         end.
  discriminate.
Qed.

(** The tokens that the loop of [tokenize] adds nest as deep as the
    parentheses of the text to come. *)
Lemma tokenize_loop_nesting (n : nat) :
  forall s acc pre tokens l',
  Lexer.tokenize_loop n acc (Lexer.state pre s) = Ok (tokens, l') ->
  exists new, tokens = acc ++ new /\ nesting new = depth s.
Proof.
  induction n as [|n IH]; intros s acc pre tokens l' H; [discriminate|].
  cbn [Lexer.tokenize_loop] in H. rewrite get_next_token_state in H.
  destruct (Lexer.next pre s) as [[token l1]| |] eqn:En; cbn [bind] in H;
    try discriminate.
  apply DetailFacts.next_detail in En
    as (ws & lexeme & s' & -> & Hws & Hlex & -> & Hend & _).
  rewrite (@depth_blanks ws _ Hws).
  destruct (TokenType_eqb (type token) EOF) eqn:Ek.
  - injection H as <- <-. exists [token]. split; [reflexivity|].
    pose proof Ek as Ek'. apply (TextFacts.lexeme_token_eof Hlex) in Ek'.
    subst lexeme. rewrite (Hend eq_refl).
    apply TokenType_eqb_eq in Ek. cbn [nesting]. now rewrite Ek.
  - apply IH in H as (new & -> & Hnew).
    exists (token :: new). rewrite <- app_assoc. split; [reflexivity|].
    destruct Hlex as [|c k Hk|c lex tok Hc Hall Htok].
    + discriminate.
    + change (String c "" ++ s')%string with (String c s').
      rewrite (@depth_operator c k s' Hk). cbn [nesting type]. rewrite Hnew.
      destruct k; try reflexivity. discriminate.
    + apply TextFacts.number_token_value in Htok as (Hk & _).
      cbn [nesting]. rewrite Hk, Hnew. symmetry. apply depth_digits.
      cbn [all_chars]. now rewrite (isdigit_digit_or_dot c Hc).
Qed.

Lemma tokenize_nesting (s : string) (tokens : list Token) (l' : Lexer.t) :
  Lexer.tokenize (Lexer.init s) = Ok (tokens, l') ->
  nesting tokens = depth s.
Proof.
  rewrite TokenizeFacts.tokenize_init_fuel. intros H.
  apply tokenize_loop_nesting in H as (new & -> & Hnew). exact Hnew.
Qed.

(** The tokens of a text that starts with [k] opening parentheses start
    with [k] [LPAREN] tokens. *)
Lemma tokenize_loop_parens (k : nat) :
  forall n acc pre rest tokens l',
  Lexer.tokenize_loop n acc (Lexer.state pre (replicate k "(" ++ rest)) =
  Ok (tokens, l') ->
  exists lps more,
    tokens = acc ++ lps ++ more /\ List.length lps = k /\
    Forall (fun token => type token = LPAREN) lps.
Proof.
  induction k as [|k IH]; intros n acc pre rest tokens l' H.
  - apply TokenizeFacts.tokenize_loop_shape in H as (body & eof & -> & _).
    exists [], (body ++ [eof]). auto.
  - destruct n as [|n]; [discriminate|].
    cbn [Lexer.tokenize_loop replicate append] in H.
    rewrite get_next_token_state in H.
    rewrite (@LexableFacts.next_operator pre "(" LPAREN _ eq_refl) in H.
    cbn [bind type TokenType_eqb] in H.
    apply IH in H as (lps & more & -> & Hlen & Hall).
    exists (mkToken LPAREN (PyStr "(") (String.length pre) :: lps), more.
    rewrite <- app_assoc. split; [reflexivity|].
    split; [simpl; now rewrite Hlen | now constructor].
Qed.

Lemma lexable_replicate (n : nat) (c : ascii) (k : TokenType) (s : string) :
  Lexer.operator c = Some k -> lexable s -> lexable (replicate n c ++ s).
Proof.
  intros Hk Hs. induction n as [|n IH]; simpl; [exact Hs|].
  now apply lexable_operator with (k := k).
Qed.

(** On a stack with a limit [parse_expression_from_string] does what it
    does without, or raises a [RecursionError]. *)
Lemma string_refines (room : nat) (s : string) :
  refines (parse_expression_from_string s)
          (Stack.parse_expression_from_string room s).
Proof.
  apply refines_call. intros inside.
  destruct inside as [|inside]; [now right|].
  cbn [StackLexer.init call bind]. unfold parse_expression_from_string.
  apply refines_bind; [apply StackLexerFacts.tokenize_refines|].
  intros [tokens l']. cbn [StackParser.init call bind].
  apply refines_bind; [apply StackParserFacts.parse_refines_all|].
  intros [expr p']. apply refines_refl.
Qed.

(** With room for its own call, for [parse], for three calls for each
    level of parentheses and for the calls of the innermost factor,
    [parse_expression_from_string] does what it does on a stack without
    limit. *)
Lemma string_enough (room : nat) (s : string) :
  3 * depth s + 6 <= room ->
  Stack.parse_expression_from_string room s = parse_expression_from_string s.
Proof.
  intros Hr. unfold Stack.parse_expression_from_string,
    parse_expression_from_string.
  destruct room as [|[|inside]]; try lia.
  cbn [call StackLexer.init bind].
  rewrite StackLexerFacts.tokenize_enough by lia.
  destruct (Lexer.tokenize (Lexer.init s)) as [[tokens l']| |] eqn:E;
    cbn [bind StackParser.init call]; try reflexivity.
  apply tokenize_nesting in E.
  rewrite StackParserFacts.parse_enough_all by lia.
  reflexivity.
Qed.

(** A text that starts with opening parentheses, a third as many as there
    is room for calls or more: a [RecursionError], when the lexer takes
    the text. *)
Lemma string_deep (room k : nat) (rest : string) :
  lexable rest -> room <= 3 * k + 2 ->
  Stack.parse_expression_from_string room (replicate k "(" ++ rest) =
  Raise RecursionError.
Proof.
  intros Hrest Hr.
  assert (Hlex : lexable (replicate k "(" ++ rest))
    by now apply lexable_replicate with (k := LPAREN).
  unfold Stack.parse_expression_from_string.
  destruct room as [|[|inside]]; try reflexivity.
  cbn [call StackLexer.init bind].
  destruct (StackLexerFacts.tokenize_refines (S inside)
              (Lexer.init (replicate k "(" ++ rest))) as [-> | ->];
    [|reflexivity].
  rewrite TokenizeFacts.tokenize_init_fuel.
  destruct (@LexableFacts.lexable_tokenize_loop _ Hlex
              (String.length (replicate k "(" ++ rest) + 2) []
              ""%string ltac:(lia)) as [tokens H].
  rewrite H. cbn [bind StackParser.init call].
  apply tokenize_loop_parens in H as (lps & more & -> & Hlen & Hall).
  cbn [app]. unfold StackParser.parse. cbn [call].
  rewrite ParserFacts.tokens_init_state.
  rewrite StackParserFacts.parse_deep; [reflexivity | exact Hall | lia |].
  unfold Parser.fuel. cbn [parser_state Parser.tokens app].
  rewrite length_app. lia.
Qed.

Lemma nesting_eof (tokens : list Token) (eof : Token) (rest : list Token) :
  type eof = EOF -> nesting (tokens ++ eof :: rest) = nesting tokens.
Proof.
  intros Hk. induction tokens as [|token tokens IH]; cbn [app nesting].
  - now rewrite Hk.
  - now rewrite IH.
Qed.

(** The tokens that spell a tree nest as deep as its parentheses. *)
Lemma spells_nesting (e : Expr) (tokens : list Token) :
  spells e tokens ->
  forall rest, nesting (tokens ++ rest) =
               Nat.max (paren_depth e) (nesting rest).
Proof.
  induction 1 as
    [token Hk
    | lp e tokens rp Hlp Hrp Hs IH
    | l tl op r tr Hop Hl IHl Hr IHr
    | l tl op r tr Hop Hl IHl Hr IHr
    | l tl op r tr Hop Hl IHl Hr IHr
    | l tl op r tr Hop Hl IHl Hr IHr];
    intros rest; cbn [paren_depth];
    try (rewrite <- app_assoc, IHl; cbn [app nesting]; rewrite Hop, IHr;
         lia).
  - cbn [app nesting]. now rewrite Hk.
  - cbn [app nesting]. rewrite Hlp, <- app_assoc, IH.
    cbn [app nesting]. rewrite Hrp. lia.
Qed.

End StackStringFacts.

(** ** What the parser returns or raises *)

Module OutcomeFacts.

(** A tree that [parse_expression_from_string] returns is a whole tree of
    the grammar: it spells the tokens of the text before [EOF]. *)
Lemma string_whole_tree (s : string) (e : Expr) :
  parse_expression_from_string s = Ok e ->
  exists body eof l',
    Lexer.tokenize (Lexer.init s) = Ok (body ++ [eof], l') /\
    type eof = EOF /\ spells e body /\ well_nested e = true.
Proof.
  intros H. unfold parse_expression_from_string in H.
  apply SoundFacts.bind_Ok in H as ([tokens l'] & Htok & H).
  apply SoundFacts.bind_Ok in H as ([e' p'] & Hparse & [= <-]).
  pose proof (TokenizeFacts.tokenize_eof_terminated _ Htok)
    as (body & eof & -> & Heof & Hbody).
  apply PipelineFacts.parse_returns_grammar in Hparse
    as (used & rest & Hsplit & _ & Hs & Hw & Hrest).
  exists body, eof, l'. repeat split; auto.
  pose proof (PipelineFacts.spells_no_eof Hs) as Hused.
  destruct rest as [|token rest].
  - rewrite app_nil_r in Hsplit. subst used.
    rewrite ParserFacts.no_eof_app in Hused.
    apply andb_prop in Hused as [_ Hused]. simpl in Hused.
    unfold is_eof in Hused. rewrite Heof in Hused. discriminate.
  - simpl in Hrest. apply negb_false_iff, TokenType_eqb_eq in Hrest.
    destruct (@PipelineFacts.first_eof_unique body used [] rest eof token)
      as (-> & _ & _); auto.
Qed.

(** On a stack without limit and on any token list, [parse] returns a
    tree after some tokens, none of them [EOF], or raises a syntax
    error. *)
Lemma parse_outcomes (tokens : list Token) :
  (exists e used rest,
     Parser.parse (Parser.init tokens) = Ok (e, parser_state used rest) /\
     tokens = used ++ rest /\ used <> [] /\ no_eof used = true /\
     starts_with (fun k => negb (TokenType_eqb k EOF)) rest = false)
  \/ (exists e,
     Parser.parse (Parser.init tokens) = Raise e /\ syntax_error tokens e).
Proof.
  unfold Parser.parse. rewrite ParserFacts.tokens_init_state.
  destruct (RunFacts.parse_expression_runs tokens)
    as [e used rest' Hr Hu Hs | e He]; cbn [bind app].
  - destruct rest' as [|token rest']; cbn [parser_state Parser.current_token
                                            hd_error].
    + left. exists e, used, []. repeat split; auto.
    + destruct (TokenType_eqb (type token) EOF) eqn:E; cbn [negb].
      * left. exists e, used, (token :: rest'). repeat split; auto.
        simpl. now rewrite E.
      * right. exists (ValueError (UnexpectedToken token)).
        split; [reflexivity|]. left. exists token.
        split; [|reflexivity]. rewrite Hr. apply in_or_app. right. now left.
  - right. now exists e.
Qed.

Lemma syntax_error_not_recursion (tokens : list Token) (e : exn) :
  syntax_error tokens e -> e <> RecursionError.
Proof.
  intros [(t & _ & ->) | [(t & _ & _ & ->) | [(_ & ->) | (_ & ->)]]];
    discriminate.
Qed.

Lemma parse_not_recursion (tokens : list Token) :
  Parser.parse (Parser.init tokens) <> Raise RecursionError.
Proof.
  destruct (parse_outcomes tokens)
    as [(e & used & rest & -> & _) | (e & -> & He)]; [discriminate|].
  intros [= ->]. now apply syntax_error_not_recursion in He.
Qed.

(** On a stack without limit, the tokens that spell a tree of the
    grammar give this tree: at the end of the list, and before an [EOF]
    token, whatever follows it. *)
Lemma parse_spelled_end (e : Expr) (tokens : list Token) :
  spells e tokens -> well_nested e = true ->
  Parser.parse (Parser.init tokens) = Ok (e, parser_state tokens []).
Proof.
  intros Hs Hw.
  destruct (GrammarFacts.parser_reads_grammar Hs Hw) as (_ & _ & He).
  pose proof (@GrammarFacts.expression_reads_all e tokens [] [] He
                eq_refl eq_refl) as H.
  rewrite app_nil_r in H. cbn [app] in H.
  now rewrite (@ErrorFacts.parse_at _ _ H).
Qed.

Lemma parse_spelled_eof (e : Expr) (tokens : list Token) (eof : Token)
  (rest : list Token) :
  spells e tokens -> well_nested e = true -> type eof = EOF ->
  Parser.parse (Parser.init (tokens ++ eof :: rest)) =
  Ok (e, parser_state tokens (eof :: rest)).
Proof.
  intros Hs Hw Hk.
  destruct (GrammarFacts.parser_reads_grammar Hs Hw) as (_ & _ & He).
  assert (Hm : starts_with Parser.is_multiplicative (eof :: rest) = false)
    by (simpl; now rewrite Hk).
  assert (Ha : starts_with Parser.is_additive (eof :: rest) = false)
    by (simpl; now rewrite Hk).
  pose proof (@GrammarFacts.expression_reads_all e tokens [] (eof :: rest)
                He Hm Ha) as H.
  cbn [app] in H. rewrite (@ErrorFacts.parse_at _ _ H). simpl.
  now rewrite Hk.
Qed.

End OutcomeFacts.

(** * The specification *)

(** C1 -- Precedence.  Whenever an additive operator stands between the
    tokens of a tree [l] of the grammar and the tokens of a term [r], which
    may be any chain of [*] and [/], the parser returns the additive node
    with [l] and [r] as its operands: the multiplicative subexpression is an
    operand of the additive node, on the right as on the left.  The text
    "2 + 3 * 4" is parsed as 2 + (3 * 4) and evaluates to 14, not to the 20
    of (2 + 3) * 4. *)
Theorem multiplication_binds_tighter :
  (forall l tl r tr op eof,
     spells l tl -> well_nested l = true ->
     spells r tr -> well_nested r = true -> 1 <= level r ->
     Parser.is_additive (type op) = true -> type eof = EOF ->
     Parser.parse (Parser.init (tl ++ op :: tr ++ [eof])) =
     Ok (Parser.fold_additive op l r, parser_state (tl ++ op :: tr) [eof]))
  /\ parse_expression_from_string "2 + 3 * 4" =
     Ok (Add (Num (PyInt 2)) (Multi (Num (PyInt 3)) (Num (PyInt 4))))
  /\ parse_expression_from_string "2 * 3 + 4" =
     Ok (Add (Multi (Num (PyInt 2)) (Num (PyInt 3))) (Num (PyInt 4)))
  /\ eval_value (Add (Num (PyInt 2)) (Multi (Num (PyInt 3)) (Num (PyInt 4))))
     = Value (Int 14)
  /\ eval_value (Multi (Par (Add (Num (PyInt 2)) (Num (PyInt 3))))
                       (Num (PyInt 4)))
     = Value (Int 20).
Proof.
  split; [|repeat split; vm_compute; reflexivity].
  intros l tl r tr op eof Hl Hwl Hr Hwr Hlr Hop Heof.
  replace (tl ++ op :: tr ++ [eof]) with ((tl ++ op :: tr) ++ [eof])
    by (rewrite <- app_assoc; reflexivity).
  apply PipelineFacts.parse_reads; [|exact Heof].
  apply GrammarFacts.expression_reads_fold; [| |exact Hop].
  - now apply GrammarFacts.parser_reads_grammar.
  - now apply GrammarFacts.parser_reads_grammar.
Qed.

Lemma multiplication_binds_tighter_witness :
  Parser.parse
    (Parser.init
       ([mkToken NUMBER (PyInt 2) 0] ++
        mkToken PLUS (PyStr "+") 2 ::
        [mkToken NUMBER (PyInt 3) 4; mkToken MULTIPLY (PyStr "*") 6;
         mkToken NUMBER (PyInt 4) 8] ++ [mkToken EOF PyNone 9])) =
  Ok (Add (Num (PyInt 2)) (Multi (Num (PyInt 3)) (Num (PyInt 4))),
      parser_state
        [mkToken NUMBER (PyInt 2) 0; mkToken PLUS (PyStr "+") 2;
         mkToken NUMBER (PyInt 3) 4; mkToken MULTIPLY (PyStr "*") 6;
         mkToken NUMBER (PyInt 4) 8]
        [mkToken EOF PyNone 9]).
Proof.
  apply (proj1 multiplication_binds_tighter
           (Num (PyInt 2)) [mkToken NUMBER (PyInt 2) 0]
           (Multi (Num (PyInt 3)) (Num (PyInt 4)))
           [mkToken NUMBER (PyInt 3) 4; mkToken MULTIPLY (PyStr "*") 6;
            mkToken NUMBER (PyInt 4) 8]
           (mkToken PLUS (PyStr "+") 2) (mkToken EOF PyNone 9)).
  - exact (spells_Num (mkToken NUMBER (PyInt 2) 0) eq_refl).
  - reflexivity.
  - exact (spells_Multi (mkToken MULTIPLY (PyStr "*") 6) eq_refl
             (spells_Num (mkToken NUMBER (PyInt 3) 4) eq_refl)
             (spells_Num (mkToken NUMBER (PyInt 4) 8) eq_refl)).
  - reflexivity.
  - simpl; lia.
  - reflexivity.
  - reflexivity.
Defined.

(** C2 -- Associativity.  In a chain of additive operators between terms,
    and in a chain of multiplicative operators between factors, the parser
    groups from the left: the tree is the fold of the chain from its first
    operand, each node folded being the left operand of the next one.  The
    text "8 - 3 - 2" is parsed as (8 - 3) - 2 and evaluates to 3, where
    8 - (3 - 2) would give 7. *)
Theorem operators_group_from_the_left :
  (forall first tfirst items eof,
     spells first tfirst -> well_nested first = true ->
     chain_of Parser.is_additive 1 items -> type eof = EOF ->
     Parser.parse (Parser.init (chain_tokens tfirst items ++ [eof])) =
     Ok (chain_tree Parser.fold_additive first items,
         parser_state (chain_tokens tfirst items) [eof]))
  /\ (forall first tfirst items eof,
     spells first tfirst -> well_nested first = true -> 1 <= level first ->
     chain_of Parser.is_multiplicative 2 items -> type eof = EOF ->
     Parser.parse (Parser.init (chain_tokens tfirst items ++ [eof])) =
     Ok (chain_tree Parser.fold_multiplicative first items,
         parser_state (chain_tokens tfirst items) [eof]))
  /\ (forall fold first items op e tokens,
     chain_tree fold first (items ++ [(op, e, tokens)]) =
     fold op (chain_tree fold first items) e)
  /\ parse_expression_from_string "8 - 3 - 2" =
     Ok (Minus (Minus (Num (PyInt 8)) (Num (PyInt 3))) (Num (PyInt 2)))
  /\ parse_expression_from_string "8 / 4 / 2" =
     Ok (Div (Div (Num (PyInt 8)) (Num (PyInt 4))) (Num (PyInt 2)))
  /\ eval_value (Minus (Minus (Num (PyInt 8)) (Num (PyInt 3))) (Num (PyInt 2)))
     = Value (Int 3)
  /\ eval_value (Minus (Num (PyInt 8)) (Par (Minus (Num (PyInt 3)) (Num (PyInt 2)))))
     = Value (Int 7).
Proof.
  split; [|split; [|split; [|repeat split; vm_compute; reflexivity]]].
  - intros first tfirst items eof Hs Hw Hc Heof.
    apply PipelineFacts.parse_reads; [|exact Heof].
    apply ChainFacts.additive_chain_reads; [|exact Hc].
    now apply GrammarFacts.parser_reads_grammar.
  - intros first tfirst items eof Hs Hw Hl Hc Heof.
    apply PipelineFacts.parse_reads; [|exact Heof].
    apply GrammarFacts.expression_reads_term.
    apply ChainFacts.multiplicative_chain_reads; [|exact Hc].
    now apply GrammarFacts.parser_reads_grammar.
  - intros. apply ChainFacts.chain_tree_snoc.
Qed.

Lemma operators_group_from_the_left_witness :
  Parser.parse
    (Parser.init
       (chain_tokens [mkToken NUMBER (PyInt 8) 0]
          [(mkToken MINUS (PyStr "-") 2, Num (PyInt 3),
            [mkToken NUMBER (PyInt 3) 4]);
           (mkToken MINUS (PyStr "-") 6, Num (PyInt 2),
            [mkToken NUMBER (PyInt 2) 8])] ++ [mkToken EOF PyNone 9])) =
  Ok (Minus (Minus (Num (PyInt 8)) (Num (PyInt 3))) (Num (PyInt 2)),
      parser_state
        [mkToken NUMBER (PyInt 8) 0; mkToken MINUS (PyStr "-") 2;
         mkToken NUMBER (PyInt 3) 4; mkToken MINUS (PyStr "-") 6;
         mkToken NUMBER (PyInt 2) 8]
        [mkToken EOF PyNone 9]).
Proof.
  apply (proj1 operators_group_from_the_left
           (Num (PyInt 8)) [mkToken NUMBER (PyInt 8) 0]
           [(mkToken MINUS (PyStr "-") 2, Num (PyInt 3),
             [mkToken NUMBER (PyInt 3) 4]);
            (mkToken MINUS (PyStr "-") 6, Num (PyInt 2),
             [mkToken NUMBER (PyInt 2) 8])]
           (mkToken EOF PyNone 9)).
  - exact (spells_Num (mkToken NUMBER (PyInt 8) 0) eq_refl).
  - reflexivity.
  - repeat constructor.
    + exact (spells_Num (mkToken NUMBER (PyInt 3) 4) eq_refl).
    + exact (spells_Num (mkToken NUMBER (PyInt 2) 8) eq_refl).
  - reflexivity.
Defined.

(** C3, as the code has it -- Numbers.  On a maximal run of digits and
    decimal points [read_number] takes the whole run, without checking how
    many decimal points it holds, and converts it: a run of decimal digits
    gives a [NUMBER] token holding the exact integer when it has no more
    digits than [int] takes (4300), and raises the [ValueError] of [int]
    when it has more; a run of decimal digits with one decimal point gives
    the token holding the binary64 number that [float] gives; and a run
    with two decimal points or more raises a [ValueError] and gives no
    token.  A text that is an integer literal of no more digits than [int]
    takes is parsed as the literal node of that integer (the decimal
    numeral of a natural number [n] as the literal node of [n]), a text
    that is a decimal literal as the literal node of that binary64
    number. *)
Theorem read_number_converts_the_run :
  (forall pre run post,
     all_chars Lexer.digit_or_dot run = true ->
     (forall c, head post = Some c -> Lexer.digit_or_dot c = false) ->
     Lexer.read_number (Lexer.state pre (run ++ post)) =
     (token <- Lexer.number_token run (String.length pre) ;;
      Ok (token, Lexer.state (pre ++ run) post)))
  /\ (forall run start_pos,
     run <> EmptyString -> Py.all_decimal run = true ->
     String.length run <= Py.int_max_str_digits ->
     Lexer.number_token run start_pos =
     Ok (mkToken NUMBER (PyInt (Py.decimal_value 0 run)) start_pos))
  /\ (forall run start_pos,
     Py.all_decimal run = true ->
     Py.int_max_str_digits < String.length run ->
     Lexer.number_token run start_pos =
     Raise (ValueError (ExceedsDigitLimit (String.length run))))
  /\ (forall ip fp start_pos,
     ip <> EmptyString -> Py.all_decimal ip = true ->
     Py.all_decimal fp = true ->
     Lexer.number_token (ip ++ String "." fp) start_pos =
     Ok (mkToken NUMBER (PyFloat (Py.decimal_float ip fp)) start_pos))
  /\ (forall run start_pos,
     2 <= occurrences "." run ->
     Lexer.number_token run start_pos =
     Raise (ValueError (InvalidFloatLiteral run)))
  /\ (forall s,
     s <> EmptyString -> Py.all_decimal s = true ->
     String.length s <= Py.int_max_str_digits ->
     parse_expression_from_string s = Ok (Num (PyInt (Py.decimal_value 0 s))))
  /\ (forall s,
     Py.all_decimal s = true -> Py.int_max_str_digits < String.length s ->
     parse_expression_from_string s =
     Raise (ValueError (ExceedsDigitLimit (String.length s))))
  /\ (forall ip fp,
     ip <> EmptyString -> Py.all_decimal ip = true ->
     Py.all_decimal fp = true ->
     parse_expression_from_string (ip ++ String "." fp) =
     Ok (Num (PyFloat (Py.decimal_float ip fp))))
  /\ (forall s c,
     Py.decimal_value 0 (s ++ String c "") =
     (10 * Py.decimal_value 0 s + Py.digit_value c)%Z)
  /\ (forall n : N,
     String.length (Py.str n) <= Py.int_max_str_digits ->
     parse_expression_from_string (Py.str n) = Ok (Num (PyInt (Z.of_N n)))).
Proof.
  split; [exact NumberFacts.read_number_run|].
  split; [intros; now apply number_token_decimal|].
  split; [intros; now apply number_token_too_long|].
  split; [intros; now apply NumberFacts.number_token_float|].
  split; [intros; now apply NumberFacts.number_token_two_points|].
  split; [exact PipelineFacts.parse_integer_literal|].
  split; [exact PipelineFacts.parse_long_integer_literal|].
  split; [exact PipelineFacts.parse_decimal_literal|].
  split; [intros s c; apply NumberFacts.decimal_value_snoc|].
  intros n Hlen.
  rewrite PipelineFacts.parse_integer_literal.
  - now rewrite NumberFacts.decimal_value_str.
  - apply NumberFacts.str_not_empty.
  - apply NumberFacts.all_decimal_of_uint.
  - exact Hlen.
Qed.

Lemma read_number_converts_the_run_witness :
  Lexer.read_number (Lexer.state "2 + " ("3.5" ++ " * 4")) =
  Ok (mkToken NUMBER (PyFloat 3.5) 4, Lexer.state ("2 + " ++ "3.5") " * 4").
Proof.
  rewrite (proj1 read_number_converts_the_run
             "2 + "%string "3.5"%string " * 4"%string).
  - vm_compute. reflexivity.
  - reflexivity.
  - intros c [= <-]. reflexivity.
Defined.

(** C3, as the specification has it, fails: the run "3..5" starts at a
    digit and holds a decimal point, and [read_number] gives no token for
    it, so that no literal node is built. *)
Lemma read_number_two_points_counterexample :
  all_chars Lexer.digit_or_dot "3..5" = true
  /\ Py.contains "." "3..5" = true
  /\ Lexer.read_number (Lexer.init "3..5") =
     Raise (ValueError (InvalidFloatLiteral "3..5"))
  /\ ~ (exists e, parse_expression_from_string "3..5" = Ok e).
Proof.
  repeat split; try (vm_compute; reflexivity).
  intros [e H]. vm_compute in H. discriminate.
Qed.

(** C4, as the code has it -- Outcomes.  For every text and whatever
    room the call stack has, [parse_expression_from_string] returns a tree,
    raises a [ValueError], or raises a [RecursionError]; it never runs out
    of fuel and never raises anything else.  A tree returned is a whole
    tree of the grammar: it spells all the tokens of the text before
    [EOF].  With room for three calls for each level of parentheses, and
    22 more, the outcome is that of a stack without limit: a tree or a
    [ValueError].  A text that starts with opening parentheses, a third as
    many as calls may still nest or more, and that the lexer takes, raises
    a [RecursionError].  The text "3..5", whose number holds two decimal
    points, raises the [ValueError] of the conversion. *)
Theorem parse_string_returns_or_raises :
  (forall room s,
     (exists e, Stack.parse_expression_from_string room s = Ok e)
     \/ (exists m,
          Stack.parse_expression_from_string room s = Raise (ValueError m))
     \/ Stack.parse_expression_from_string room s = Raise RecursionError)
  /\ (forall room s e,
     Stack.parse_expression_from_string room s = Ok e ->
     exists body eof l',
       Lexer.tokenize (Lexer.init s) = Ok (body ++ [eof], l') /\
       type eof = EOF /\ spells e body /\ well_nested e = true)
  /\ (forall room s,
     3 * depth s + 6 + spare_room <= room ->
     Stack.parse_expression_from_string room s =
     parse_expression_from_string s /\
     ((exists e, Stack.parse_expression_from_string room s = Ok e)
      \/ (exists m,
           Stack.parse_expression_from_string room s =
           Raise (ValueError m))))
  /\ (forall room k rest,
     lexable rest -> room <= 3 * k + 2 ->
     Stack.parse_expression_from_string room (replicate k "(" ++ rest) =
     Raise RecursionError)
  /\ (forall room,
     6 + spare_room <= room ->
     Stack.parse_expression_from_string room "3..5" =
     Raise (ValueError (InvalidFloatLiteral "3..5"))).
Proof.
  split; [|split; [|split; [|split]]].
  - intros room s.
    destruct (StackStringFacts.string_refines room s) as [-> | ->];
      [|now right; right].
    destruct (PipelineFacts.parse_expression_from_string_cases s)
      as [H | H]; [now left | now right; left].
  - intros room s e H.
    apply (StackFacts.refines_Ok (StackStringFacts.string_refines room s))
      in H.
    now apply OutcomeFacts.string_whole_tree.
  - intros room s Hr.
    rewrite StackStringFacts.string_enough by lia.
    split; [reflexivity|].
    apply PipelineFacts.parse_expression_from_string_cases.
  - intros room k rest. apply StackStringFacts.string_deep.
  - intros room Hr.
    rewrite StackStringFacts.string_enough by (simpl; lia).
    vm_compute. reflexivity.
Qed.

Lemma parse_string_returns_or_raises_witness :
  Stack.parse_expression_from_string 40 "(1 + 2) * 3" =
  parse_expression_from_string "(1 + 2) * 3" /\
  ((exists e, Stack.parse_expression_from_string 40 "(1 + 2) * 3" = Ok e)
   \/ (exists m,
        Stack.parse_expression_from_string 40 "(1 + 2) * 3" =
        Raise (ValueError m))).
Proof.
  apply (proj1 (proj2 (proj2 parse_string_returns_or_raises))
           40 "(1 + 2) * 3"%string).
  apply Nat.leb_le. reflexivity.
Defined.

(** C4, as the specification has it, fails: under the recursion limit of
    the interpreter, a number within 400 pairs of parentheses raises a
    [RecursionError], which is no tree and no syntax or lexical error,
    although the text is well formed. *)
Lemma parse_string_deep_nesting_counterexample :
  Stack.parse_expression_from_string recursion_limit
    (replicate 400 "(" ++ "1" ++ replicate 400 ")") =
  Raise RecursionError
  /\ ~ ((exists e,
           Stack.parse_expression_from_string recursion_limit
             (replicate 400 "(" ++ "1" ++ replicate 400 ")") = Ok e)
        \/ (exists m,
           Stack.parse_expression_from_string recursion_limit
             (replicate 400 "(" ++ "1" ++ replicate 400 ")") =
           Raise (ValueError m)))
  /\ lexable (replicate 400 "(" ++ "1" ++ replicate 400 ")").
Proof.
  assert (Hrest : lexable ("1" ++ replicate 400 ")")).
  { apply lexable_number.
    - left. repeat split; [discriminate | apply Nat.leb_le; reflexivity].
    - intros c [= <-]. reflexivity.
    - rewrite <- (append_nil_r (replicate 400 ")")).
      now apply StackStringFacts.lexable_replicate with (k := RPAREN);
        [|constructor]. }
  assert (H : Stack.parse_expression_from_string recursion_limit
                (replicate 400 "(" ++ "1" ++ replicate 400 ")") =
              Raise RecursionError).
  { apply StackStringFacts.string_deep; [exact Hrest|].
    apply Nat.leb_le. reflexivity. }
  split; [exact H|]. split.
  - rewrite H. intros [[e He] | [m Hm]]; discriminate.
  - now apply StackStringFacts.lexable_replicate with (k := LPAREN).
Qed.

(** C5 -- Division by zero.  Parsing does not look at the operands of a
    division: the tokens of a term, a [/] and the tokens of a factor give
    the division node of the two trees, and "5 / 0" gives the node of 5 and
    0.  Evaluating a division node whose operands both have a value, the
    right one zero, integer or decimal, gives [DivisionByZero]. *)
Theorem division_by_zero_at_evaluation :
  (forall l tl r tr op eof,
     spells l tl -> well_nested l = true -> 1 <= level l ->
     spells r tr -> well_nested r = true -> 2 <= level r ->
     type op = DIVIDE -> type eof = EOF ->
     Parser.parse (Parser.init (tl ++ op :: tr ++ [eof])) =
     Ok (Div l r, parser_state (tl ++ op :: tr) [eof]))
  /\ parse_expression_from_string "5 / 0" =
     Ok (Div (Num (PyInt 5)) (Num (PyInt 0)))
  /\ (forall l r a z,
     eval_value l = Value a -> eval_value r = Value z -> is_zero z = true ->
     eval_value (Div l r) = DivisionByZero)
  /\ eval_value (Div (Num (PyInt 5)) (Num (PyInt 0))) = DivisionByZero
  /\ eval_value (Div (Num (PyInt 5)) (Num (PyFloat 0))) = DivisionByZero.
Proof.
  split; [|split; [vm_compute; reflexivity|
                   split; [|split; vm_compute; reflexivity]]].
  - intros l tl r tr op eof Hl Hwl Hll Hr Hwr Hlr Hop Heof.
    replace (tl ++ op :: tr ++ [eof]) with ((tl ++ op :: tr) ++ [eof])
      by (rewrite <- app_assoc; reflexivity).
    apply PipelineFacts.parse_spelled; [|cbn [well_nested]|exact Heof].
    + now constructor.
    + rewrite Hwl, Hwr. cbn [andb].
      apply andb_true_intro; split; apply Nat.leb_le; lia.
  - intros l r a z Hl Hr Hz. simpl. rewrite Hl, Hr. simpl.
    unfold divide. now rewrite Hz.
Qed.

Lemma division_by_zero_at_evaluation_witness :
  eval_value (Div (Par (Add (Num (PyInt 1)) (Num (PyInt 2))))
                  (Minus (Num (PyInt 3)) (Num (PyInt 3)))) = DivisionByZero.
Proof.
  apply (proj1 (proj2 (proj2 division_by_zero_at_evaluation))
           (Par (Add (Num (PyInt 1)) (Num (PyInt 2))))
           (Minus (Num (PyInt 3)) (Num (PyInt 3))) (Int 3) (Int 0));
    reflexivity.
Defined.

(** C6 -- Invalid characters.  When the next character after blanks is
    not a blank, not a digit and not one of [+ - * / ( )],
    [get_next_token] raises the [ValueError] that carries this character
    and its offset in the text, counted from zero.  Lexing "3 & 4" raises
    it for [&] at offset 2. *)
Theorem invalid_character_is_reported :
  (forall pre ws c rest,
     all_chars Py.isspace ws = true ->
     Py.isspace c = false -> Py.isdigit c = false ->
     ~ In c operator_chars ->
     Lexer.get_next_token (Lexer.state pre (ws ++ String c rest)) =
     Raise (ValueError (InvalidCharacter c (String.length (pre ++ ws))))
     /\ String.get (String.length (pre ++ ws)) (pre ++ ws ++ String c rest)
        = Some c)
  /\ Lexer.get_next_token (Lexer.mk "3 & 4" 2 (Some "&"%char)) =
     Raise (ValueError (InvalidCharacter "&" 2))
  /\ Lexer.tokenize (Lexer.init "3 & 4") =
     Raise (ValueError (InvalidCharacter "&" 2))
  /\ parse_expression_from_string "3 & 4" =
     Raise (ValueError (InvalidCharacter "&" 2)).
Proof.
  split; [|repeat split; vm_compute; reflexivity].
  intros pre ws c rest Hws Hsp Hd Hop. split.
  - rewrite LexerFacts.get_next_token_state. unfold Lexer.next.
    destruct (take_while_run Py.isspace ws (String c rest) Hws) as [-> ->].
    { intros d [= <-]. exact Hsp. }
    now rewrite Hd, (operator_chars_None Hop).
  - rewrite <- append_assoc. apply get_append_length.
Qed.

Lemma invalid_character_is_reported_witness :
  Lexer.get_next_token (Lexer.state "3" (" " ++ String "&" " 4")) =
  Raise (ValueError (InvalidCharacter "&" (String.length ("3" ++ " ")))).
Proof.
  apply (proj1 invalid_character_is_reported
           "3"%string " "%string "&"%char " 4"%string).
  - reflexivity.
  - reflexivity.
  - reflexivity.
  - simpl. intros H.
    repeat (destruct H as [H | H]; [discriminate H|]). exact H.
Defined.

(** C7 -- [expect].  [expect] consumes the current token and returns it
    exactly when its kind is the kind asked for; otherwise it raises the
    [ValueError] that names the kind asked for and the kind found, or
    ["EOF"] when no token is left; the names tell the kinds apart.  Parsing
    "(1 + 2" raises it for the kind [RPAREN]. *)
Theorem expect_consumes_or_reports :
  (forall p k token,
     Parser.current_token p = Some token -> type token = k ->
     Parser.expect p k = Ok (token, Parser.advance p))
  /\ (forall p k token,
     Parser.current_token p = Some token -> type token <> k ->
     Parser.expect p k =
     Raise (ValueError (ExpectedGot (TokenType_value k)
                                    (TokenType_value (type token)))))
  /\ (forall p k,
     Parser.current_token p = None ->
     Parser.expect p k =
     Raise (ValueError (ExpectedGot (TokenType_value k) "EOF")))
  /\ (forall p k token p',
     Parser.expect p k = Ok (token, p') ->
     Parser.current_token p = Some token /\ type token = k /\
     p' = Parser.advance p)
  /\ (forall a b, TokenType_value a = TokenType_value b -> a = b)
  /\ parse_expression_from_string "(1 + 2" =
     Raise (ValueError (ExpectedGot "RPAREN" "EOF")).
Proof.
  repeat split; try (vm_compute; reflexivity).
  - intros p k token Hc Hk. unfold Parser.expect. rewrite Hc.
    apply TokenType_eqb_eq in Hk. now rewrite Hk.
  - intros p k token Hc Hk. unfold Parser.expect. rewrite Hc.
    apply TokenType_eqb_neq in Hk. now rewrite Hk.
  - intros p k Hc. unfold Parser.expect. now rewrite Hc.
  - unfold Parser.expect in H.
    destruct (Parser.current_token p) as [tok|]; [|discriminate].
    destruct (TokenType_eqb (type tok) k); [|discriminate].
    now injection H as -> _.
  - unfold Parser.expect in H.
    destruct (Parser.current_token p) as [tok|]; [|discriminate].
    destruct (TokenType_eqb (type tok) k) eqn:E; [|discriminate].
    injection H as <- _. now apply TokenType_eqb_eq.
  - unfold Parser.expect in H.
    destruct (Parser.current_token p) as [tok|]; [|discriminate].
    destruct (TokenType_eqb (type tok) k); [|discriminate].
    now injection H as _ <-.
  - exact TokenType_value_inj.
Qed.

Lemma expect_consumes_or_reports_witness :
  Parser.expect
    (Parser.init [mkToken RPAREN (PyStr ")") 0; mkToken EOF PyNone 1]) RPAREN =
  Ok (mkToken RPAREN (PyStr ")") 0,
      Parser.advance
        (Parser.init [mkToken RPAREN (PyStr ")") 0; mkToken EOF PyNone 1])).
Proof.
  apply (proj1 expect_consumes_or_reports); reflexivity.
Defined.

(** C8 -- End of input.  On a token list that holds its [EOF] token,
    [parse] returns a tree only with the cursor on an [EOF] token, after
    [parse_expression] has returned this tree; and whenever
    [parse_expression] returns with the cursor on a token that is not [EOF],
    [parse] raises the [ValueError] of this unexpected token and returns no
    tree.  Parsing "1 2" raises it for the second number. *)
Theorem parse_stops_at_end_of_input :
  (forall tokens e p',
     has_eof tokens = true ->
     Parser.parse (Parser.init tokens) = Ok (e, p') ->
     Parser.parse_expression (Parser.fuel (Parser.init tokens))
                             (Parser.init tokens) = Ok (e, p') /\
     exists eof, Parser.current_token p' = Some eof /\ type eof = EOF)
  /\ (forall tokens e p1 token,
     Parser.parse_expression (Parser.fuel (Parser.init tokens))
                             (Parser.init tokens) = Ok (e, p1) ->
     Parser.current_token p1 = Some token -> type token <> EOF ->
     Parser.parse (Parser.init tokens) =
     Raise (ValueError (UnexpectedToken token)))
  /\ parse_expression_from_string "1 2" =
     Raise (ValueError (UnexpectedToken (mkToken NUMBER (PyInt 2) 2))).
Proof.
  split; [|split; [|vm_compute; reflexivity]].
  - intros tokens e p' Heof H.
    destruct (ParserFacts.parse_has_eof tokens Heof)
      as [(e0 & p0 & eof & H0 & Hc & Hk) | (m & H0)];
      rewrite H0 in H; [|discriminate].
    injection H as <- <-. split; [|eauto].
    unfold Parser.parse in H0.
    apply SoundFacts.bind_Ok in H0 as ([e1 p1] & H1 & H2).
    rewrite H1. destruct (Parser.current_token p1) as [token|].
    + destruct (negb (TokenType_eqb (type token) EOF)); [discriminate|].
      exact H2.
    + exact H2.
  - intros tokens e p1 token H Hc Hk. unfold Parser.parse.
    rewrite H. simpl. rewrite Hc.
    apply TokenType_eqb_neq in Hk. now rewrite Hk.
Qed.

Lemma parse_stops_at_end_of_input_witness :
  Parser.parse_expression
    (Parser.fuel (Parser.init [mkToken NUMBER (PyInt 7) 0; mkToken EOF PyNone 1]))
    (Parser.init [mkToken NUMBER (PyInt 7) 0; mkToken EOF PyNone 1]) =
  Ok (Num (PyInt 7),
      parser_state [mkToken NUMBER (PyInt 7) 0] [mkToken EOF PyNone 1])
  /\ exists eof,
       Parser.current_token
         (parser_state [mkToken NUMBER (PyInt 7) 0] [mkToken EOF PyNone 1]) =
       Some eof /\ type eof = EOF.
Proof.
  apply (proj1 parse_stops_at_end_of_input
           [mkToken NUMBER (PyInt 7) 0; mkToken EOF PyNone 1]);
    reflexivity.
Defined.

(** C9, as the code has it -- The token list.  On every text [tokenize]
    returns a token list or raises a [ValueError].  It returns exactly on
    the texts of blanks, operator characters and numbers, a number being
    written as decimal digits, 4300 at most, or as decimal digits with one
    decimal point after the first of them.  A list returned holds tokens
    that are not [EOF], in the order of the text, each standing in the text
    at its position, then one [EOF] token, the last and the only one of the
    list. *)
Theorem tokenize_ends_with_one_eof :
  (forall s,
     (exists tokens l', Lexer.tokenize (Lexer.init s) = Ok (tokens, l'))
     \/ (exists m, Lexer.tokenize (Lexer.init s) = Raise (ValueError m)))
  /\ (forall s,
     lexable s <->
     exists tokens l', Lexer.tokenize (Lexer.init s) = Ok (tokens, l'))
  /\ (forall s tokens l',
     Lexer.tokenize (Lexer.init s) = Ok (tokens, l') ->
     eof_terminated tokens /\
     List.length (filter is_eof tokens) = 1 /\
     Forall (token_at s) tokens /\
     Sorted.StronglySorted lt (map position tokens)).
Proof.
  split; [|split].
  - intros s. rewrite TokenizeFacts.tokenize_init_fuel.
    destruct (TokenizeFacts.tokenize_loop_total (n := String.length s + 2)
                s [] "" ltac:(lia)) as [(tokens & pre' & H) | (m & H)];
      [left | right]; eauto.
  - intros s. rewrite TokenizeFacts.tokenize_init_fuel. split.
    + intros Hs.
      destruct (@LexableFacts.lexable_tokenize_loop s Hs
                  (String.length s + 2) [] ""%string ltac:(lia))
        as [tokens H].
      eauto.
    + intros (tokens & l' & H).
      exact (LexableFacts.tokenize_loop_lexable _ _ _ _ H).
  - intros s tokens l' H.
    pose proof (TokenizeFacts.tokenize_eof_terminated _ H) as Hshape.
    rewrite TokenizeFacts.tokenize_init_fuel in H.
    apply TextFacts.tokenize_loop_text in H as (new & E & Hnew & Hinc & _).
    cbn [app] in E. subst new.
    split; [exact Hshape|]. split; [|split; [exact Hnew|]].
    + destruct Hshape as (body & eof & -> & Hk & Hb).
      rewrite filter_app. simpl. unfold is_eof at 2. rewrite Hk. simpl.
      rewrite length_app. simpl.
      replace (filter is_eof body) with (@nil Token); [reflexivity|].
      symmetry. clear -Hb. induction body as [|token body IH]; [reflexivity|].
      simpl in *. apply andb_prop in Hb as [H1 H2].
      apply negb_true_iff in H1. rewrite H1. auto.
    + now apply TextFacts.increasing_sorted in Hinc.
Qed.

Lemma tokenize_ends_with_one_eof_witness :
  exists tokens l',
    Lexer.tokenize (Lexer.init "(12 + 21.7) * 3") = Ok (tokens, l').
Proof.
  apply (proj1 (proj1 (proj2 tokenize_ends_with_one_eof)
                  "(12 + 21.7) * 3"%string)).
  apply lexable_operator with (k := LPAREN); [reflexivity|].
  apply (@lexable_number "12"%string " + 21.7) * 3"%string).
  { left. repeat split; [discriminate | apply Nat.leb_le; reflexivity]. }
  { intros c [= <-]. reflexivity. }
  apply lexable_blank; [reflexivity|].
  apply lexable_operator with (k := PLUS); [reflexivity|].
  apply lexable_blank; [reflexivity|].
  apply (@lexable_number "21.7"%string ") * 3"%string).
  { right. exists "21"%string, "7"%string.
    repeat split; discriminate. }
  { intros c [= <-]. reflexivity. }
  apply lexable_operator with (k := RPAREN); [reflexivity|].
  apply lexable_blank; [reflexivity|].
  apply lexable_operator with (k := MULTIPLY); [reflexivity|].
  apply lexable_blank; [reflexivity|].
  apply (@lexable_number "3"%string ""%string).
  { left. repeat split; [discriminate | apply Nat.leb_le; reflexivity]. }
  { discriminate. }
  apply lexable_end.
Defined.

(** C9, as the specification has it, fails: a text of 4301 digits holds
    recognized characters only, and [tokenize] returns no token list for
    it, since [int] refuses more than 4300 digits. *)
Lemma tokenize_long_number_counterexample :
  all_chars Lexer.recognized (replicate 4301 "1") = true
  /\ Lexer.tokenize (Lexer.init (replicate 4301 "1")) =
     Raise (ValueError (ExceedsDigitLimit 4301))
  /\ ~ (exists tokens l',
          Lexer.tokenize (Lexer.init (replicate 4301 "1")) = Ok (tokens, l')).
Proof.
  assert (H : Lexer.tokenize (Lexer.init (replicate 4301 "1")) =
              Raise (ValueError (ExceedsDigitLimit 4301))).
  { rewrite LexableFacts.tokenize_long_number.
    - now rewrite LexableFacts.length_replicate.
    - now apply LexableFacts.all_chars_replicate.
    - rewrite LexableFacts.length_replicate.
      apply Nat.ltb_lt. reflexivity. }
  split; [now apply LexableFacts.all_chars_replicate|].
  split; [exact H|].
  intros (tokens & l' & H'). congruence.
Qed.

(** C10 -- Empty input.  On the empty text and on a text of blanks,
    [tokenize] returns the [EOF] token alone and
    [parse_expression_from_string] returns no tree: [parse_factor] raises
    the [ValueError] of this unexpected token. *)
Theorem blank_text_is_rejected (s : string) :
  all_chars Py.isspace s = true ->
  Lexer.tokenize (Lexer.init s) =
  Ok ([mkToken EOF PyNone (String.length s)], Lexer.state s "")
  /\ Parser.parse_factor 1
       (Parser.init [mkToken EOF PyNone (String.length s)]) =
     Raise (ValueError
              (UnexpectedToken (mkToken EOF PyNone (String.length s))))
  /\ parse_expression_from_string s =
     Raise (ValueError
              (UnexpectedToken (mkToken EOF PyNone (String.length s)))).
Proof.
  intros Hs. split; [now apply TokenizeFacts.tokenize_blank|].
  split; [reflexivity|].
  unfold parse_expression_from_string.
  rewrite TokenizeFacts.tokenize_blank by exact Hs. reflexivity.
Qed.

Lemma blank_text_is_rejected_witness :
  Lexer.tokenize (Lexer.init "   ") =
  Ok ([mkToken EOF PyNone 3], Lexer.state "   " "")
  /\ Parser.parse_factor 1 (Parser.init [mkToken EOF PyNone 3]) =
     Raise (ValueError (UnexpectedToken (mkToken EOF PyNone 3)))
  /\ parse_expression_from_string "   " =
     Raise (ValueError (UnexpectedToken (mkToken EOF PyNone 3))).
Proof.
  apply (blank_text_is_rejected "   "). reflexivity.
Defined.

(** * The code beyond its specification *)

(** X1 -- [skip_whitespace] (with [advance]).  From any place of a text,
    [skip_whitespace] returns, leaves the text as it is and moves the
    cursor over the blanks, onto the first character that is no blank or
    to the end of the text; done again, it changes nothing. *)
Theorem skip_whitespace_stops_at_first_non_blank (pre s : string) :
  exists l',
    Lexer.skip_whitespace (Lexer.state pre s) = Ok l' /\
    Lexer.text l' = (pre ++ s)%string /\
    Lexer.position l' =
      String.length pre + String.length (take_while Py.isspace s) /\
    Lexer.current_char l' = head (drop_while Py.isspace s) /\
    (forall c, Lexer.current_char l' = Some c -> Py.isspace c = false) /\
    Lexer.skip_whitespace l' = Ok l'.
Proof.
  exists (Lexer.state (pre ++ take_while Py.isspace s)
                      (drop_while Py.isspace s)).
  split; [apply LexerFacts.skip_whitespace_state|].
  split; [simpl; now rewrite append_assoc, take_drop_while|].
  split; [simpl; apply length_append|].
  split; [reflexivity|].
  split; [simpl; intros c; apply head_drop_while|].
  rewrite LexerFacts.skip_whitespace_state.
  rewrite LexerFacts.drop_while_idem.
  assert (H : take_while Py.isspace (drop_while Py.isspace s) = EmptyString).
  { destruct (drop_while Py.isspace s) as [|c r] eqn:E; [reflexivity|].
    simpl. now rewrite (head_drop_while Py.isspace s (c := c))
      by (rewrite E; reflexivity). }
  now rewrite H, append_nil_r.
Qed.



(** X3 -- [tokenize], [advance].  The positions of the tokens that
    [tokenize] returns go up strictly, and [tokenize] leaves the lexer at
    the end of the text, with no current character. *)
Theorem token_positions_increase (s : string) (tokens : list Token)
  (l' : Lexer.t) :
  Lexer.tokenize (Lexer.init s) = Ok (tokens, l') ->
  Sorted.StronglySorted lt (map position tokens) /\
  l' = Lexer.mk s (String.length s) None.
Proof.
  rewrite TokenizeFacts.tokenize_init_fuel. intros H.
  apply TextFacts.tokenize_loop_text in H as (new & -> & _ & Hinc & ->).
  split.
  - now apply TextFacts.increasing_sorted in Hinc.
  - unfold Lexer.state. simpl. now rewrite append_nil_r.
Qed.

Lemma token_positions_increase_witness :
  Sorted.StronglySorted lt
    (map position
       [mkToken NUMBER (PyInt 8) 0; mkToken MINUS (PyStr "-") 2;
        mkToken NUMBER (PyInt 3) 4; mkToken EOF PyNone 7])
  /\ Lexer.mk "8 - 3  " 7 None = Lexer.mk "8 - 3  " (String.length "8 - 3  ") None.
Proof.
  apply (@token_positions_increase "8 - 3  ").
  vm_compute. reflexivity.
Defined.

(** X4 -- [tokenize], [get_next_token].  [tokenize] stops at the first
    invalid character: after a text that [tokenize] takes when it stands
    alone, a character that is no blank, no digit, no decimal point and no
    operator makes it raise the [ValueError] of this character and of its
    offset, whatever follows. *)
Theorem tokenize_stops_at_first_invalid_character
  (good : string) (c : ascii) (rest : string)
  (tokens : list Token) (l' : Lexer.t) :
  Lexer.tokenize (Lexer.init good) = Ok (tokens, l') ->
  Py.isspace c = false -> Lexer.digit_or_dot c = false ->
  Lexer.operator c = None ->
  Lexer.tokenize (Lexer.init (good ++ String c rest)) =
  Raise (ValueError (InvalidCharacter c (String.length good))).
Proof.
  rewrite !TokenizeFacts.tokenize_init_fuel. intros H Hsp Hdd Hop.
  apply (LexicalErrorFacts.tokenize_loop_first_invalid
           _ _ _ c rest H Hsp Hdd Hop).
  rewrite length_append. lia.
Qed.

Lemma tokenize_stops_at_first_invalid_character_witness :
  Lexer.tokenize (Lexer.init ("(12 + 7.5) * " ++ String "x" " & y")) =
  Raise (ValueError (InvalidCharacter "x" (String.length "(12 + 7.5) * "))).
Proof.
  eapply tokenize_stops_at_first_invalid_character;
    [vm_compute; reflexivity | reflexivity ..].
Defined.

(** X5 -- [tokenize], [get_next_token], [read_number].  On every text
    [tokenize] returns its tokens, or raises a [ValueError] at a place of
    the text: for the character found there, which is no blank, no digit
    and no operator, with its offset; or for the run of digits and decimal
    points that starts there and that [int] or [float] refuses. *)
Theorem tokenize_returns_or_points_at_the_error (s : string) :
  (exists tokens,
     Lexer.tokenize (Lexer.init s) = Ok (tokens, Lexer.state s ""))
  \/ (exists e before after,
     Lexer.tokenize (Lexer.init s) = Raise e /\
     s = (before ++ after)%string /\ lexical_error before after e).
Proof.
  rewrite TokenizeFacts.tokenize_init_fuel.
  destruct (Lexer.tokenize_loop (String.length s + 2) [] (Lexer.state "" s))
    as [[tokens l']| e |] eqn:E.
  - left. exists tokens.
    apply TextFacts.tokenize_loop_text in E as (new & _ & _ & _ & ->).
    reflexivity.
  - right. apply LexicalErrorFacts.tokenize_loop_raise in E
      as (before & after & Htext & _ & Herr).
    exists e, before, after. auto.
  - exfalso.
    destruct (TokenizeFacts.tokenize_loop_total (n := String.length s + 2)
                s [] "" ltac:(lia)) as [(tokens & pre' & H) | (m & H)];
      congruence.
Qed.

(** X6 -- [parse_expression_from_string], [skip_whitespace].  Blanks
    before and after a text change the offsets only: the tokens are the
    same up to their positions, and the outcome is the same tree, or the
    same exception up to the offsets it reports. *)
Theorem blanks_around_change_offsets_only (ws1 s ws2 : string) :
  all_chars Py.isspace ws1 = true -> all_chars Py.isspace ws2 = true ->
  same_tokens (Lexer.tokenize (Lexer.init s))
              (Lexer.tokenize (Lexer.init (ws1 ++ s ++ ws2)))
  /\ same_result (parse_expression_from_string s)
                 (parse_expression_from_string (ws1 ++ s ++ ws2)).
Proof.
  intros H1 H2.
  pose proof (@StripFacts.tokenize_blanks ws1 s ws2 H1 H2) as H.
  split; [exact H | now apply StripFacts.parse_string_same].
Qed.

Lemma blanks_around_change_offsets_only_witness :
  same_tokens (Lexer.tokenize (Lexer.init "2*(3+4)"))
              (Lexer.tokenize (Lexer.init ("  " ++ "2*(3+4)" ++ " ")))
  /\ same_result (parse_expression_from_string "2*(3+4)")
                 (parse_expression_from_string ("  " ++ "2*(3+4)" ++ " ")).
Proof.
  apply blanks_around_change_offsets_only; reflexivity.
Defined.

(** X7 -- [parse_expression_from_file].  A file that cannot be read gives
    no outcome of the parser.  A file that is read is parsed without the
    blanks around its text, which changes the offsets only: the outcome is
    the tree of the whole text, or its exception up to offsets.  A file of
    blanks is refused, for the [EOF] token at offset 0. *)
Theorem parse_file_is_parse_string_up_to_offsets
  (read : string -> option string) (filename : string) :
  (read filename = None ->
   parse_expression_from_file read filename = None)
  /\ (forall text,
        read filename = Some text ->
        parse_expression_from_file read filename =
          Some (parse_expression_from_string (strip text)) /\
        same_result (parse_expression_from_string (strip text))
                    (parse_expression_from_string text))
  /\ (forall text,
        read filename = Some text -> all_chars Py.isspace text = true ->
        parse_expression_from_file read filename =
        Some (Raise (ValueError (UnexpectedToken (mkToken EOF PyNone 0))))).
Proof.
  unfold parse_expression_from_file. split; [|split].
  - now intros ->.
  - intros text ->. split; [reflexivity|].
    destruct (StripFacts.strip_blanks text) as (ws1 & ws2 & E & H1 & H2).
    rewrite E at 2. apply StripFacts.parse_string_same.
    now apply StripFacts.tokenize_blanks.
  - intros text -> Hblank. unfold strip.
    destruct (take_while_all Py.isspace text Hblank) as [_ ->].
    reflexivity.
Qed.

Lemma parse_file_is_parse_string_up_to_offsets_witness :
  parse_expression_from_file
    (fun name => if String.eqb name "expr.txt" then Some "  1 + 2 "%string else None)
    "expr.txt" =
  Some (parse_expression_from_string (strip "  1 + 2 "))
  /\ same_result (parse_expression_from_string (strip "  1 + 2 "))
                 (parse_expression_from_string "  1 + 2 ").
Proof.
  apply (proj1 (proj2 (parse_file_is_parse_string_up_to_offsets
           (fun name => if String.eqb name "expr.txt"
                        then Some "  1 + 2 "%string else None)
           "expr.txt"))).
  reflexivity.
Defined.

(** X8 -- [Parser], all productions.  The parser reads the kinds of the
    tokens and the values of the numbers, never a position: on two token
    lists that are the same up to positions, [parse] returns the same tree
    with the cursor at the same place, or raises the same exception up to
    the position of the token it reports. *)
Theorem parser_ignores_positions (tokens1 tokens2 : list Token) :
  Forall2 same_token tokens1 tokens2 ->
  same_parse (Parser.parse (Parser.init tokens1))
             (Parser.parse (Parser.init tokens2)).
Proof. exact (@OffsetFacts.parse_same_tokens tokens1 tokens2). Qed.

Lemma parser_ignores_positions_witness :
  same_parse
    (Parser.parse (Parser.init [mkToken NUMBER (PyInt 1) 0;
                                mkToken PLUS (PyStr "+") 1;
                                mkToken NUMBER (PyInt 2) 2;
                                mkToken EOF PyNone 3]))
    (Parser.parse (Parser.init [mkToken NUMBER (PyInt 1) 4;
                                mkToken PLUS (PyStr "+") 9;
                                mkToken NUMBER (PyInt 2) 11;
                                mkToken EOF PyNone 20])).
Proof.
  apply parser_ignores_positions.
  repeat constructor.
Defined.

(** X9 -- [parse], [parse_expression], [parse_term], [parse_factor],
    [expect].  On every token list, with or without an [EOF] token, and
    whatever room the call stack has, [parse] returns or raises.  A tree is
    returned with the cursor after the tokens used, of which there is one at
    least and none is [EOF], and with no token or an [EOF] token to come.
    An exception is a syntax error or a [RecursionError].  A syntax error
    is the [ValueError] of a token of the list, or of a kind found where
    [RPAREN] is expected; the [ValueError] that finds "EOF" for want of any
    token, and the [AttributeError] of [parse_factor] on no token at all,
    only on a list that holds no [EOF] token.  With room for three calls
    for each level of parentheses, and 21 more, the outcome is that of a
    stack without limit and no [RecursionError]; on a list that starts with
    opening parentheses, a third as many as calls may still nest or more,
    it is a [RecursionError]. *)
Theorem parse_returns_a_tree_or_a_syntax_error :
  (forall room tokens,
     (exists e used rest,
        StackParser.parse room (Parser.init tokens) =
        Ok (e, parser_state used rest) /\
        tokens = used ++ rest /\ used <> [] /\ no_eof used = true /\
        starts_with (fun k => negb (TokenType_eqb k EOF)) rest = false)
     \/ (exists e,
        StackParser.parse room (Parser.init tokens) = Raise e /\
        syntax_error tokens e)
     \/ StackParser.parse room (Parser.init tokens) = Raise RecursionError)
  /\ (forall room tokens,
     3 * nesting tokens + 5 + spare_room <= room ->
     StackParser.parse room (Parser.init tokens) =
     Parser.parse (Parser.init tokens) /\
     StackParser.parse room (Parser.init tokens) <> Raise RecursionError)
  /\ (forall room lps rest,
     Forall (fun token => type token = LPAREN) lps ->
     room <= 3 * List.length lps + 1 ->
     StackParser.parse room (Parser.init (lps ++ rest)) =
     Raise RecursionError).
Proof.
  split; [|split].
  - intros room tokens.
    destruct (StackParserFacts.parse_refines_all room (Parser.init tokens))
      as [-> | ->]; [|now right; right].
    destruct (OutcomeFacts.parse_outcomes tokens) as [H | H];
      [now left | now right; left].
  - intros room tokens Hr.
    rewrite StackParserFacts.parse_enough_all by lia.
    split; [reflexivity | apply OutcomeFacts.parse_not_recursion].
  - intros room lps rest Hall Hr. unfold StackParser.parse.
    destruct room as [|inside]; [reflexivity|]. cbn [call].
    rewrite ParserFacts.tokens_init_state.
    rewrite StackParserFacts.parse_deep; [reflexivity | exact Hall | lia |].
    unfold Parser.fuel. cbn [parser_state Parser.tokens app].
    rewrite length_app. lia.
Qed.

Lemma parse_returns_a_tree_or_a_syntax_error_witness :
  StackParser.parse 4
    (Parser.init ([mkToken LPAREN (PyStr "(") 0] ++
                  [mkToken NUMBER (PyInt 1) 1; mkToken RPAREN (PyStr ")") 2;
                   mkToken EOF PyNone 3])) =
  Raise RecursionError.
Proof.
  apply (proj2 (proj2 parse_returns_a_tree_or_a_syntax_error) 4
           [mkToken LPAREN (PyStr "(") 0]).
  - repeat constructor.
  - simpl. lia.
Defined.

(** X10 -- [parse] and the grammar.  With room for three calls for each
    level of its parentheses, and 21 more, the parser returns every tree of
    the grammar from the tokens that spell it: before an [EOF] token,
    whatever follows this token, which [parse] never reads; and at the end
    of a list without [EOF] token.  The tokens that spell a tree nest as
    deep as its parentheses, and no token list spells two trees of the
    grammar. *)
Theorem parser_returns_the_tree_spelled :
  (forall room e tokens eof rest,
     spells e tokens -> well_nested e = true -> type eof = EOF ->
     3 * paren_depth e + 5 + spare_room <= room ->
     StackParser.parse room (Parser.init (tokens ++ eof :: rest)) =
     Ok (e, parser_state tokens (eof :: rest)))
  /\ (forall room e tokens,
     spells e tokens -> well_nested e = true ->
     3 * paren_depth e + 5 + spare_room <= room ->
     StackParser.parse room (Parser.init tokens) =
     Ok (e, parser_state tokens []))
  /\ (forall e tokens, spells e tokens -> nesting tokens = paren_depth e)
  /\ (forall e1 e2 tokens,
     spells e1 tokens -> well_nested e1 = true ->
     spells e2 tokens -> well_nested e2 = true -> e1 = e2).
Proof.
  assert (Hd : forall e tokens,
             spells e tokens -> nesting tokens = paren_depth e).
  { intros e tokens Hs.
    pose proof (StackStringFacts.spells_nesting Hs []) as H.
    rewrite app_nil_r in H. cbn [nesting] in H. lia. }
  split; [|split; [|split; [exact Hd|]]].
  - intros room e tokens eof rest Hs Hw Hk Hr.
    rewrite StackParserFacts.parse_enough_all.
    + now apply OutcomeFacts.parse_spelled_eof.
    + rewrite (@StackStringFacts.nesting_eof tokens eof rest Hk),
        (Hd e tokens Hs).
      lia.
  - intros room e tokens Hs Hw Hr.
    rewrite StackParserFacts.parse_enough_all.
    + now apply OutcomeFacts.parse_spelled_end.
    + rewrite (Hd e tokens Hs). lia.
  - intros e1 e2 tokens Hs1 Hw1 Hs2 Hw2.
    pose proof (OutcomeFacts.parse_spelled_end Hs1 Hw1) as E1.
    pose proof (OutcomeFacts.parse_spelled_end Hs2 Hw2) as E2.
    congruence.
Qed.

Lemma parser_returns_the_tree_spelled_witness :
  StackParser.parse 30
    (Parser.init ([mkToken NUMBER (PyInt 7) 0] ++
                  mkToken EOF PyNone 1 :: [mkToken RPAREN (PyStr ")") 2])) =
  Ok (Num (PyInt 7),
      parser_state [mkToken NUMBER (PyInt 7) 0]
                   (mkToken EOF PyNone 1 :: [mkToken RPAREN (PyStr ")") 2])).
Proof.
  apply (proj1 parser_returns_the_tree_spelled 30
           (Num (value (mkToken NUMBER (PyInt 7) 0)))).
  - now apply spells_Num.
  - reflexivity.
  - reflexivity.
  - apply Nat.leb_le. reflexivity.
Defined.

(** X11 -- [parse].  After the tokens of a tree of the grammar, a token
    that is no operator and no [EOF] (a number or a parenthesis) is
    reported: [parse] raises the [ValueError] of this unexpected token,
    whatever follows it. *)
Theorem token_after_expression_is_unexpected
  (e : Expr) (tokens : list Token) (token : Token) (rest : list Token) :
  spells e tokens -> well_nested e = true ->
  Parser.is_additive (type token) = false ->
  Parser.is_multiplicative (type token) = false ->
  type token <> EOF ->
  Parser.parse (Parser.init (tokens ++ token :: rest)) =
  Raise (ValueError (UnexpectedToken token)).
Proof.
  intros Hs Hw Ha Hm Hk.
  destruct (GrammarFacts.parser_reads_grammar Hs Hw) as (_ & _ & He).
  pose proof (@GrammarFacts.expression_reads_all e tokens [] (token :: rest)
                He Hm Ha) as H.
  cbn [app] in H. rewrite (@ErrorFacts.parse_at _ _ H). simpl.
  apply TokenType_eqb_neq in Hk. now rewrite Hk.
Qed.

Lemma token_after_expression_is_unexpected_witness :
  Parser.parse
    (Parser.init ([mkToken NUMBER (PyInt 1) 0] ++
                  mkToken RPAREN (PyStr ")") 1 :: [mkToken EOF PyNone 2])) =
  Raise (ValueError (UnexpectedToken (mkToken RPAREN (PyStr ")") 1))).
Proof.
  apply (@token_after_expression_is_unexpected
           (Num (value (mkToken NUMBER (PyInt 1) 0)))).
  - now apply spells_Num.
  - reflexivity.
  - reflexivity.
  - reflexivity.
  - discriminate.
Defined.

(** X12 -- [parse_factor] under [parse].  Where an operand must start, a
    token that is no number and no opening parenthesis is reported: at the
    start of the list, and after the tokens of a tree of the grammar and an
    operator, [parse] raises the [ValueError] of this unexpected token.
    Where the list ends there, without [EOF] token, [parse_factor] reads
    the kind of no token and the [AttributeError] goes through [parse]. *)
Theorem missing_operand_is_reported :
  (forall token rest,
     type token <> NUMBER -> type token <> LPAREN ->
     Parser.parse (Parser.init (token :: rest)) =
     Raise (ValueError (UnexpectedToken token)))
  /\ (forall e tokens op token rest,
     spells e tokens -> well_nested e = true ->
     Parser.is_additive (type op) = true \/
     Parser.is_multiplicative (type op) = true ->
     type token <> NUMBER -> type token <> LPAREN ->
     Parser.parse (Parser.init (tokens ++ op :: token :: rest)) =
     Raise (ValueError (UnexpectedToken token)))
  /\ (forall e tokens op,
     spells e tokens -> well_nested e = true ->
     Parser.is_additive (type op) = true \/
     Parser.is_multiplicative (type op) = true ->
     Parser.parse (Parser.init (tokens ++ [op])) = Raise AttributeError)
  /\ Parser.parse (Parser.init []) = Raise AttributeError.
Proof.
  split; [|split; [|split; [|reflexivity]]].
  - intros token rest H1 H2.
    pose proof (@ErrorFacts.factor_unexpected [] token rest H1 H2) as H.
    apply ErrorFacts.term_raises, ErrorFacts.expression_raises in H.
    now rewrite (@ErrorFacts.parse_at _ _ H).
  - intros e tokens op token rest Hs Hw Hop H1 H2.
    pose proof (@ErrorFacts.factor_unexpected (([] ++ tokens) ++ [op])
                  token rest H1 H2) as H.
    apply (ErrorFacts.operand_raises Hs Hw op [] (token :: rest) Hop) in H.
    now rewrite (@ErrorFacts.parse_at _ _ H).
  - intros e tokens op Hs Hw Hop.
    pose proof (ErrorFacts.factor_nothing (([] ++ tokens) ++ [op])) as H.
    apply (ErrorFacts.operand_raises Hs Hw op [] [] Hop) in H.
    now rewrite (@ErrorFacts.parse_at _ _ H).
Qed.

Lemma missing_operand_is_reported_witness :
  Parser.parse
    (Parser.init ([mkToken NUMBER (PyInt 1) 0] ++
                  mkToken PLUS (PyStr "+") 1 ::
                  mkToken MULTIPLY (PyStr "*") 2 ::
                  [mkToken NUMBER (PyInt 2) 3; mkToken EOF PyNone 4])) =
  Raise (ValueError (UnexpectedToken (mkToken MULTIPLY (PyStr "*") 2))).
Proof.
  apply (proj1 (proj2 missing_operand_is_reported)
           (Num (value (mkToken NUMBER (PyInt 1) 0)))).
  - now apply spells_Num.
  - reflexivity.
  - left. reflexivity.
  - discriminate.
  - discriminate.
Defined.

(** X13 -- [parse_factor], [expect].  An opening parenthesis and the
    tokens of a tree of the grammar, followed by a token that neither goes
    on with the expression nor closes the parenthesis (a number, an opening
    parenthesis or [EOF]) or by no token: [parse] raises the [ValueError]
    that expects [RPAREN] and names the kind found, "EOF" when the list
    ends there. *)
Theorem unclosed_parenthesis_is_reported
  (e : Expr) (tokens : list Token) (lp : Token) (rest : list Token) :
  spells e tokens -> well_nested e = true -> type lp = LPAREN ->
  starts_with Parser.is_additive rest = false ->
  starts_with Parser.is_multiplicative rest = false ->
  starts_with (fun k => TokenType_eqb k RPAREN) rest = false ->
  Parser.parse (Parser.init (lp :: tokens ++ rest)) =
  Raise (ValueError
           (ExpectedGot "RPAREN"
              match rest with
              | [] => "EOF"%string
              | token :: _ => TokenType_value (type token)
              end)).
Proof.
  intros Hs Hw Hlp Ha Hm Hr.
  pose proof (@ErrorFacts.factor_unclosed e tokens lp [] rest
                Hs Hw Hlp Ha Hm Hr) as H.
  apply ErrorFacts.term_raises, ErrorFacts.expression_raises in H.
  now rewrite (@ErrorFacts.parse_at _ _ H).
Qed.

Lemma unclosed_parenthesis_is_reported_witness :
  Parser.parse
    (Parser.init (mkToken LPAREN (PyStr "(") 0 ::
                  [mkToken NUMBER (PyInt 1) 1] ++
                  [mkToken NUMBER (PyInt 2) 3; mkToken EOF PyNone 4])) =
  Raise (ValueError (ExpectedGot "RPAREN" "NUMBER")).
Proof.
  apply (@unclosed_parenthesis_is_reported
           (Num (value (mkToken NUMBER (PyInt 1) 1)))
           [mkToken NUMBER (PyInt 1) 1]
           (mkToken LPAREN (PyStr "(") 0)
           [mkToken NUMBER (PyInt 2) 3; mkToken EOF PyNone 4]).
  - now apply spells_Num.
  - reflexivity.
  - reflexivity.
  - reflexivity.
  - reflexivity.
  - reflexivity.
Defined.



(** X15 -- [tokenize], [get_next_token], [skip_whitespace], [read_number],
    [advance], [Token].  The lexer loops and does not recurse: whatever the
    text, its calls nest four deep at most.  With room for them, and 16
    more, [tokenize] on the stack of the interpreter returns or raises what
    it does on a stack without limit; with less room it does the same or
    raises a [RecursionError], and nothing else. *)
Theorem tokenize_needs_constant_room :
  (forall room l,
     4 + spare_room <= room ->
     StackLexer.tokenize room l = Lexer.tokenize l)
  /\ (forall room l,
     StackLexer.tokenize room l = Lexer.tokenize l
     \/ StackLexer.tokenize room l = Raise RecursionError)
  /\ (forall room s,
     room <= 1 ->
     StackLexer.tokenize room (Lexer.init s) = Raise RecursionError).
Proof.
  split; [|split].
  - intros room l Hr. apply StackLexerFacts.tokenize_enough. lia.
  - intros room l. exact (StackLexerFacts.tokenize_refines room l).
  - intros room s Hr. unfold StackLexer.tokenize.
    destruct room as [|[|room]]; [reflexivity | | lia].
    cbn [call]. rewrite LexerFacts.init_state, LexerFacts.fuel_state.
    replace (String.length s + 2) with (S (String.length s + 1)) by lia.
    reflexivity.
Qed.

Lemma tokenize_needs_constant_room_witness :
  StackLexer.tokenize 20 (Lexer.init "12 + 3.5") =
  Lexer.tokenize (Lexer.init "12 + 3.5").
Proof.
  apply (proj1 tokenize_needs_constant_room 20 (Lexer.init "12 + 3.5")).
  apply Nat.leb_le. reflexivity.
Defined.
